(** * PHP to JS converter: the editor page and the transpiler it drives

    The repository holds the editor page ([src/app/page.tsx], and an
    earlier revision of the same page in [src/unnamed/part_000]).  The
    transpiler itself is a WebAssembly module loaded at run time from
    [/wasm/transpiler.js]; the page only sees it through [ccall].

    Part I embeds the page: its React state, its event handlers and the
    timers they schedule, as a transition system.
    Part II models the transpiler core (lexer, parser, generator, facade)
    from its written specification. *)

From Stdlib Require Import String Ascii List Bool Arith Lia ZArith.
Import ListNotations.

#[local] Set Warnings "-register-all".

Local Open Scope string_scope.
Local Open Scope list_scope.

(* ================================================================= *)
(** * Part I: the editor page *)

Module Page.

(** ** The WASM module as the page types it

    [type TranspilerModule = { ccall: (ident, returnType, argTypes, args) => string }].
    A call either returns a string or throws; what is thrown is opaque to
    the page, so it is a type parameter. *)

Section WithThrown.

Variable exn : Type.

Record CCall : Type := mkCCall
  { ident : string;
    returnType : string;
    argTypes : list string;
    args : list string }.

Inductive Completion : Type :=
| Returns (result : string)
| Throws (err : exn).

Record TranspilerModule : Type := mkModule
  { ccall : CCall -> Completion }.

(** What a [catch (err)] can receive in [runTranspile]: whatever the
    module threw, or the [TypeError] of calling [.ccall] on [null]. *)
Inductive Caught : Type :=
| ModuleThrew (err : exn)
| NullDeref.

(** ** Component state: one field per [useRef] / [useState] *)

Record State : Type := mkState
  { moduleRef : option TranspilerModule;
    loading : bool;
    converting : bool;
    toast : string;
    showModal : bool;
    phpCode : string;
    jsCode : string }.

Definition setLoading (b : bool) (st : State) : State :=
  mkState (moduleRef st) b (converting st) (toast st) (showModal st) (phpCode st) (jsCode st).
Definition setConverting (b : bool) (st : State) : State :=
  mkState (moduleRef st) (loading st) b (toast st) (showModal st) (phpCode st) (jsCode st).
Definition setToast (s : string) (st : State) : State :=
  mkState (moduleRef st) (loading st) (converting st) s (showModal st) (phpCode st) (jsCode st).
Definition setShowModal (b : bool) (st : State) : State :=
  mkState (moduleRef st) (loading st) (converting st) (toast st) b (phpCode st) (jsCode st).
Definition setPhpCode (s : string) (st : State) : State :=
  mkState (moduleRef st) (loading st) (converting st) (toast st) (showModal st) s (jsCode st).
Definition setJsCode (s : string) (st : State) : State :=
  mkState (moduleRef st) (loading st) (converting st) (toast st) (showModal st) (phpCode st) s.
Definition setModuleRef (m : TranspilerModule) (st : State) : State :=
  mkState (Some m) (loading st) (converting st) (toast st) (showModal st) (phpCode st) (jsCode st).

Definition newline : string := String (ascii_of_nat 10) EmptyString.
Definition dquote : string := String (ascii_of_nat 34) EmptyString.

(** The initial value of [phpCode] (the template literal of [useState]). *)
Definition initialPhp : string :=
  "$a = 10;" ++ newline ++
  "$b = 20;" ++ newline ++
  "if ($a < $b) {" ++ newline ++
  "  echo " ++ dquote ++ "B is greater" ++ dquote ++ ";" ++ newline ++
  "} else {" ++ newline ++
  "  echo " ++ dquote ++ "A is greater" ++ dquote ++ ";" ++ newline ++
  "}" ++ newline.

Definition sample1 : string :=
  "$a = 1;" ++ newline ++
  "$b = 2;" ++ newline ++
  "$c = $a + $b * 10;" ++ newline ++
  "echo $c;" ++ newline ++
  "while ($a < 5) {" ++ newline ++
  "  echo $a;" ++ newline ++
  "  $a = $a + 1;" ++ newline ++
  "}" ++ newline.

Definition initialState : State :=
  mkState None true false EmptyString false initialPhp EmptyString.

(** ** Effects and timers

    A [setTimeout] callback is a closure; the only free state variable
    the transpile callback reads is [phpCode], captured when the handler
    was created, so the closure is represented by that captured text. *)

Inductive Callback : Type :=
| TranspileCallback (capturedPhp : string)
| ClearToast.

Inductive Effect : Type :=
| Alert (msg : string)
| ConsoleMessage (msg : string)
| ConsoleError (what : Caught)
| ClipboardWrite (text : string)
| ModuleCall (call : CCall)
| SetTimeout (cb : Callback) (delay : nat).

(** ** Handlers *)

(** [showToast]: set the toast, and schedule its reset to the empty string after 2000 ms. *)
Definition showToast (message : string) (st : State) : State * list Effect :=
  (setToast message st, [SetTimeout ClearToast 2000]).

(** The [ccall] issued by the timer callback of [runTranspile]. *)
Definition transpileCall (php : string) : CCall :=
  mkCCall "transpile" "string" ["string"] [php].

(** [runTranspile], up to and including [setTimeout(..., 300)]. *)
Definition runTranspile (st : State) : State * list Effect :=
  match moduleRef st with
  | None => (st, [Alert "WASM not loaded yet"])
  | Some _ => (setConverting true st, [SetTimeout (TranspileCallback (phpCode st)) 300])
  end.

(** The body of the timer callback: [try { ... } catch { ... } finally { ... }]. *)
Definition transpileCallback (capturedPhp : string) (st : State) : State * list Effect :=
  match moduleRef st with
  | None =>
      (setConverting false (setJsCode "// transpile error" st),
       [ConsoleError NullDeref])
  | Some m =>
      match ccall m (transpileCall capturedPhp) with
      | Returns result =>
          (setConverting false (setJsCode result st),
           [ModuleCall (transpileCall capturedPhp)])
      | Throws err =>
          (setConverting false (setJsCode "// transpile error" st),
           [ModuleCall (transpileCall capturedPhp); ConsoleError (ModuleThrew err)])
      end
  end.

Definition runCallback (cb : Callback) (st : State) : State * list Effect :=
  match cb with
  | TranspileCallback php => transpileCallback php st
  | ClearToast => (setToast EmptyString st, [])
  end.

(** [copyToClipboard], [clearAll], [loadSample] of [src/app/page.tsx]. *)
Definition copyToClipboard (st : State) : State * list Effect :=
  let '(st', effs) := showToast "Copied to clipboard!" st in
  (st', ClipboardWrite (jsCode st) :: effs).

Definition clearAll (st : State) : State * list Effect :=
  showToast "Cleared all code!" (setJsCode EmptyString (setPhpCode EmptyString st)).

Definition loadSample (st : State) : State * list Effect :=
  showToast "Sample code loaded!" (setPhpCode sample1 st).

(** The same handlers in the earlier revision ([src/unnamed/part_000]),
    which has no toast. *)
Definition copyToClipboard_part000 (st : State) : State * list Effect :=
  (st, [ClipboardWrite (jsCode st)]).

Definition clearAll_part000 (st : State) : State * list Effect :=
  (setJsCode EmptyString (setPhpCode EmptyString st), []).

Definition loadSample_part000 (st : State) : State * list Effect :=
  (setPhpCode sample1 st, []).

(** ** Rendered attributes *)

(** JavaScript [!s] on a string: true exactly on the empty string. *)
Definition js_not (s : string) : bool :=
  match s with
  | EmptyString => true
  | String _ _ => false
  end.

(** [disabled={!jsCode}] on the copy button. *)
Definition copyDisabled (st : State) : bool := js_not (jsCode st).

(** [disabled={loading || converting}] on the convert button. *)
Definition convertDisabled (st : State) : bool := loading st || converting st.

(** ** The page as a transition system

    The system state is the component state, the timers that are pending
    and the effects performed so far.  Clicks on a disabled button are
    not delivered, so those events are guarded by the [disabled]
    attribute. *)

Inductive Event : Type :=
| ScriptLoadedNoFactory
| ModuleResolved (m : TranspilerModule)
| ModuleRejected
| ScriptError
| EditPhp (value : string)
| ClickSample
| ClickClear
| ClickCopy
| ClickConvert
| OpenModal
| CloseModal
| TimerFires (k : nat).

Record Sys : Type := mkSys
  { ui : State;
    timers : list Callback;
    trace : list Effect }.

Definition scheduled (effs : list Effect) : list Callback :=
  flat_map (fun e => match e with SetTimeout cb _ => [cb] | _ => [] end) effs.

Definition perform (r : State * list Effect) (s : Sys) : Sys :=
  mkSys (fst r) (timers s ++ scheduled (snd r)) (trace s ++ snd r).

Fixpoint remove_nth {A : Type} (k : nat) (l : list A) : list A :=
  match l, k with
  | [], _ => []
  | _ :: tl, 0 => tl
  | x :: tl, S k' => x :: remove_nth k' tl
  end.

(** The two revisions of the page differ in the handlers of the sample,
    clear and copy buttons, and the earlier one has no modal. *)
Inductive Revision : Type :=
| PageTsx
| Part000.

Definition dispatch (rev : Revision) (ev : Event) (s : Sys) : Sys :=
  let st := ui s in
  match ev with
  | ScriptLoadedNoFactory =>
      perform (setLoading false st, [ConsoleMessage "createTranspilerModule not found"]) s
  | ModuleResolved m => perform (setLoading false (setModuleRef m st), []) s
  | ModuleRejected =>
      perform (setLoading false st, [ConsoleMessage "WASM module init failed:"]) s
  | ScriptError =>
      perform (setLoading false st, [ConsoleMessage "Failed to load transpiler.js"]) s
  | EditPhp v => perform (setPhpCode v st, []) s
  | ClickSample =>
      match rev with
      | PageTsx => perform (loadSample st) s
      | Part000 => perform (loadSample_part000 st) s
      end
  | ClickClear =>
      match rev with
      | PageTsx => perform (clearAll st) s
      | Part000 => perform (clearAll_part000 st) s
      end
  | ClickCopy =>
      if copyDisabled st then s
      else match rev with
           | PageTsx => perform (copyToClipboard st) s
           | Part000 => perform (copyToClipboard_part000 st) s
           end
  | ClickConvert => if convertDisabled st then s else perform (runTranspile st) s
  | OpenModal =>
      match rev with
      | PageTsx => perform (setShowModal true st, []) s
      | Part000 => s
      end
  | CloseModal =>
      match rev with
      | PageTsx => perform (setShowModal false st, []) s
      | Part000 => s
      end
  | TimerFires k =>
      match nth_error (timers s) k with
      | None => s
      | Some cb =>
          perform (runCallback cb st) (mkSys st (remove_nth k (timers s)) (trace s))
      end
  end.

Definition initialSys : Sys := mkSys initialState [] [].

Definition run (rev : Revision) (evs : list Event) : Sys :=
  fold_left (fun s ev => dispatch rev ev s) evs initialSys.

Definition isTranspileCallback (cb : Callback) : bool :=
  match cb with TranspileCallback _ => true | ClearToast => false end.

(** A transpile timer is pending only while the page is past loading. *)
Definition timers_ok (s : Sys) : Prop :=
  existsb isTranspileCallback (timers s) = true -> loading (ui s) = false.

(** What the page may ask of the module: the export [transpile], one
    string in, a string out. *)
Definition isTranspileCall (eff : Effect) : Prop :=
  match eff with
  | ModuleCall c =>
      ident c = "transpile" /\ returnType c = "string" /\
      argTypes c = ["string"] /\ exists php, args c = [php]
  | _ => True
  end.

End WithThrown.

Arguments Returns {exn} result.
Arguments Throws {exn} err.
Arguments mkModule {exn} ccall.
Arguments ccall {exn} t call.
Arguments ModuleThrew {exn} err.
Arguments NullDeref {exn}.
Arguments mkState {exn}.
Arguments moduleRef {exn} s.
Arguments loading {exn} s.
Arguments converting {exn} s.
Arguments toast {exn} s.
Arguments showModal {exn} s.
Arguments phpCode {exn} s.
Arguments jsCode {exn} s.
Arguments setLoading {exn} b st.
Arguments setConverting {exn} b st.
Arguments setToast {exn} s st.
Arguments setShowModal {exn} b st.
Arguments setPhpCode {exn} s st.
Arguments setJsCode {exn} s st.
Arguments setModuleRef {exn} m st.
Arguments initialState {exn}.
Arguments Alert {exn} msg.
Arguments ConsoleMessage {exn} msg.
Arguments ConsoleError {exn} what.
Arguments ClipboardWrite {exn} text.
Arguments ModuleCall {exn} call.
Arguments SetTimeout {exn} cb delay.
Arguments showToast {exn} message st.
Arguments runTranspile {exn} st.
Arguments transpileCallback {exn} capturedPhp st.
Arguments runCallback {exn} cb st.
Arguments copyToClipboard {exn} st.
Arguments clearAll {exn} st.
Arguments loadSample {exn} st.
Arguments copyToClipboard_part000 {exn} st.
Arguments clearAll_part000 {exn} st.
Arguments loadSample_part000 {exn} st.
Arguments copyDisabled {exn} st.
Arguments convertDisabled {exn} st.
Arguments ModuleResolved {exn} m.
Arguments ScriptLoadedNoFactory {exn}.
Arguments ModuleRejected {exn}.
Arguments ScriptError {exn}.
Arguments EditPhp {exn} value.
Arguments ClickSample {exn}.
Arguments ClickClear {exn}.
Arguments ClickCopy {exn}.
Arguments ClickConvert {exn}.
Arguments OpenModal {exn}.
Arguments CloseModal {exn}.
Arguments TimerFires {exn} k.
Arguments mkSys {exn}.
Arguments ui {exn} s.
Arguments timers {exn} s.
Arguments trace {exn} s.
Arguments scheduled {exn} effs.
Arguments perform {exn} r s.
Arguments dispatch {exn} rev ev s.
Arguments initialSys {exn}.
Arguments run {exn} rev evs.
Arguments timers_ok {exn} s.

(** A module whose every call throws, loaded and then asked to convert. *)
Definition throwingModule : TranspilerModule unit := mkModule (fun _ => Throws tt).

Definition failingSession : list (Event unit) :=
  [ModuleResolved throwingModule; ClickConvert].

(** ** Further notions about the page

    Runs that start in any state, what is pending, what is rendered, and
    clicks inside the modal. *)

Section Further.

Variable exn : Type.

(** The events [evs] delivered one after the other, starting in [s]. *)
Definition runFrom (rev : Revision) (evs : list (Event exn)) (s : Sys exn) : Sys exn :=
  fold_left (fun s ev => dispatch rev ev s) evs s.

Definition isClearToast (cb : Callback) : bool :=
  match cb with ClearToast => true | TranspileCallback _ => false end.

(** The number of conversion timers that are pending. *)
Definition pendingConversions (s : Sys exn) : nat :=
  List.length (filter isTranspileCallback (timers s)).

(** The label of the convert button: [converting ? "Converting..." : "Convert"]. *)
Definition convertLabel (st : State exn) : string :=
  if converting st then "Converting..." else "Convert".

(** The status badge: [loading ? "Loading" : "Ready"]. *)
Definition statusBadge (st : State exn) : string :=
  if loading st then "Loading" else "Ready".

(** [{toast && (...)}]: the toast is rendered when the text is not empty. *)
Definition toastVisible (st : State exn) : bool := negb (js_not (toast st)).

Definition isTimerFires (ev : Event exn) : bool :=
  match ev with TimerFires _ => true | _ => false end.

Definition isModuleResolved (ev : Event exn) : bool :=
  match ev with ModuleResolved _ => true | _ => false end.

(** The four ways in which loading the script can end. *)
Definition endsLoading (ev : Event exn) : bool :=
  match ev with
  | ScriptLoadedNoFactory | ModuleResolved _ | ModuleRejected | ScriptError => true
  | _ => false
  end.

(** What a conversion of [php] by the module [m] puts into the output:
    the string the call returns, or the fixed text when it throws. *)
Definition conversionOutput (m : TranspilerModule exn) (php : string) : string :=
  match ccall m (transpileCall php) with
  | Returns result => result
  | Throws _ => "// transpile error"
  end.

Definition isAlert (eff : Effect exn) : bool :=
  match eff with Alert _ => true | _ => false end.

Definition isModuleCall (eff : Effect exn) : bool :=
  match eff with ModuleCall _ => true | _ => false end.

Definition isClipboardWrite (eff : Effect exn) : bool :=
  match eff with ClipboardWrite _ => true | _ => false end.

Definition isNullDeref (eff : Effect exn) : bool :=
  match eff with ConsoleError NullDeref => true | _ => false end.

Definition schedulesConversion (eff : Effect exn) : bool :=
  match eff with SetTimeout (TranspileCallback _) _ => true | _ => false end.

Definition schedulesClearToast (eff : Effect exn) : bool :=
  match eff with SetTimeout ClearToast _ => true | _ => false end.

Definition isConsoleMessage (eff : Effect exn) : bool :=
  match eff with ConsoleMessage _ => true | _ => false end.

(** A clipboard write carries some text. *)
Definition writesSomething (eff : Effect exn) : Prop :=
  match eff with
  | ClipboardWrite text => text <> EmptyString
  | _ => True
  end.

(** The two timers of the page: the conversion after 300 ms and the
    reset of the toast after 2000 ms. *)
Definition knownTimer (eff : Effect exn) : Prop :=
  match eff with
  | SetTimeout (TranspileCallback _) delay => delay = 300
  | SetTimeout ClearToast delay => delay = 2000
  | _ => True
  end.

(** What holds of every state the page reaches: a conversion is pending
    exactly while [converting], only with a module loaded, and while
    [loading] nothing has been loaded or converted. *)
Definition wellFormed (s : Sys exn) : Prop :=
  pendingConversions s = (if converting (ui s) then 1 else 0) /\
  (converting (ui s) = true -> moduleRef (ui s) <> None) /\
  (loading (ui s) = true ->
   moduleRef (ui s) = None /\ jsCode (ui s) = EmptyString /\ converting (ui s) = false).

(** Effects that only a page past loading performs. *)
Definition needsLoaded (eff : Effect exn) : bool :=
  isAlert eff || isModuleCall eff || isClipboardWrite eff.

(** Effects that only a page holding a module performs. *)
Definition needsModule (eff : Effect exn) : bool :=
  isModuleCall eff || isClipboardWrite eff || schedulesConversion eff.

(** The clicks that show a toast whatever the state ([loadSample] and
    [clearAll]; the copy button can be disabled). *)
Definition alwaysToasts (ev : Event exn) : bool :=
  match ev with ClickSample | ClickClear => true | _ => false end.

(** A conversion of [php] has been requested: its timer was set. *)
Definition requested (php : string) (s : Sys exn) : Prop :=
  In (SetTimeout (TranspileCallback php) 300) (trace s).

(** A clipboard write of what the module [m] gave for a text whose
    conversion was requested. *)
Definition copiesOutputOf (m : TranspilerModule exn) (s : Sys exn) (eff : Effect exn) : Prop :=
  match eff with
  | ClipboardWrite text => exists php, requested php s /\ text = conversionOutput m php
  | _ => True
  end.

(** *** Clicks inside the modal

    The backdrop closes the modal on click, the panel inside it stops
    the propagation of the click, and the close button inside the panel
    closes the modal.  A handler returns the new state and whether it
    stopped the propagation; a click runs the handlers from its target
    outwards. *)

Inductive ModalTarget : Type :=
| Backdrop
| Panel
| CloseButton.

Definition ClickHandler : Type := State exn -> State exn * bool.

Definition closeModalHandler : ClickHandler :=
  fun st => (setShowModal false st, false).

Definition stopPropagationHandler : ClickHandler :=
  fun st => (st, true).

Definition modalPath (target : ModalTarget) : list ClickHandler :=
  match target with
  | CloseButton => [closeModalHandler; stopPropagationHandler; closeModalHandler]
  | Panel => [stopPropagationHandler; closeModalHandler]
  | Backdrop => [closeModalHandler]
  end.

Fixpoint bubble (handlers : list ClickHandler) (st : State exn) : State exn :=
  match handlers with
  | [] => st
  | h :: outer =>
      let '(st', stopped) := h st in
      if stopped then st' else bubble outer st'
  end.

(** The modal is rendered, and can be clicked, only while [showModal]. *)
Definition clickModal (target : ModalTarget) (st : State exn) : State exn :=
  if showModal st then bubble (modalPath target) st else st.

End Further.

Arguments runFrom {exn} rev evs s.
Arguments pendingConversions {exn} s.
Arguments convertLabel {exn} st.
Arguments statusBadge {exn} st.
Arguments toastVisible {exn} st.
Arguments isTimerFires {exn} ev.
Arguments isModuleResolved {exn} ev.
Arguments endsLoading {exn} ev.
Arguments conversionOutput {exn} m php.
Arguments schedulesConversion {exn} eff.
Arguments schedulesClearToast {exn} eff.
Arguments isAlert {exn} eff.
Arguments isModuleCall {exn} eff.
Arguments isClipboardWrite {exn} eff.
Arguments isNullDeref {exn} eff.
Arguments writesSomething {exn} eff.
Arguments knownTimer {exn} eff.
Arguments wellFormed {exn} s.
Arguments needsLoaded {exn} eff.
Arguments copiesOutputOf {exn} m s eff.
Arguments isConsoleMessage {exn} eff.
Arguments requested {exn} php s.
Arguments needsModule {exn} eff.
Arguments alwaysToasts {exn} ev.
Arguments clickModal {exn} target st.

(** A module that returns its input inside a comment, for examples. *)
Definition echoModule : TranspilerModule unit :=
  mkModule (fun call =>
    match args call with
    | [php] => Returns ("/* " ++ php ++ " */")
    | _ => Throws tt
    end).


End Page.

(* ================================================================= *)
(** * Part II: the transpiler core, from its specification

    The source of the transpiler is not part of the repository (only the
    page that calls it is), so the lexer, the parser, the generator and
    the facade of this part are modelled from the written specification
    of the core.  The part ends with the notions the properties are
    stated in: the variables of the input and the words of the output
    text, arithmetic expressions as they are written, and the value of
    JavaScript expression text. *)

Module Core.

Local Open Scope nat_scope.

(** ** Data model (specification section 3) *)

(** Modelled from the spec: the token kinds of the absent lexer. *)
Inductive TokenKind : Type :=
| TNumber | TIdentifier | TString | TKeyword | TOperator | TPunctuation | TEOF.

(** Modelled from the spec: a token of the absent lexer, with its kind,
    literal text and source offset. *)
Record Token : Type := mkToken
  { kind : TokenKind;
    text : string;
    offset : nat }.

(** Modelled from the spec: the error taxonomy of the absent stages
    (section 7). *)
Inductive StageError : Type :=
| LexError (position : nat) (unexpectedChar : ascii)
| ParseError (position : nat) (expectedKind : string) (foundKind : TokenKind)
| UnsupportedConstruct (position : nat) (construct : string).

Inductive Result (A E : Type) : Type :=
| Ok (a : A)
| Err (e : E).
Arguments Ok {A E} a.
Arguments Err {A E} e.

(** ** Lexer (specification section 4.1) *)

Definition code (c : ascii) : nat := nat_of_ascii c.

Definition between (lo hi : nat) (c : ascii) : bool :=
  Nat.leb lo (code c) && Nat.leb (code c) hi.

Definition isDigit (c : ascii) : bool := between 48 57 c.
Definition isIdentStart (c : ascii) : bool :=
  between 65 90 c || between 97 122 c || (code c =? 95).
Definition isIdentChar (c : ascii) : bool := isIdentStart c || isDigit c.
Definition isSpace (c : ascii) : bool :=
  (code c =? 32) || (code c =? 9) || (code c =? 10) || (code c =? 13).
Definition notNewline (c : ascii) : bool := negb (code c =? 10).

Fixpoint takeWhile (p : ascii -> bool) (cs : list ascii) : list ascii :=
  match cs with
  | [] => []
  | c :: rest => if p c then c :: takeWhile p rest else []
  end.

Definition str (cs : list ascii) : string := string_of_list_ascii cs.

(** A decimal literal: digits, and a fraction when a dot is followed by
    a digit. *)
Definition scanNumber (cs : list ascii) : list ascii :=
  let whole := takeWhile isDigit cs in
  match skipn (List.length whole) cs with
  | dot :: d :: after =>
      if (code dot =? 46) && isDigit d
      then whole ++ dot :: takeWhile isDigit (d :: after)
      else whole
  | _ => whole
  end.

(** The escape sequences of a quoted string: backslash followed by a
    quote, a backslash or [n]; any other pair is kept as written. *)
Definition unescape (e : ascii) : list ascii :=
  if code e =? 110 then [ascii_of_nat 10]
  else if (code e =? 92) || (code e =? 34) || (code e =? 39) then [e]
  else [ascii_of_nat 92; e].

(** The value of a string literal and the number of characters up to and
    including its closing quote [q]; [None] when the quote never closes. *)
Fixpoint scanString (q : ascii) (cs : list ascii) : option (list ascii * nat) :=
  match cs with
  | [] => None
  | c :: rest =>
      if Ascii.eqb c q then Some ([], 1)
      else if code c =? 92 then
        match rest with
        | [] => None
        | e :: rest' =>
            match scanString q rest' with
            | Some (v, n) => Some (unescape e ++ v, S (S n))
            | None => None
            end
        end
      else
        match scanString q rest with
        | Some (v, n) => Some (c :: v, S n)
        | None => None
        end
  end.

Definition keywords : list string := ["if"; "else"; "while"; "echo"].

Definition isKeyword (w : string) : bool := existsb (String.eqb w) keywords.

(** Two-character operators are tried before one-character ones. *)
Definition operator2 (c : ascii) (rest : list ascii) : option string :=
  match rest with
  | d :: _ =>
      if (code d =? 61) &&
         ((code c =? 60) || (code c =? 62) || (code c =? 61) || (code c =? 33))
      then Some (str [c; d]) else None
  | [] => None
  end.

Definition isOperatorChar (c : ascii) : bool :=
  (code c =? 43) || (code c =? 45) || (code c =? 42) || (code c =? 47) ||
  (code c =? 60) || (code c =? 62) || (code c =? 61).

Definition isPunctuation (c : ascii) : bool :=
  (code c =? 40) || (code c =? 41) || (code c =? 123) || (code c =? 125) ||
  (code c =? 59).

(** The brackets and the comma of PHP arrays and argument lists.  They
    are no punctuation of the supported subset, but an array or a call
    is to be reported by the parser (sections 7 and 8, scenario 6), so
    the lexer has to pass them on. *)
Definition isForeignPunctuation (c : ascii) : bool :=
  (code c =? 91) || (code c =? 93) || (code c =? 44).

Definition punctuationTexts : list string := ["("; ")"; "{"; "}"; ";"].

(** What starts at the head of the input, and how many characters it
    spans. *)
Inductive Lexeme : Type :=
| Trivia (len : nat)
| Lexed (k : TokenKind) (txt : string) (len : nat)
| Unexpected (c : ascii).

Definition startsComment (c : ascii) (rest : list ascii) : bool :=
  (code c =? 35) ||
  ((code c =? 47) && match rest with d :: _ => code d =? 47 | [] => false end).

(** Modelled from the spec: one step of the absent lexer.  Blanks and
    line comments ([//], [#]) are skipped; [$name] is an identifier
    without its sigil; numbers, quoted strings, words, operators (two
    characters before one) and punctuation are tokens; any other
    character is unexpected.  A word without a sigil is a token of kind
    [Keyword] with the word as its text: the parser tells the four
    keywords from the words of constructs outside the subset
    ([function], [array], a called name), which it has to report. *)
Definition scan (cs : list ascii) : Lexeme :=
  match cs with
  | [] => Trivia 0
  | c :: rest =>
      if isSpace c then Trivia 1
      else if startsComment c rest then Trivia (S (List.length (takeWhile notNewline rest)))
      else if code c =? 36 then
        match takeWhile isIdentChar rest with
        | n0 :: name =>
            if isIdentStart n0
            then Lexed TIdentifier (str (n0 :: name)) (S (S (List.length name)))
            else Unexpected c
        | [] => Unexpected c
        end
      else if isDigit c then
        Lexed TNumber (str (scanNumber cs)) (List.length (scanNumber cs))
      else if (code c =? 34) || (code c =? 39) then
        match scanString c rest with
        | Some (v, n) => Lexed TString (str v) (S n)
        | None => Unexpected c
        end
      else if isIdentStart c then
        let w := takeWhile isIdentChar cs in
        Lexed TKeyword (str w) (List.length w)
      else
        match operator2 c rest with
        | Some op => Lexed TOperator op 2
        | None =>
            if isOperatorChar c then Lexed TOperator (str [c]) 1
            else if isPunctuation c || isForeignPunctuation c
            then Lexed TPunctuation (str [c]) 1
            else Unexpected c
        end
  end.

Definition consToken (t : Token) (r : Result (list Token) StageError)
  : Result (list Token) StageError :=
  match r with
  | Ok ts => Ok (t :: ts)
  | Err e => Err e
  end.

(** Modelled from the spec: the token sequence of the absent lexer,
    from offset [pos] on; [skip] counts the characters of the current
    lexeme that are still to be stepped over.  The sequence ends with
    the [TEOF] token, or fails at the first unexpected character. *)
Fixpoint lexFrom (cs : list ascii) (pos skip : nat) : Result (list Token) StageError :=
  match cs with
  | [] => Ok [mkToken TEOF EmptyString pos]
  | _ :: rest =>
      match skip with
      | S k => lexFrom rest (S pos) k
      | 0 =>
          match scan cs with
          | Trivia n => lexFrom rest (S pos) (pred n)
          | Lexed k txt n => consToken (mkToken k txt pos) (lexFrom rest (S pos) (pred n))
          | Unexpected ch => Err (LexError pos ch)
          end
      end
  end.

(** Modelled from the spec: [tokenize] of the absent lexer. *)
Definition tokenize (source : string) : Result (list Token) StageError :=
  lexFrom (list_ascii_of_string source) 0 0.

(** ** Abstract syntax (specification section 3) *)

Inductive BinOp : Type :=
| Add | Sub | Mul | Div | Lt | Gt | Le | Ge | Eq | Ne.

(** Modelled from the spec: the expression nodes of the absent AST.  A
    number keeps the text of its literal. *)
Inductive Expression : Type :=
| NumberLiteral (value : string)
| StringLiteral (value : string)
| VariableRef (name : string)
| BinaryOp (op : BinOp) (left right : Expression).

(** Modelled from the spec: the statement nodes of the absent AST. *)
Inductive Statement : Type :=
| Assignment (variableName : string) (expr : Expression)
| EchoStatement (expr : Expression)
| IfStatement (condition : Expression) (thenBlock : list Statement)
              (elseBlockOptional : option (list Statement))
| WhileStatement (condition : Expression) (body : list Statement)
| Block (statements : list Statement).

Definition Program : Type := list Statement.

(** ** Parser (specification section 4.2)

    Recursive descent.  The recursion is driven by a fuel counter, which
    [parse] sets above the number of tokens; a parser returns the tokens
    it did not consume. *)

Inductive PResult (A : Type) : Type :=
| POk (a : A) (rest : list Token)
| PErr (e : StageError)
| POutOfFuel.
Arguments POk {A} a rest.
Arguments PErr {A} e.
Arguments POutOfFuel {A}.

Definition Parser (A : Type) : Type := list Token -> PResult A.

Definition bind {A B : Type} (r : PResult A) (f : A -> Parser B) : PResult B :=
  match r with
  | POk a rest => f a rest
  | PErr e => PErr e
  | POutOfFuel => POutOfFuel
  end.

Definition kind_eqb (a b : TokenKind) : bool :=
  match a, b with
  | TNumber, TNumber | TIdentifier, TIdentifier | TString, TString
  | TKeyword, TKeyword | TOperator, TOperator | TPunctuation, TPunctuation
  | TEOF, TEOF => true
  | _, _ => false
  end.

Definition isToken (k : TokenKind) (txt : string) (t : Token) : bool :=
  kind_eqb (kind t) k && String.eqb (text t) txt.

(** The tokens of PHP outside the supported subset: the brackets and
    commas of arrays and argument lists, and the words that are none of
    the four keywords. *)
Definition isForeign (t : Token) : bool :=
  match kind t with
  | TPunctuation => negb (existsb (String.eqb (text t)) punctuationTexts)
  | TKeyword => negb (isKeyword (text t))
  | _ => false
  end.

(** Modelled from the spec: the error of the absent parser for the token
    [t] found where [expected] was expected (section 7).  A token of the
    supported subset in the wrong place is a grammar violation; a token
    outside the subset is an unsupported construct. *)
Definition unexpected (expected : string) (t : Token) : StageError :=
  if isForeign t then UnsupportedConstruct (offset t) (text t)
  else ParseError (offset t) expected (kind t).

(** Consume the token [txt] of kind [k], or fail where it is missing. *)
Definition expect (k : TokenKind) (txt : string) : Parser unit :=
  fun ts =>
    match ts with
    | t :: rest =>
        if isToken k txt t then POk tt rest
        else PErr (unexpected txt t)
    | [] => PErr (ParseError 0 txt TEOF)
    end.

Definition mulOp (t : Token) : option BinOp :=
  if isToken TOperator "*" t then Some Mul
  else if isToken TOperator "/" t then Some Div
  else None.

Definition addOp (t : Token) : option BinOp :=
  if isToken TOperator "+" t then Some Add
  else if isToken TOperator "-" t then Some Sub
  else None.

Definition cmpOp (t : Token) : option BinOp :=
  if isToken TOperator "<" t then Some Lt
  else if isToken TOperator ">" t then Some Gt
  else if isToken TOperator "<=" t then Some Le
  else if isToken TOperator ">=" t then Some Ge
  else if isToken TOperator "==" t then Some Eq
  else if isToken TOperator "!=" t then Some Ne
  else None.

(** primary ::= number | string | variable | "(" expression ")" *)
Definition parsePrimary (expression : Parser Expression) : Parser Expression :=
  fun ts =>
    match ts with
    | t :: rest =>
        match kind t with
        | TNumber => POk (NumberLiteral (text t)) rest
        | TString => POk (StringLiteral (text t)) rest
        | TIdentifier => POk (VariableRef (text t)) rest
        | _ =>
            if isToken TPunctuation "(" t then
              bind (expression rest) (fun e rest1 =>
              bind (expect TPunctuation ")" rest1) (fun _ rest2 =>
              POk e rest2))
            else PErr (unexpected "expression" t)
        end
    | [] => PErr (ParseError 0 "expression" TEOF)
    end.

(** The operators of one precedence level after a first operand,
    folded to the left. *)
Fixpoint binaryTail (operand : Parser Expression) (ops : Token -> option BinOp)
    (n : nat) (left : Expression) (ts : list Token) : PResult Expression :=
  match n with
  | 0 => POutOfFuel
  | S n' =>
      match ts with
      | t :: rest =>
          match ops t with
          | Some op =>
              bind (operand rest) (fun right rest1 =>
              binaryTail operand ops n' (BinaryOp op left right) rest1)
          | None => POk left ts
          end
      | [] => POk left ts
      end
  end.

Definition binaryLevel (operand : Parser Expression) (ops : Token -> option BinOp)
    (n : nat) : Parser Expression :=
  fun ts => bind (operand ts) (binaryTail operand ops n).

Definition parseMultiplicative (expression : Parser Expression) (n : nat) :=
  binaryLevel (parsePrimary expression) mulOp n.
Definition parseAdditive (expression : Parser Expression) (n : nat) :=
  binaryLevel (parseMultiplicative expression n) addOp n.
Definition parseComparison (expression : Parser Expression) (n : nat) :=
  binaryLevel (parseAdditive expression n) cmpOp n.

(** Modelled from the spec: the expression grammar of the absent
    parser.  Comparison, over additive, over multiplicative, over
    primary; the operators of a level associate to the left. *)
Fixpoint parseExpression (n : nat) (ts : list Token) : PResult Expression :=
  match n with
  | 0 => POutOfFuel
  | S n' => parseComparison (parseExpression n') n' ts
  end.

(** Statements up to (not including) the first token on which [stop]
    holds. *)
Fixpoint statementsUntil (statement : Parser Statement) (stop : Token -> bool)
    (n : nat) (ts : list Token) : PResult (list Statement) :=
  match n with
  | 0 => POutOfFuel
  | S n' =>
      match ts with
      | t :: _ =>
          if stop t then POk [] ts
          else
            bind (statement ts) (fun s rest1 =>
            bind (statementsUntil statement stop n' rest1) (fun ss rest2 =>
            POk (s :: ss) rest2))
      | [] => POk [] ts
      end
  end.

Definition endsBlock (t : Token) : bool :=
  isToken TPunctuation "}" t || kind_eqb (kind t) TEOF.

Definition endsProgram (t : Token) : bool := kind_eqb (kind t) TEOF.

(** Block ::= "{" Statement* "}" *)
Definition parseBlock (statement : Parser Statement) (n : nat) : Parser (list Statement) :=
  fun ts =>
    bind (expect TPunctuation "{" ts) (fun _ rest1 =>
    bind (statementsUntil statement endsBlock n rest1) (fun ss rest2 =>
    bind (expect TPunctuation "}" rest2) (fun _ rest3 =>
    POk ss rest3))).

(** "(" expression ")" *)
Definition parseCondition (n : nat) : Parser Expression :=
  fun ts =>
    bind (expect TPunctuation "(" ts) (fun _ rest1 =>
    bind (parseExpression n rest1) (fun c rest2 =>
    bind (expect TPunctuation ")" rest2) (fun _ rest3 =>
    POk c rest3))).

(** Modelled from the spec: the statement grammar of the absent parser.
    Statement ::= Assignment ";" | Echo ";" | If | While | Block.
    A statement that starts like an expression is valid PHP outside the
    supported subset.  The first error ends the parse. *)
Fixpoint parseStatement (n : nat) (ts : list Token) : PResult Statement :=
  match n with
  | 0 => POutOfFuel
  | S n' =>
      match ts with
      | t :: rest =>
          match kind t with
          | TIdentifier =>
              bind (expect TOperator "=" rest) (fun _ rest1 =>
              bind (parseExpression n' rest1) (fun e rest2 =>
              bind (expect TPunctuation ";" rest2) (fun _ rest3 =>
              POk (Assignment (text t) e) rest3)))
          | TKeyword =>
              if String.eqb (text t) "echo" then
                bind (parseExpression n' rest) (fun e rest1 =>
                bind (expect TPunctuation ";" rest1) (fun _ rest2 =>
                POk (EchoStatement e) rest2))
              else if String.eqb (text t) "if" then
                bind (parseCondition n' rest) (fun c rest1 =>
                bind (parseBlock (parseStatement n') n' rest1) (fun thenB rest2 =>
                match rest2 with
                | t2 :: rest3 =>
                    if isToken TKeyword "else" t2 then
                      bind (parseBlock (parseStatement n') n' rest3) (fun elseB rest4 =>
                      POk (IfStatement c thenB (Some elseB)) rest4)
                    else POk (IfStatement c thenB None) rest2
                | [] => POk (IfStatement c thenB None) rest2
                end))
              else if String.eqb (text t) "while" then
                bind (parseCondition n' rest) (fun c rest1 =>
                bind (parseBlock (parseStatement n') n' rest1) (fun body rest2 =>
                POk (WhileStatement c body) rest2))
              else PErr (unexpected "statement" t)
          | TNumber | TString =>
              PErr (UnsupportedConstruct (offset t) "expression statement")
          | _ =>
              if isToken TPunctuation "{" t then
                bind (parseBlock (parseStatement n') n' ts) (fun ss rest1 =>
                POk (Block ss) rest1)
              else if isToken TPunctuation "(" t then
                PErr (UnsupportedConstruct (offset t) "expression statement")
              else PErr (unexpected "statement" t)
          end
      | [] => PErr (ParseError 0 "statement" TEOF)
      end
  end.

Definition parseProgram (n : nat) : Parser Program :=
  statementsUntil (parseStatement n) endsProgram n.

Definition lastOffset (ts : list Token) : nat :=
  match rev ts with
  | t :: _ => offset t
  | [] => 0
  end.

(** The parser run with fuel [n]. *)
Definition parseWith (n : nat) (tokens : list Token) : Result Program StageError :=
  match parseProgram n tokens with
  | POk program _ => Ok program
  | PErr e => Err e
  | POutOfFuel => Err (ParseError (lastOffset tokens) "end of input" TEOF)
  end.

(** Modelled from the spec: [parse] of the absent parser.  The fuel is
    one more than the number of tokens, which is always enough (see
    [parse_fuel_enough]), and more fuel changes nothing (see
    [parseProgram_fuel]). *)
Definition parse (tokens : list Token) : Result Program StageError :=
  parseWith (S (List.length tokens)) tokens.

(** ** Code generator (specification section 4.3) *)

Definition nl : string := String (ascii_of_nat 10) EmptyString.
Definition quote : string := String (ascii_of_nat 34) EmptyString.
Definition backslash : string := String (ascii_of_nat 92) EmptyString.

Definition opText (op : BinOp) : string :=
  match op with
  | Add => "+" | Sub => "-" | Mul => "*" | Div => "/"
  | Lt => "<" | Gt => ">" | Le => "<=" | Ge => ">="
  | Eq => "==" | Ne => "!="
  end.

(** A string value written between double quotes for JavaScript. *)
Fixpoint escapeJs (v : string) : string :=
  match v with
  | EmptyString => EmptyString
  | String c rest =>
      let escaped :=
        if (code c =? 34) || (code c =? 92)
        then String (ascii_of_nat 92) (String c EmptyString)
        else if code c =? 10 then String (ascii_of_nat 92) "n"
        else String c EmptyString in
      (escaped ++ escapeJs rest)%string
  end.

(** Modelled from the spec: the expression case of the absent
    generator.  Every binary expression is emitted between parentheses;
    a variable is its bare name; a string is quoted again. *)
Fixpoint generateExpression (e : Expression) : string :=
  match e with
  | NumberLiteral v => v
  | StringLiteral v => (quote ++ escapeJs v ++ quote)%string
  | VariableRef name => name
  | BinaryOp op l r =>
      ("(" ++ generateExpression l ++ " " ++ opText op ++ " " ++
       generateExpression r ++ ")")%string
  end.

(** The statements of the output, before they are laid out as text. *)
Inductive JsStmt : Type :=
| JsLet (name : string) (e : Expression)
| JsAssign (name : string) (e : Expression)
| JsLog (e : Expression)
| JsIf (condition : Expression) (thenBlock : list JsStmt)
       (elseBlock : option (list JsStmt))
| JsWhile (condition : Expression) (body : list JsStmt)
| JsBlock (body : list JsStmt).

Definition isDeclared (name : string) (declared : list string) : bool :=
  existsb (String.eqb name) declared.

(** Modelled from the spec: the statement case of the absent generator.
    One output statement per input statement.  [declared] holds the
    names for which a declaration has been emitted.  It is threaded
    through the traversal (section 9): every statement receives it and
    hands it on, and so does every nested block, so that the first write
    to a name gets the [let] and every later write to it, in whatever
    block, a plain assignment (sections 4.3 and 8). *)
Fixpoint generateStatement (declared : list string) (s : Statement)
  : JsStmt * list string :=
  let block :=
    fix block (declared : list string) (ss : list Statement) : list JsStmt * list string :=
      match ss with
      | [] => ([], declared)
      | s1 :: rest =>
          let (j, declared1) := generateStatement declared s1 in
          let (js, declared2) := block declared1 rest in
          (j :: js, declared2)
      end in
  match s with
  | Assignment name e =>
      if isDeclared name declared then (JsAssign name e, declared)
      else (JsLet name e, name :: declared)
  | EchoStatement e => (JsLog e, declared)
  | IfStatement c thenB elseB =>
      let (t, declared1) := block declared thenB in
      match elseB with
      | Some b =>
          let (el, declared2) := block declared1 b in
          (JsIf c t (Some el), declared2)
      | None => (JsIf c t None, declared1)
      end
  | WhileStatement c body =>
      let (b, declared1) := block declared body in (JsWhile c b, declared1)
  | Block ss =>
      let (b, declared1) := block declared ss in (JsBlock b, declared1)
  end.

Fixpoint generateBlock (declared : list string) (ss : list Statement)
  : list JsStmt * list string :=
  match ss with
  | [] => ([], declared)
  | s1 :: rest =>
      let (j, declared1) := generateStatement declared s1 in
      let (js, declared2) := generateBlock declared1 rest in
      (j :: js, declared2)
  end.

Fixpoint indentation (depth : nat) : string :=
  match depth with
  | 0 => EmptyString
  | S d => ("  " ++ indentation d)%string
  end.

(** The text of an output statement, each statement on lines of its
    own. *)
Fixpoint emitStatement (depth : nat) (j : JsStmt) : string :=
  let block :=
    fix block (js : list JsStmt) : string :=
      match js with
      | [] => EmptyString
      | j1 :: rest => (emitStatement (S depth) j1 ++ block rest)%string
      end in
  (match j with
   | JsLet name e =>
       indentation depth ++ "let " ++ name ++ " = " ++ generateExpression e ++ ";" ++ nl
   | JsAssign name e =>
       indentation depth ++ name ++ " = " ++ generateExpression e ++ ";" ++ nl
   | JsLog e =>
       indentation depth ++ "console.log(" ++ generateExpression e ++ ");" ++ nl
   | JsIf c thenB elseB =>
       indentation depth ++ "if (" ++ generateExpression c ++ ") {" ++ nl ++
       block thenB ++
       match elseB with
       | Some b => indentation depth ++ "} else {" ++ nl ++ block b
       | None => EmptyString
       end ++
       indentation depth ++ "}" ++ nl
   | JsWhile c body =>
       indentation depth ++ "while (" ++ generateExpression c ++ ") {" ++ nl ++
       block body ++
       indentation depth ++ "}" ++ nl
   | JsBlock body =>
       indentation depth ++ "{" ++ nl ++ block body ++ indentation depth ++ "}" ++ nl
   end)%string.

Definition emitBlock (depth : nat) : list JsStmt -> string :=
  fix block (js : list JsStmt) : string :=
    match js with
    | [] => EmptyString
    | j1 :: rest => (emitStatement depth j1 ++ block rest)%string
    end.

(** The output program of a parsed program: nothing is declared at the
    start of the top-level block. *)
Definition generateProgram (program : Program) : list JsStmt :=
  fst (generateBlock [] program).

(** Modelled from the spec: [generate] of the absent code generator. *)
Definition generate (program : Program) : string :=
  emitBlock 0 (generateProgram program).

(** ** Facade (specification sections 4.4, 6 and 7) *)

(** Modelled from the spec: the error of the absent facade, the stage's
    error wrapped in a uniform shape. *)
Record TranspileError : Type := mkTranspileError
  { stage : string;
    position : nat;
    message : string;
    cause : StageError }.

Definition kindName (k : TokenKind) : string :=
  match k with
  | TNumber => "number" | TIdentifier => "variable" | TString => "string"
  | TKeyword => "keyword" | TOperator => "operator"
  | TPunctuation => "punctuation" | TEOF => "end of input"
  end.

Definition errorPosition (e : StageError) : nat :=
  match e with
  | LexError p _ => p
  | ParseError p _ _ => p
  | UnsupportedConstruct p _ => p
  end.

Definition errorMessage (e : StageError) : string :=
  (match e with
   | LexError _ c => "unexpected character " ++ String c EmptyString
   | ParseError _ expected found => "expected " ++ expected ++ ", found " ++ kindName found
   | UnsupportedConstruct _ what => "unsupported construct: " ++ what
   end)%string.

Definition wrapError (stageName : string) (e : StageError) : TranspileError :=
  mkTranspileError stageName (errorPosition e) (errorMessage e) e.

(** Modelled from the spec: the sequencing of the absent facade.
    Lexing, then parsing, then generation; the first failure is the
    result, wrapped with the name of its stage. *)
Definition pipeline {Out : Type}
    (lexer : string -> Result (list Token) StageError)
    (parser : list Token -> Result Program StageError)
    (generator : Program -> Out)
    (source : string) : Result Out TranspileError :=
  match lexer source with
  | Err e => Err (wrapError "lex" e)
  | Ok tokens =>
      match parser tokens with
      | Err e => Err (wrapError "parse" e)
      | Ok program => Ok (generator program)
      end
  end.

(** Modelled from the spec: [transpile], the one operation of the
    absent core. *)
Definition transpile (source : string) : Result string TranspileError :=
  pipeline tokenize parse generate source.

(** The same pipeline stopped before the output is laid out as text:
    [transpile] is this, followed by [emitBlock 0]. *)
Definition transpileStatements (source : string) : Result (list JsStmt) TranspileError :=
  pipeline tokenize parse generateProgram source.

(** Modelled from the spec: the operations the absent core exports, and
    a call of one of them by name (section 6). *)
Definition exports : list string := ["transpile"].

Definition callExport (name : string) (arguments : list string)
  : option (Result string TranspileError) :=
  if existsb (String.eqb name) exports then
    match arguments with
    | [source] => Some (transpile source)
    | _ => None
    end
  else None.

(** ** The variables of the input, in the order of the text *)

Inductive Mention : Type :=
| Writes (name : string)
| Reads (name : string).

Fixpoint variablesOf (e : Expression) : list string :=
  match e with
  | NumberLiteral _ | StringLiteral _ => []
  | VariableRef x => [x]
  | BinaryOp _ l r => variablesOf l ++ variablesOf r
  end.

Definition readsOf (e : Expression) : list Mention := map Reads (variablesOf e).

(** The mentions of variables in a statement of the input: the target
    of an assignment comes before the variables of its expression. *)
Fixpoint mentionsOf (s : Statement) : list Mention :=
  let block :=
    fix block (ss : list Statement) : list Mention :=
      match ss with
      | [] => []
      | s1 :: rest => mentionsOf s1 ++ block rest
      end in
  match s with
  | Assignment x e => Writes x :: readsOf e
  | EchoStatement e => readsOf e
  | IfStatement c thenB elseB =>
      readsOf c ++ block thenB ++
      match elseB with Some b => block b | None => [] end
  | WhileStatement c body => readsOf c ++ block body
  | Block ss => block ss
  end.

Definition mentions : list Statement -> list Mention :=
  fix block (ss : list Statement) : list Mention :=
    match ss with
    | [] => []
    | s1 :: rest => mentionsOf s1 ++ block rest
    end.

Definition mentionsName (x : string) (m : Mention) : bool :=
  match m with Writes y | Reads y => String.eqb x y end.

(** The first mention of [x] in the input, if any. *)
Definition firstMention (x : string) (program : Program) : option Mention :=
  find (mentionsName x) (mentions program).

(** The number of assignments to [x] in a statement of the input,
    nested ones included. *)
Fixpoint assignmentsIn (x : string) (s : Statement) : nat :=
  let block :=
    fix block (ss : list Statement) : nat :=
      match ss with
      | [] => 0
      | s1 :: rest => assignmentsIn x s1 + block rest
      end in
  match s with
  | Assignment y _ => if String.eqb x y then 1 else 0
  | EchoStatement _ => 0
  | IfStatement _ thenB elseB =>
      block thenB + match elseB with Some b => block b | None => 0 end
  | WhileStatement _ body => block body
  | Block ss => block ss
  end.

Definition assignments (x : string) : list Statement -> nat :=
  fix block (ss : list Statement) : nat :=
    match ss with
    | [] => 0
    | s1 :: rest => assignmentsIn x s1 + block rest
    end.

(** ** Reading the output text: the words of JavaScript

    What the output text declares and uses is read off the text itself,
    by a reader of its words that shares nothing with the generator:
    names and keywords, numbers, string literals between double quotes,
    and punctuation, with blanks and line ends between them.  The reader
    covers the JavaScript that the generator writes; it gives no words
    to a text with a comment or another kind of quote in it. *)

Inductive JsWord : Type :=
| JsName (w : string)
| JsNumber (v : string)
| JsString (value : string)
| JsPunct (p : string).

Definition isJsIdentStart (c : ascii) : bool := isIdentStart c || (code c =? 36).
Definition isJsIdentChar (c : ascii) : bool := isIdentChar c || (code c =? 36).

Inductive JsLexeme : Type :=
| JsTrivia
| JsLexed (w : JsWord) (len : nat)
| JsUnexpected.

Definition startsJsComment (c : ascii) (rest : list ascii) : bool :=
  (code c =? 47) &&
  match rest with d :: _ => (code d =? 47) || (code d =? 42) | [] => false end.

Definition scanJs (cs : list ascii) : JsLexeme :=
  match cs with
  | [] => JsTrivia
  | c :: rest =>
      if isSpace c then JsTrivia
      else if isJsIdentStart c then
        let w := takeWhile isJsIdentChar cs in
        JsLexed (JsName (str w)) (List.length w)
      else if isDigit c then
        let v := scanNumber cs in
        JsLexed (JsNumber (str v)) (List.length v)
      else if code c =? 34 then
        match scanString c rest with
        | Some (v, n) => JsLexed (JsString (str v)) (S n)
        | None => JsUnexpected
        end
      else if (code c =? 39) || (code c =? 96) || startsJsComment c rest then JsUnexpected
      else
        match operator2 c rest with
        | Some op => JsLexed (JsPunct op) 2
        | None => JsLexed (JsPunct (str [c])) 1
        end
  end.

(** The words from the head of [cs] on; [skip] counts the characters of
    the current word that are still to be stepped over. *)
Fixpoint jsLexFrom (cs : list ascii) (skip : nat) : option (list JsWord) :=
  match cs with
  | [] => Some []
  | _ :: rest =>
      match skip with
      | S k => jsLexFrom rest k
      | 0 =>
          match scanJs cs with
          | JsTrivia => jsLexFrom rest 0
          | JsLexed w n => option_map (cons w) (jsLexFrom rest (pred n))
          | JsUnexpected => None
          end
      end
  end.

Definition jsWords (text : string) : option (list JsWord) :=
  jsLexFrom (list_ascii_of_string text) 0.

(** The word [let] followed by the name [x]: a declaration of [x]. *)
Definition isLet (x : string) (a b : JsWord) : bool :=
  match a, b with
  | JsName l, JsName y => String.eqb l "let" && String.eqb x y
  | _, _ => false
  end.

(** The number of [let] declarations of [x] among the words of a text. *)
Fixpoint letCount (x : string) (ws : list JsWord) : nat :=
  match ws with
  | [] => 0
  | a :: rest =>
      match rest with
      | b :: _ => if isLet x a b then 1 else 0
      | [] => 0
      end + letCount x rest
  end.

Definition isName (x : string) (w : JsWord) : bool :=
  match w with JsName y => String.eqb x y | _ => false end.

Definition isLetWord (w : option JsWord) : bool :=
  match w with Some (JsName l) => String.eqb l "let" | _ => false end.

(** The name [x] occurs among the words, and where it occurs first it
    stands right after the word [let]; [previous] is the word before
    the ones given. *)
Fixpoint declaredFirstAfter (x : string) (previous : option JsWord) (ws : list JsWord)
  : bool :=
  match ws with
  | [] => false
  | w :: rest =>
      if isName x w then isLetWord previous
      else declaredFirstAfter x (Some w) rest
  end.

(** The first occurrence of the name [x] in a text is its declaration:
    with one declaration in the text, that declaration precedes every
    other occurrence of the name. *)
Definition declaredFirst (x : string) (ws : list JsWord) : bool :=
  declaredFirstAfter x None ws.

(** The words the generator writes of its own. *)
Definition generatorWords : list string :=
  ["let"; "if"; "else"; "while"; "console"; "log"].

Definition isGeneratorWord (x : string) : bool := existsb (String.eqb x) generatorWords.

(** The words of a generated expression and of the output statements. *)
Fixpoint expressionWords (e : Expression) : list JsWord :=
  match e with
  | NumberLiteral v => [JsNumber v]
  | StringLiteral v => [JsString v]
  | VariableRef x => [JsName x]
  | BinaryOp op l r =>
      JsPunct "(" :: expressionWords l ++ JsPunct (opText op) :: expressionWords r ++
      [JsPunct ")"]
  end.

Fixpoint statementWords (j : JsStmt) : list JsWord :=
  let block :=
    fix block (js : list JsStmt) : list JsWord :=
      match js with
      | [] => []
      | j1 :: rest => statementWords j1 ++ block rest
      end in
  match j with
  | JsLet x e =>
      JsName "let" :: JsName x :: JsPunct "=" :: expressionWords e ++ [JsPunct ";"]
  | JsAssign x e => JsName x :: JsPunct "=" :: expressionWords e ++ [JsPunct ";"]
  | JsLog e =>
      JsName "console" :: JsPunct "." :: JsName "log" :: JsPunct "(" ::
      expressionWords e ++ [JsPunct ")"; JsPunct ";"]
  | JsIf c thenB elseB =>
      JsName "if" :: JsPunct "(" :: expressionWords c ++ JsPunct ")" :: JsPunct "{" ::
      block thenB ++
      match elseB with
      | Some b => JsPunct "}" :: JsName "else" :: JsPunct "{" :: block b
      | None => []
      end ++ [JsPunct "}"]
  | JsWhile c body =>
      JsName "while" :: JsPunct "(" :: expressionWords c ++ JsPunct ")" :: JsPunct "{" ::
      block body ++ [JsPunct "}"]
  | JsBlock body => JsPunct "{" :: block body ++ [JsPunct "}"]
  end.

Definition blockWords : list JsStmt -> list JsWord :=
  fix block (js : list JsStmt) : list JsWord :=
    match js with
    | [] => []
    | j1 :: rest => statementWords j1 ++ block rest
    end.

(** ** Arithmetic expressions as they are written

    The expressions of the precedence property: numbers and variables
    under the four operators, with parentheses.  [phpTokens] writes one
    down under the standard precedence (multiplicative over additive,
    both associating to the left): a parenthesis pair is added exactly
    where an operand would otherwise be read differently, and [AParen]
    is a pair the author wrote anyway. *)

Inductive ArithOp : Type := Plus | Minus | Times | Divide.

Inductive Arith : Type :=
| ANum (literal : string)
| AVar (name : string)
| ABin (op : ArithOp) (l r : Arith)
| AParen (e : Arith).

Definition precedence (op : ArithOp) : nat :=
  match op with
  | Plus | Minus => 0
  | Times | Divide => 1
  end.

Definition arithText (op : ArithOp) : string :=
  match op with
  | Plus => "+" | Minus => "-" | Times => "*" | Divide => "/"
  end.

Definition arithOp (op : ArithOp) : BinOp :=
  match op with
  | Plus => Add | Minus => Sub | Times => Mul | Divide => Div
  end.

(** A token as written: its kind and literal text. *)
Definition Word : Type := (TokenKind * string)%type.

Definition openParen : Word := (TPunctuation, "(").
Definition closeParen : Word := (TPunctuation, ")").

Fixpoint phpTokens (level : nat) (e : Arith) : list Word :=
  match e with
  | ANum v => [(TNumber, v)]
  | AVar x => [(TIdentifier, x)]
  | AParen e1 => openParen :: phpTokens 0 e1 ++ [closeParen]
  | ABin op l r =>
      let body :=
        phpTokens (precedence op) l ++ (TOperator, arithText op) ::
        phpTokens (S (precedence op)) r in
      if level <=? precedence op then body
      else openParen :: body ++ [closeParen]
  end.

(** The source text of a token: a variable gets its sigil back. *)
Definition lexeme (w : Word) : string :=
  match fst w with
  | TIdentifier => String (ascii_of_nat 36) (snd w)
  | _ => snd w
  end.

(** Tokens written one after the other in a layout: [gaps] gives, token
    by token, the blank text (blanks, tabs, line ends; possibly none)
    that follows the token.  A gap that the list does not give is
    empty. *)
Fixpoint writeTokens (ws : list Word) (gaps : list string) : string :=
  match ws with
  | [] => EmptyString
  | w :: rest => (lexeme w ++ hd EmptyString gaps ++ writeTokens rest (tl gaps))%string
  end.

Definition isBlankText (g : string) : bool := forallb isSpace (list_ascii_of_string g).

(** The tokens the lexer yields for [writeTokens ws gaps] placed at
    offset [pos]. *)
Fixpoint place (pos : nat) (ws : list Word) (gaps : list string) : list Token :=
  match ws with
  | [] => []
  | w :: rest =>
      mkToken (fst w) (snd w) pos ::
      place (pos + String.length (lexeme w) + String.length (hd EmptyString gaps))
            rest (tl gaps)
  end.

(** The AST the expression denotes: parentheses leave no node. *)
Fixpoint toExpression (e : Arith) : Expression :=
  match e with
  | ANum v => NumberLiteral v
  | AVar x => VariableRef x
  | ABin op l r => BinaryOp (arithOp op) (toExpression l) (toExpression r)
  | AParen e1 => toExpression e1
  end.

(** The text of a decimal literal: digits, then possibly a dot and
    more digits. *)
Definition isNumberText (v : string) : bool :=
  let cs := list_ascii_of_string v in
  let whole := takeWhile isDigit cs in
  match whole, skipn (List.length whole) cs with
  | [], _ => false
  | _ :: _, [] => true
  | _ :: _, dot :: frac =>
      (code dot =? 46) &&
      match frac with
      | [] => false
      | _ :: _ => forallb isDigit frac
      end
  end.

Definition isNameText (x : string) : bool :=
  match list_ascii_of_string x with
  | [] => false
  | c :: rest => isIdentStart c && forallb isIdentChar rest
  end.

(** What the lexer and the parser hand on: the text of a number token
    is a decimal literal and the text of a variable token a name, and
    the parser puts nothing else into the tree. *)
Definition tokenOk (t : Token) : bool :=
  match kind t with
  | TNumber => isNumberText (text t)
  | TIdentifier => isNameText (text t)
  | _ => true
  end.

Fixpoint expressionOk (e : Expression) : bool :=
  match e with
  | NumberLiteral v => isNumberText v
  | StringLiteral _ => true
  | VariableRef x => isNameText x
  | BinaryOp _ l r => expressionOk l && expressionOk r
  end.

Fixpoint statementOk (s : Statement) : bool :=
  let block :=
    fix block (ss : list Statement) : bool :=
      match ss with
      | [] => true
      | s1 :: rest => statementOk s1 && block rest
      end in
  match s with
  | Assignment x e => isNameText x && expressionOk e
  | EchoStatement e => expressionOk e
  | IfStatement c thenB elseB =>
      expressionOk c && block thenB &&
      match elseB with Some b => block b | None => true end
  | WhileStatement c body => expressionOk c && block body
  | Block ss => block ss
  end.

Definition programOk : list Statement -> bool :=
  fix block (ss : list Statement) : bool :=
    match ss with
    | [] => true
    | s1 :: rest => statementOk s1 && block rest
    end.

(** Literals are decimal numbers and variables are named by identifiers. *)
Fixpoint wellWritten (e : Arith) : bool :=
  match e with
  | ANum v => isNumberText v
  | AVar x => isNameText x
  | ABin _ l r => wellWritten l && wellWritten r
  | AParen e1 => wellWritten e1
  end.

(** The words [writeTokens] is meant for: literals and names as above,
    and the operators and punctuation of the token alphabet. *)
Definition operatorTexts : list string :=
  ["+"; "-"; "*"; "/"; "<"; ">"; "<="; ">="; "=="; "!="; "="].

Definition wordOk (w : Word) : bool :=
  match fst w with
  | TNumber => isNumberText (snd w)
  | TIdentifier => isNameText (snd w)
  | TOperator => existsb (String.eqb (snd w)) operatorTexts
  | TPunctuation => existsb (String.eqb (snd w)) punctuationTexts
  | TKeyword => isKeyword (snd w)
  | _ => false
  end.

(** The tokens of the assignment [$r = e;]. *)
Definition assignmentWords (r : string) (e : Arith) : list Word :=
  (TIdentifier, r) :: (TOperator, "=") :: phpTokens 0 e ++ [(TPunctuation, ";")].

(** A program of assignments [$r = e;], one after the other, each given
    by its target and its written expression: its tokens, its source
    text (blank text [lead], then the tokens in the layout [gaps]), and
    its statements. *)
Definition programWords (items : list (string * Arith)) : list Word :=
  flat_map (fun item => assignmentWords (fst item) (snd item)) items.

Definition programText (lead : string) (items : list (string * Arith)) (gaps : list string)
  : string :=
  (lead ++ writeTokens (programWords items) gaps)%string.

Definition assignmentOf (item : string * Arith) : Statement :=
  Assignment (fst item) (toExpression (snd item)).

(** The lines expected in the output for a program of assignments: for
    each one the line [let r = J;], or [r = J;] when [r] got its
    declaration on an earlier line, [J] being the text generated for
    the expression. *)
Fixpoint assignmentLines (declared : list string) (items : list (string * Arith)) : string :=
  match items with
  | [] => EmptyString
  | item :: rest =>
      let r := fst item in
      ((if isDeclared r declared then EmptyString else "let ") ++
       r ++ " = " ++ generateExpression (toExpression (snd item)) ++ ";" ++ nl ++
       assignmentLines (if isDeclared r declared then declared else r :: declared) rest)%string
  end.

(** The target is a name and the expression is well written. *)
Definition itemOk (item : string * Arith) : bool :=
  isNameText (fst item) && wellWritten (snd item).

(** The characters that may directly follow a token without changing
    how it is lexed: no digit or dot after a number, no character of a
    name after a name or a word, no [=] (a two-character operator) or
    [/] (a comment) after an operator. *)
Definition canFollow (w : Word) (c : ascii) : bool :=
  match fst w with
  | TNumber => negb (isDigit c) && negb (code c =? 46)
  | TIdentifier | TKeyword => negb (isIdentChar c)
  | TOperator => negb (code c =? 61) && negb (code c =? 47)
  | TPunctuation => true
  | _ => false
  end.

Definition stopsWord (w : Word) (rest : list ascii) : bool :=
  match rest with
  | [] => true
  | c :: _ => canFollow w c
  end.

(** A layout in which every gap is blank and every token is followed
    by a character that ends it; [rest] is the text after the last
    gap. *)
Fixpoint laidOut (ws : list Word) (gaps : list string) (rest : list ascii) : bool :=
  match ws with
  | [] => true
  | w :: ws' =>
      isBlankText (hd EmptyString gaps) &&
      stopsWord w (list_ascii_of_string
                     (hd EmptyString gaps ++ writeTokens ws' (tl gaps)) ++ rest) &&
      laidOut ws' (tl gaps) rest
  end.

(** The first character of a token as written. *)
Definition headChar (w : Word) : ascii :=
  match list_ascii_of_string (lexeme w) with
  | c :: _ => c
  | [] => ascii_of_nat 32
  end.

(** Tokens that can be written with nothing between them: each is
    followed by a token whose first character ends it, the last by the
    text [rest]. *)
Fixpoint tight (ws : list Word) (rest : list ascii) : bool :=
  match ws with
  | [] => true
  | w :: ws' =>
      match ws' with
      | [] => stopsWord w rest
      | w' :: _ => canFollow w (headChar w')
      end && tight ws' rest
  end.

(** ** JavaScript names

    The words that JavaScript does not read as a variable: its reserved
    words (those of strict mode included), its literals, and the names
    it fixes the meaning of. *)
Definition jsReserved : list string :=
  ["break"; "case"; "catch"; "class"; "const"; "continue"; "debugger"; "default";
   "delete"; "do"; "else"; "enum"; "export"; "extends"; "false"; "finally"; "for";
   "function"; "if"; "import"; "in"; "instanceof"; "new"; "null"; "return"; "super";
   "switch"; "this"; "throw"; "true"; "try"; "typeof"; "var"; "void"; "while"; "with";
   "yield"; "let"; "static"; "implements"; "interface"; "package"; "private";
   "protected"; "public"; "await"; "eval"; "arguments"; "undefined"; "NaN";
   "Infinity"].

Definition isJsReserved (w : string) : bool := existsb (String.eqb w) jsReserved.

(** The variables of a written expression are variables of JavaScript
    too. *)
Fixpoint jsNamed (e : Arith) : bool :=
  match e with
  | ANum _ => true
  | AVar x => negb (isJsReserved x)
  | ABin _ l r => jsNamed l && jsNamed r
  | AParen e1 => jsNamed e1
  end.

(** ** Values of expressions

    Numbers are kept abstract: a type of values, the value of a literal
    and the four operations, the same on the PHP and on the JavaScript
    side. *)

Section Numeric.

Variable num : Type.
Variable literalValue : string -> num.
Variables plus minus times divide : num -> num -> num.

Definition apply (op : ArithOp) : num -> num -> num :=
  match op with
  | Plus => plus | Minus => minus | Times => times | Divide => divide
  end.

(** The value of a written expression under the standard precedence. *)
Fixpoint arithValue (env : string -> num) (e : Arith) : num :=
  match e with
  | ANum v => literalValue v
  | AVar x => env x
  | ABin op l r => apply op (arithValue env l) (arithValue env r)
  | AParen e1 => arithValue env e1
  end.

(** *** Evaluation of JavaScript expression text

    What it means to evaluate the generated text is fixed by a reader of
    its own, which shares nothing with the parser of the core.
    A reader of JavaScript arithmetic: [*] and [/] bind tighter than [+]
    and [-], operators of one level associate to the left, parentheses
    group, blanks separate.  A name is a variable of the substitution
    unless JavaScript reserves it ([jsReserved]); the reader gives no
    value to a text with a reserved word in it.  It works on the
    characters of the text and returns the value and the text left
    over. *)

Definition JsReader : Type := list ascii -> option (num * list ascii).

Fixpoint skipSpaces (cs : list ascii) : list ascii :=
  match cs with
  | c :: rest => if isSpace c then skipSpaces rest else cs
  | [] => []
  end.

Definition jsPrimary (env : string -> num) (expression : JsReader) : JsReader :=
  fun cs =>
    match skipSpaces cs with
    | c :: rest =>
        if code c =? 40 then
          match expression rest with
          | Some (v, rest1) =>
              match skipSpaces rest1 with
              | c1 :: rest2 => if code c1 =? 41 then Some (v, rest2) else None
              | [] => None
              end
          | None => None
          end
        else if isDigit c then
          let lit := scanNumber (c :: rest) in
          Some (literalValue (str lit), skipn (List.length lit) (c :: rest))
        else if isIdentStart c then
          let name := takeWhile isIdentChar (c :: rest) in
          if isJsReserved (str name) then None
          else Some (env (str name), skipn (List.length name) (c :: rest))
        else None
    | [] => None
    end.

Definition jsMulOp (c : ascii) : option (num -> num -> num) :=
  if code c =? 42 then Some times
  else if code c =? 47 then Some divide
  else None.

Definition jsAddOp (c : ascii) : option (num -> num -> num) :=
  if code c =? 43 then Some plus
  else if code c =? 45 then Some minus
  else None.

Fixpoint jsTail (operand : JsReader) (ops : ascii -> option (num -> num -> num))
    (n : nat) (acc : num) (cs : list ascii) : option (num * list ascii) :=
  match n with
  | 0 => None
  | S n' =>
      match skipSpaces cs with
      | c :: rest =>
          match ops c with
          | Some f =>
              match operand rest with
              | Some (v, rest1) => jsTail operand ops n' (f acc v) rest1
              | None => None
              end
          | None => Some (acc, cs)
          end
      | [] => Some (acc, cs)
      end
  end.

Definition jsLevel (operand : JsReader) (ops : ascii -> option (num -> num -> num))
    (n : nat) : JsReader :=
  fun cs =>
    match operand cs with
    | Some (v, rest) => jsTail operand ops n v rest
    | None => None
    end.

Fixpoint jsExpression (env : string -> num) (n : nat) (cs : list ascii)
  : option (num * list ascii) :=
  match n with
  | 0 => None
  | S n' =>
      jsLevel (jsLevel (jsPrimary env (jsExpression env n')) jsMulOp n') jsAddOp n' cs
  end.

(** The value of a whole expression text; [None] when it is not one. *)
Definition jsValue (env : string -> num) (js : string) : option num :=
  let cs := list_ascii_of_string js in
  match jsExpression env (S (S (List.length cs))) cs with
  | Some (v, rest) =>
      match skipSpaces rest with
      | [] => Some v
      | _ :: _ => None
      end
  | None => None
  end.

End Numeric.

(** ** Notions used to state and prove the properties of the core *)

(** Induction on statements together with the blocks nested in them. *)
Section StatementInduction.

Variable P : Statement -> Prop.
Variable Q : list Statement -> Prop.

Hypothesis P_assignment : forall x e, P (Assignment x e).
Hypothesis P_echo : forall e, P (EchoStatement e).
Hypothesis P_if : forall c thenB elseB,
    Q thenB -> match elseB with Some b => Q b | None => True end ->
    P (IfStatement c thenB elseB).
Hypothesis P_while : forall c body, Q body -> P (WhileStatement c body).
Hypothesis P_block : forall ss, Q ss -> P (Block ss).
Hypothesis Q_nil : Q [].
Hypothesis Q_cons : forall s ss, P s -> Q ss -> Q (s :: ss).

Fixpoint statement_ind2 (s : Statement) : P s :=
  let block :=
    fix block (ss : list Statement) : Q ss :=
      match ss with
      | [] => Q_nil
      | s1 :: rest => Q_cons s1 rest (statement_ind2 s1) (block rest)
      end in
  match s with
  | Assignment x e => P_assignment x e
  | EchoStatement e => P_echo e
  | IfStatement c thenB elseB =>
      P_if c thenB elseB (block thenB)
           (match elseB with Some b => block b | None => I end)
  | WhileStatement c body => P_while c body (block body)
  | Block ss => P_block ss (block ss)
  end.

Definition statements_ind2 : forall ss : list Statement, Q ss :=
  fix block (ss : list Statement) : Q ss :=
    match ss with
    | [] => Q_nil
    | s1 :: rest => Q_cons s1 rest (statement_ind2 s1) (block rest)
    end.

End StatementInduction.

(** The next character, if there is one, does not satisfy [p]. *)
Definition stopsAt (p : ascii -> bool) (rest : list ascii) : bool :=
  match rest with
  | c :: _ => negb (p c)
  | [] => true
  end.

(** Every token lies at an offset up to [L]. *)
Definition bounded (L : nat) (ts : list Token) : Prop :=
  Forall (fun t => offset t <= L) ts.

(** What the result of a parser run on [ts] has to satisfy: on success
    the tokens left over are a suffix of [ts] (a proper one when
    [strict]); an error lies at an offset up to [L] when the tokens do;
    fuel runs out only when [ts] has [N] tokens or more. *)
Definition goodResult {A : Type} (N L : nat) (ts : list Token) (strict : bool)
    (r : PResult A) : Prop :=
  match r with
  | POk _ rest => exists pre, ts = pre ++ rest /\ (strict = true -> pre <> [])
  | PErr e => bounded L ts -> errorPosition e <= L
  | POutOfFuel => ~ List.length ts < N
  end.

(** A parser all of whose results are good, and which consumes a token
    when it succeeds. *)
Definition Good {A : Type} (N L : nat) (p : Parser A) : Prop :=
  forall ts, goodResult N L ts true (p ts).

(** Two parsers that give the same result on inputs shorter than [N]. *)
Definition agree {A : Type} (N : nat) (p q : Parser A) : Prop :=
  forall ts, List.length ts < N -> p ts = q ts.

(** A parser that consumes a token when it succeeds. *)
Definition shrinks {A : Type} (p : Parser A) : Prop :=
  forall ts a rest, p ts = POk a rest -> List.length rest < List.length ts.

(** The three fields of a reported error carry something: a stage name,
    a position inside the source (its end included) and a message. *)
Definition populated (source : string) (err : TranspileError) : Prop :=
  stage err <> EmptyString /\
  position err <= String.length source /\
  message err <> EmptyString.

(** The tokens of a source that lexes. *)
Definition tokensOf (source : string) : list Token :=
  match tokenize source with
  | Ok tokens => tokens
  | Err _ => []
  end.

(** A program that reads a variable before its first assignment, and
    programs that assign to a variable named by a word the generator
    writes of its own. *)
Definition readFirstSource : string := "echo $a; $a = 1; $a = 2;".

Definition consoleSource : string := "echo 1; $console = 1; $console = 2;".

Definition keywordSource : string := "if ($a < 1) { } $if = 1; $if = 2;".

(** Whether the claim holds of the name [x] in the output of [source]:
    one declaration, standing where the name occurs first. *)
Definition declaredOnceAndFirst (source x : string) : bool :=
  match transpile source with
  | Ok text =>
      match jsWords text with
      | Some words => Nat.eqb (letCount x words) 1 && declaredFirst x words
      | None => false
      end
  | Err _ => false
  end.

(** The number of assignments to [x] in a source that parses. *)
Definition assignmentsOf (source x : string) : nat :=
  match tokenize source with
  | Ok tokens =>
      match parse tokens with
      | Ok program => assignments x program
      | Err _ => 0
      end
  | Err _ => 0
  end.

(** The text after a generated operand: a blank, a closing parenthesis
    or a semicolon. *)
Definition closesJs (rest : list ascii) : bool :=
  match rest with
  | [] => true
  | c :: _ => isSpace c || (code c =? 41) || (code c =? 59)
  end.

(** Words put in front of the words of a reader result. *)
Definition prependWords (ws : list JsWord) (r : option (list JsWord))
  : option (list JsWord) :=
  option_map (app ws) r.

(** The text after a number or a name: a blank, a closing parenthesis or
    the end. *)
Definition closes (rest : list ascii) : bool :=
  match rest with
  | [] => true
  | c :: _ => isSpace c || (code c =? 41)
  end.

(** The characters that end an operand (a number, a variable or a
    closing parenthesis) and those that start one. *)
Definition endsOperand (c : ascii) : bool := negb (isIdentChar c) && negb (code c =? 46).

Definition startsOperand (c : ascii) : bool :=
  isDigit c || (code c =? 36) || (code c =? 40).

Definition followedBy (p : ascii -> bool) (next : list Word) (rest : list ascii) : bool :=
  match next with
  | w :: _ => p (headChar w)
  | [] => match rest with c :: _ => p c | [] => true end
  end.

(** A parser that hands on what the lexer gave it: from tokens that are
    well formed it builds a value that satisfies [P] and leaves tokens
    that are well formed. *)
Definition hands {A : Type} (P : A -> bool) (p : Parser A) : Prop :=
  forall ts a rest,
    forallb tokenOk ts = true -> p ts = POk a rest ->
    P a = true /\ forallb tokenOk rest = true.

(** No word of [ws] is the name [x]. *)
Definition noName (x : string) (ws : list JsWord) : bool :=
  forallb (fun w => negb (isName x w)) ws.

(** Tokens put in front of the tokens of a lexer result. *)
Definition prepend (ts : list Token) (r : Result (list Token) StageError)
  : Result (list Token) StageError :=
  match r with
  | Ok l => Ok (ts ++ l)
  | Err e => Err e
  end.

Definition blank : ascii := ascii_of_nat 32.

(** The next token, if there is one, is no operator of the level. *)
Definition stopsLevel (ops : Token -> option BinOp) (rest : list Token) : Prop :=
  match rest with
  | t :: _ => ops t = None
  | [] => True
  end.

(** The three levels below [parseExpression (S n)]. *)
Definition primaryOf (n : nat) : Parser Expression := parsePrimary (parseExpression n).
Definition multiplicativeOf (n : nat) : Parser Expression :=
  parseMultiplicative (parseExpression n) n.
Definition additiveOf (n : nat) : Parser Expression :=
  parseAdditive (parseExpression n) n.

(** The three readings of a written expression: as a primary, as the
    start of a multiplicative chain, as the start of an additive chain. *)
Definition readsAsPrimary (e : Arith) : Prop :=
  forall n pos gaps rest,
    List.length (place pos (phpTokens 2 e) gaps ++ rest) < n ->
    primaryOf n (place pos (phpTokens 2 e) gaps ++ rest) = POk (toExpression e) rest.

Definition readsAsMultiplicative (e : Arith) : Prop :=
  forall n pos gaps rest,
    List.length (place pos (phpTokens 1 e) gaps ++ rest) < n ->
    binaryLevel (primaryOf n) mulOp n (place pos (phpTokens 1 e) gaps ++ rest) =
    binaryTail (primaryOf n) mulOp n (toExpression e) rest.

Definition readsAsAdditive (e : Arith) : Prop :=
  forall n pos gaps rest,
    List.length (place pos (phpTokens 0 e) gaps ++ rest) < n ->
    stopsLevel mulOp rest ->
    binaryLevel (multiplicativeOf n) addOp n (place pos (phpTokens 0 e) gaps ++ rest) =
    binaryTail (multiplicativeOf n) addOp n (toExpression e) rest.

Definition closeToken (pos : nat) : Token := mkToken TPunctuation ")" pos.
Definition openToken (pos : nat) : Token := mkToken TPunctuation "(" pos.

Definition isAdditive (op : ArithOp) : bool :=
  match op with Plus | Minus => true | Times | Divide => false end.

(** The characters generated for a written expression. *)
Definition jsText (e : Arith) : list ascii :=
  list_ascii_of_string (generateExpression (toExpression e)).

Definition opChar (op : ArithOp) : ascii :=
  match op with
  | Plus => ascii_of_nat 43
  | Minus => ascii_of_nat 45
  | Times => ascii_of_nat 42
  | Divide => ascii_of_nat 47
  end.

(** The value of an integer literal, for the worked example. *)
Definition decimalValue (v : string) : Z :=
  fold_left (fun acc c => (acc * 10 + Z.of_nat (code c - 48))%Z)
            (list_ascii_of_string v) 0%Z.

(** The substitution of the example: [a] is 1 and [b] is 2. *)
Definition exampleEnv (x : string) : Z :=
  if String.eqb x "a" then 1%Z
  else if String.eqb x "b" then 2%Z
  else 0%Z.

Definition exampleExpression : Arith :=
  ABin Plus (AVar "a") (ABin Times (AVar "b") (ANum "10")).

(** The input of the specification as a program of assignments, and the
    blank text after each of its tokens. *)
Definition exampleSource : string := "$a = 1; $b = 2; $c = $a + $b * 10;".

Definition exampleItems : list (string * Arith) :=
  [("a", ANum "1"); ("b", ANum "2"); ("c", exampleExpression)].

Definition exampleGaps : list string :=
  [" "; " "; EmptyString; " ";
   " "; " "; EmptyString; " ";
   " "; " "; " "; " "; " "; " "; EmptyString; EmptyString].

(** An expression with a variable named by a reserved word of
    JavaScript, and a substitution. *)
Definition reservedExpression : Arith := ABin Plus (AVar "if") (ANum "1").

Definition reservedEnv (x : string) : Z := 5%Z.


(** ** Declarations in the output (for the facts of Part IV) *)

(** The declarations a piece of the input adds for [x]: one if [x] is
    not yet declared and the piece assigns to it. *)
Definition declaresNew (x : string) (declared : list string) (writes : nat) : nat :=
  if isDeclared x declared then 0 else if 0 <? writes then 1 else 0.

(** What the first mention of [x] in a piece of the input means for the
    words [ws] of its output: after a first mention that is an
    assignment, the name [x] first occurs in [ws] right after the word
    [let], whatever precedes and follows [ws]; without a mention, the
    name does not occur in [ws], and [after] holds. *)
Definition leads (x : string) (first : option Mention) (ws : list JsWord) (after : Prop)
  : Prop :=
  match first with
  | Some (Writes _) =>
      forall previous rest, declaredFirstAfter x previous (ws ++ rest) = true
  | Some (Reads _) => True
  | None => noName x ws = true /\ after
  end.

(** The first mention of [x] in a source that parses. *)
Definition firstMentionOf (source x : string) : option Mention :=
  match tokenize source with
  | Ok tokens =>
      match parse tokens with
      | Ok program => firstMention x program
      | Err _ => None
      end
  | Err _ => None
  end.

Definition loopSource : string := "$a = 1; while ($a < 5) { echo $a; $a = $a + 1; }".

Definition loopOutput : string :=
  "let a = 1;" ++ nl ++
  "while ((a < 5)) {" ++ nl ++
  "  console.log(a);" ++ nl ++
  "  a = (a + 1);" ++ nl ++
  "}" ++ nl.

Definition readFirstOutput : string :=
  "console.log(a);" ++ nl ++ "let a = 1;" ++ nl ++ "a = 2;" ++ nl.

Definition readFirstWords : list JsWord :=
  [JsName "console"; JsPunct "."; JsName "log"; JsPunct "("; JsName "a"; JsPunct ")";
   JsPunct ";";
   JsName "let"; JsName "a"; JsPunct "="; JsNumber "1"; JsPunct ";";
   JsName "a"; JsPunct "="; JsNumber "2"; JsPunct ";"].

End Core.

(* ================================================================= *)
(** * Part III: properties of the editor page *)

Module PageFacts.

Import Page.

Section Handlers.

Variable exn : Type.

Implicit Types (st : State exn) (s : Sys exn).

(** ** Timers and the loading flag *)

Lemma existsb_remove_nth {A : Type} (p : A -> bool) (k : nat) (l : list A) :
  existsb p (remove_nth k l) = true -> existsb p l = true.
Proof.
  revert k; induction l as [|x l IH]; intros k; simpl.
  - destruct k; simpl; auto.
  - destruct k as [|k]; simpl.
    + intros ->. apply orb_true_r.
    + rewrite !orb_true_iff. intros [H|H]; [now left | right; eauto].
Qed.

Lemma existsb_nth_error {A : Type} (p : A -> bool) (k : nat) (l : list A) (x : A) :
  nth_error l k = Some x -> p x = true -> existsb p l = true.
Proof.
  intros Hn Hp. apply existsb_exists. exists x. split; [|exact Hp].
  eapply nth_error_In; eauto.
Qed.

Lemma runTranspile_loading st : loading (fst (runTranspile st)) = loading st.
Proof. unfold runTranspile. destruct (moduleRef st); reflexivity. Qed.

Lemma runCallback_loading cb st : loading (fst (runCallback cb st)) = loading st.
Proof.
  destruct cb as [php|]; simpl; [|reflexivity].
  unfold transpileCallback. destruct (moduleRef st) as [m|]; [|reflexivity].
  destruct (ccall m (transpileCall php)); reflexivity.
Qed.

Lemma runCallback_scheduled cb st : scheduled (snd (runCallback cb st)) = [].
Proof.
  destruct cb as [php|]; simpl; [|reflexivity].
  unfold transpileCallback. destruct (moduleRef st) as [m|]; [|reflexivity].
  destruct (ccall m (transpileCall php)); reflexivity.
Qed.

Ltac timers_step :=
  unfold timers_ok, perform; simpl;
  rewrite ?existsb_app, ?orb_false_r; auto.

Lemma dispatch_timers_ok rev ev s : timers_ok s -> timers_ok (dispatch rev ev s).
Proof.
  intros Hs. destruct ev; simpl; try (destruct rev; (exact Hs || timers_step); fail).
  - destruct (copyDisabled (ui s)); [exact Hs | destruct rev; timers_step].
  - destruct (convertDisabled (ui s)) eqn:Hd; [exact Hs|].
    unfold convertDisabled in Hd. apply orb_false_iff in Hd as [Hl _].
    unfold timers_ok, perform. simpl. rewrite runTranspile_loading. auto.
  - destruct (nth_error (timers s) k) as [cb|] eqn:Hk; [|exact Hs].
    unfold timers_ok, perform. simpl.
    rewrite runCallback_loading, runCallback_scheduled, app_nil_r.
    intros H. apply Hs. eapply existsb_remove_nth; eauto.
Qed.

Lemma fold_timers_ok rev evs s :
  timers_ok s -> timers_ok (fold_left (fun s ev => dispatch rev ev s) evs s).
Proof.
  revert s; induction evs as [|ev evs IH]; intros s Hs; simpl; auto.
  apply IH, dispatch_timers_ok, Hs.
Qed.

Lemma run_timers_ok rev evs : timers_ok (run (exn:=exn) rev evs).
Proof. apply fold_timers_ok. unfold timers_ok. simpl. discriminate. Qed.

(** ** Calls into the module *)

Lemma runCallback_calls cb st : Forall (isTranspileCall exn) (snd (runCallback cb st)).
Proof.
  destruct cb as [php|]; simpl; [|constructor].
  unfold transpileCallback. destruct (moduleRef st) as [m|].
  - destruct (ccall m (transpileCall php));
      repeat constructor; simpl; eauto.
  - repeat constructor.
Qed.

Ltac no_calls :=
  simpl; repeat (apply Forall_cons; [exact I|]); apply Forall_nil.

Lemma dispatch_calls rev ev s :
  Forall (isTranspileCall exn) (trace s) ->
  Forall (isTranspileCall exn) (trace (dispatch rev ev s)).
Proof.
  intros Hs.
  destruct ev; simpl;
    try solve [destruct rev; try exact Hs;
               (apply Forall_app; split; [exact Hs | no_calls])].
  - destruct (copyDisabled (ui s)); [exact Hs|].
    destruct rev; (apply Forall_app; split; [exact Hs | no_calls]).
  - destruct (convertDisabled (ui s)); [exact Hs|].
    apply Forall_app; split; [exact Hs|].
    unfold runTranspile. destruct (moduleRef (ui s)); no_calls.
  - destruct (nth_error (timers s) k) as [cb|]; [|exact Hs].
    apply Forall_app; split; [exact Hs | apply runCallback_calls].
Qed.

Lemma fold_calls rev evs s :
  Forall (isTranspileCall exn) (trace s) ->
  Forall (isTranspileCall exn)
         (trace (fold_left (fun s ev => dispatch rev ev s) evs s)).
Proof.
  revert s; induction evs as [|ev evs IH]; intros s Hs; simpl; auto.
  apply IH, dispatch_calls, Hs.
Qed.

(** ** The claims about the page *)

(** C8. With no module loaded ([moduleRef.current] is [null]) the convert
    handler only raises the alert: the component state is returned as it
    was, in particular the PHP input and the JavaScript output, and no
    timer is scheduled; so a click on the convert button leaves the
    state and the pending timers of the page as they were. *)
Theorem runTranspile_before_load st :
  moduleRef st = None ->
  fst (runTranspile st) = st /\
  phpCode (fst (runTranspile st)) = phpCode st /\
  jsCode (fst (runTranspile st)) = jsCode st /\
  snd (runTranspile st) = [Alert "WASM not loaded yet"] /\
  scheduled (snd (runTranspile st)) = [] /\
  (forall rev s, ui s = st ->
                 ui (dispatch rev ClickConvert s) = st /\
                 timers (dispatch rev ClickConvert s) = timers s).
Proof.
  intros H.
  assert (Hrun : runTranspile st = (st, [Alert "WASM not loaded yet"])).
  { unfold runTranspile. now rewrite H. }
  rewrite Hrun. simpl. repeat (split; [reflexivity|]).
  intros rev s Hs. simpl. destruct (convertDisabled (ui s)); [now split|].
  unfold perform. rewrite Hs, Hrun. simpl. split; [reflexivity | apply app_nil_r].
Qed.

(** C9. When the timer of a conversion fires in any reachable state of
    the page: if the call into the module throws, whatever it throws,
    the JavaScript output becomes the fixed text; and whether the call
    returns or throws, [converting] is false afterwards and the convert
    button is enabled again. *)
Theorem transpile_timer_outcome
    (rev : Revision) (evs : list (Event exn)) (k : nat) (php : string) :
  nth_error (timers (run rev evs)) k = Some (TranspileCallback php) ->
  let s' := dispatch rev (TimerFires k) (run rev evs) in
  converting (ui s') = false /\
  convertDisabled (ui s') = false /\
  (forall m err,
      moduleRef (ui (run rev evs)) = Some m ->
      ccall m (transpileCall php) = Throws err ->
      jsCode (ui s') = "// transpile error") /\
  (forall m result,
      moduleRef (ui (run rev evs)) = Some m ->
      ccall m (transpileCall php) = Returns result ->
      jsCode (ui s') = result).
Proof.
  intros Hk s'. subst s'.
  assert (Hl : loading (ui (run rev evs)) = false).
  { apply (run_timers_ok rev evs). eapply existsb_nth_error; eauto. }
  simpl. rewrite Hk. unfold perform, convertDisabled. simpl.
  unfold transpileCallback.
  destruct (moduleRef (ui (run rev evs))) as [m|] eqn:Hm.
  - destruct (ccall m (transpileCall php)) as [result|err] eqn:Hc; simpl;
      rewrite Hl; repeat split; intros m' x Hm' Hc'; inversion Hm'; subst m';
      rewrite Hc in Hc'; congruence.
  - simpl. rewrite Hl. repeat split; intros; discriminate.
Qed.

(** C10. Clearing empties the PHP input and the JavaScript output (in
    both revisions of the page), and the copy button is disabled exactly
    when the JavaScript output is the empty string. *)
Theorem clear_and_copy st :
  phpCode (fst (clearAll st)) = EmptyString /\
  jsCode (fst (clearAll st)) = EmptyString /\
  phpCode (fst (clearAll_part000 st)) = EmptyString /\
  jsCode (fst (clearAll_part000 st)) = EmptyString /\
  (copyDisabled st = true <-> jsCode st = EmptyString).
Proof.
  repeat split; unfold copyDisabled, js_not in *.
  - destruct (jsCode st); [reflexivity | discriminate].
  - intros ->. reflexivity.
Qed.

End Handlers.

(** The page before the script has loaded, with a conversion requested
    through the handler directly. *)
Lemma runTranspile_before_load_witness :
  moduleRef (initialState (exn:=unit)) = None /\
  jsCode (fst (runTranspile (initialState (exn:=unit)))) = EmptyString.
Proof.
  split; [reflexivity|].
  apply (runTranspile_before_load unit initialState). reflexivity.
Defined.

Lemma transpile_timer_outcome_witness :
  nth_error (timers (run PageTsx failingSession)) 0 =
    Some (TranspileCallback initialPhp) /\
  jsCode (ui (dispatch PageTsx (TimerFires 0) (run PageTsx failingSession))) =
    "// transpile error" /\
  convertDisabled (ui (dispatch PageTsx (TimerFires 0) (run PageTsx failingSession))) =
    false.
Proof.
  split; [reflexivity|].
  destruct (transpile_timer_outcome unit PageTsx failingSession 0 initialPhp eq_refl)
    as (_ & Hd & Ht & _).
  split; [|exact Hd].
  apply (Ht throwingModule tt); reflexivity.
Defined.

End PageFacts.

(* ================================================================= *)
(** * Part IV: properties of the transpiler core *)

Module CoreFacts.

Import Core.

Local Open Scope nat_scope.

(** ** Strings and character lists *)

Lemma chars_app (a b : string) :
  list_ascii_of_string (a ++ b) = list_ascii_of_string a ++ list_ascii_of_string b.
Proof. induction a as [|c a IH]; simpl; [reflexivity | now rewrite IH]. Qed.

Lemma chars_length (a : string) : List.length (list_ascii_of_string a) = String.length a.
Proof. induction a as [|c a IH]; simpl; [reflexivity | now rewrite IH]. Qed.

Lemma str_chars (a : string) : str (list_ascii_of_string a) = a.
Proof. apply string_of_list_ascii_of_string. Qed.

Lemma string_length_app (a b : string) :
  String.length (a ++ b) = String.length a + String.length b.
Proof. induction a as [|c a IH]; simpl; [reflexivity | now rewrite IH]. Qed.

Lemma takeWhile_app p (l rest : list ascii) :
  forallb p l = true -> stopsAt p rest = true -> takeWhile p (l ++ rest) = l.
Proof.
  intros Hl Hr. induction l as [|c l IH]; simpl in *.
  - destruct rest as [|d rest]; simpl in *; [reflexivity|].
    apply negb_true_iff in Hr. now rewrite Hr.
  - apply andb_true_iff in Hl as [Hc Hl]. rewrite Hc, IH by assumption. reflexivity.
Qed.

Lemma skipn_length_app {A : Type} (l rest : list A) : skipn (List.length l) (l ++ rest) = rest.
Proof. induction l; simpl; auto. Qed.

(** ** The lexer steps over a lexeme *)

Lemma lexFrom_skip pre rest pos :
  lexFrom (pre ++ rest) pos (List.length pre) = lexFrom rest (pos + List.length pre) 0.
Proof.
  revert pos; induction pre as [|c pre IH]; intros pos; simpl.
  - now rewrite Nat.add_0_r.
  - rewrite IH. f_equal. lia.
Qed.

Lemma lexFrom_lexed c pre rest pos k txt :
  scan (c :: pre ++ rest) = Lexed k txt (S (List.length pre)) ->
  lexFrom (c :: pre ++ rest) pos 0 =
  consToken (mkToken k txt pos) (lexFrom rest (pos + S (List.length pre)) 0).
Proof.
  intros Hs. cbn [lexFrom]. rewrite Hs. cbn [pred].
  rewrite lexFrom_skip. do 2 f_equal. lia.
Qed.

Lemma lexFrom_space c rest pos :
  isSpace c = true -> lexFrom (c :: rest) pos 0 = lexFrom rest (S pos) 0.
Proof. intros Hc. cbn [lexFrom scan]. now rewrite Hc. Qed.

Lemma identStart_not_special c :
  isIdentStart c = true ->
  isSpace c = false /\ isDigit c = false /\ code c <> 35 /\ code c <> 47 /\
  code c <> 36 /\ code c <> 34 /\ code c <> 39.
Proof.
  unfold isIdentStart, isSpace, isDigit, between.
  rewrite !orb_true_iff, !andb_true_iff, !Nat.leb_le, !Nat.eqb_eq.
  intros H.
  repeat split;
    try (rewrite ?orb_false_iff, ?andb_false_iff, ?Nat.leb_gt, ?Nat.eqb_neq; lia).
Qed.

Lemma scan_variable n0 name rest :
  isIdentStart n0 = true -> forallb isIdentChar name = true ->
  stopsAt isIdentChar rest = true ->
  scan (ascii_of_nat 36 :: (n0 :: name) ++ rest) =
  Lexed TIdentifier (str (n0 :: name)) (S (S (List.length name))).
Proof.
  intros H0 Hn Hr.
  assert (Ht : takeWhile isIdentChar ((n0 :: name) ++ rest) = n0 :: name).
  { apply takeWhile_app; [|exact Hr]. simpl. unfold isIdentChar at 1.
    now rewrite H0, Hn. }
  unfold scan. change (isSpace (ascii_of_nat 36)) with false.
  change (startsComment (ascii_of_nat 36) ((n0 :: name) ++ rest)) with false.
  change (code (ascii_of_nat 36) =? 36) with true. cbv iota.
  rewrite Ht, H0. reflexivity.
Qed.

Lemma scan_operator2 c rest :
  (code c =? 60) || (code c =? 62) || (code c =? 61) || (code c =? 33) = true ->
  scan (c :: ascii_of_nat 61 :: rest) = Lexed TOperator (str [c; ascii_of_nat 61]) 2.
Proof.
  intros Hc. unfold scan.
  assert (H : isSpace c = false /\ startsComment c (ascii_of_nat 61 :: rest) = false /\
              (code c =? 36) = false /\ isDigit c = false /\
              (code c =? 34) || (code c =? 39) = false /\ isIdentStart c = false).
  { unfold isSpace, startsComment, isDigit, isIdentStart, between.
    change (code (ascii_of_nat 61) =? 47) with false.
    rewrite !orb_true_iff, !Nat.eqb_eq in Hc.
    repeat split;
      rewrite ?orb_false_iff, ?andb_false_iff, ?Nat.leb_gt, ?Nat.eqb_neq; lia. }
  destruct H as (-> & -> & -> & -> & -> & ->).
  unfold operator2. change (code (ascii_of_nat 61) =? 61) with true.
  cbn [andb]. now rewrite Hc.
Qed.

(** ** C7 *)



(** ** What every parser of the grammar guarantees

    On success the tokens left over are a suffix of the input (a proper
    one when [strict]); an error is positioned at a token of the input;
    fuel runs out only when the input has [N] tokens or more. *)

Lemma good_weaken {A : Type} N N' L ts strict (r : PResult A) :
  N' <= N -> goodResult N L ts strict r -> goodResult N' L ts strict r.
Proof. intros HN. destruct r as [a rest|e|]; simpl; auto. lia. Qed.

Lemma good_relax {A : Type} N L ts strict (r : PResult A) :
  goodResult N L ts strict r -> goodResult N L ts false r.
Proof.
  destruct r as [a rest|e|]; simpl; auto.
  intros (pre & -> & _). exists pre. split; [reflexivity | discriminate].
Qed.

Lemma Good_antitone {A : Type} N N' L (p : Parser A) :
  N' <= N -> Good N L p -> Good N' L p.
Proof. intros HN Hp ts. eapply good_weaken; eauto. Qed.

Lemma good_cons {A : Type} N L t ts strict (r : PResult A) :
  goodResult N L ts strict r -> goodResult (S N) L (t :: ts) true r.
Proof.
  destruct r as [a rest|e|]; simpl.
  - intros (pre & -> & _). exists (t :: pre). split; [reflexivity | discriminate].
  - intros H Hb. apply H. now inversion Hb.
  - lia.
Qed.

Lemma good_bind {A B : Type} N N2 L ts s1 s2 (r : PResult A) (f : A -> Parser B) :
  goodResult N L ts s1 r ->
  (forall a rest, r = POk a rest -> goodResult N2 L rest s2 (f a rest)) ->
  (forall rest : list Token,
      List.length rest + (if s1 then 1 else 0) <= List.length ts ->
                List.length ts < N -> List.length rest < N2) ->
  goodResult N L ts (s1 || s2) (bind r f).
Proof.
  intros Hr Hf HN. destruct r as [a rest|e|]; simpl in *; auto.
  destruct Hr as (pre & -> & Hpre).
  specialize (Hf a rest eq_refl).
  assert (Hlen : List.length rest + (if s1 then 1 else 0) <= List.length (pre ++ rest)).
  { rewrite length_app. destruct s1; [|lia].
    destruct pre; [now elim Hpre | simpl; lia]. }
  destruct (f a rest) as [b rest2|e|]; simpl in *.
  - destruct Hf as (pre2 & -> & Hpre2). exists (pre ++ pre2).
    split; [now rewrite app_assoc|].
    intros Hs. apply orb_true_iff in Hs as [Hs|Hs].
    + specialize (Hpre Hs). destruct pre; [now elim Hpre | discriminate].
    + specialize (Hpre2 Hs). destruct pre2; [now elim Hpre2|].
      destruct pre; discriminate.
  - intros Hb. apply Hf. unfold bounded in *. now apply Forall_app in Hb.
  - intros Hlt. apply Hf. now apply HN.
Qed.

Lemma good_ok {A : Type} N L ts (a : A) : goodResult N L ts false (POk a ts).
Proof. exists []. split; [reflexivity | discriminate]. Qed.

Lemma good_err_head {A : Type} N L t ts strict (e : StageError) :
  errorPosition e = offset t -> goodResult (A:=A) N L (t :: ts) strict (PErr e).
Proof. intros He Hb. rewrite He. now inversion Hb. Qed.

Lemma unexpected_position expected t : errorPosition (unexpected expected t) = offset t.
Proof. unfold unexpected. now destruct (isForeign t). Qed.

Lemma good_unexpected {A : Type} N L t ts strict expected :
  goodResult (A:=A) N L (t :: ts) strict (PErr (unexpected expected t)).
Proof. apply good_err_head, unexpected_position. Qed.

Lemma good_expect N L k txt : Good N L (expect k txt).
Proof.
  intros [|t ts]; simpl.
  - intros _. lia.
  - destruct (isToken k txt t); simpl.
    + exists [t]. split; [reflexivity | discriminate].
    + apply (good_unexpected (A:=unit) N L t ts true txt).
Qed.

Ltac fuel_ok :=
  let Hlen := fresh in let Hlt := fresh in
  intros ? Hlen Hlt; simpl in Hlen, Hlt; lia.

Lemma good_strict {A : Type} N L ts (r : PResult A) :
  goodResult N L ts (true || false) r -> goodResult N L ts true r.
Proof. auto. Qed.

Lemma good_parsePrimary N L expression :
  Good N L expression -> Good (S N) L (parsePrimary expression).
Proof.
  intros HE [|t ts]; unfold parsePrimary.
  - simpl. intros _. lia.
  - assert (Hatom : forall e : Expression, goodResult (S N) L (t :: ts) true (POk e ts)).
    { intros e. exists [t]. split; [reflexivity | discriminate]. }
    destruct (kind t); auto;
      (destruct (isToken TPunctuation "(" t); [|now apply good_unexpected]);
      apply good_cons with (strict := true || true);
      (eapply good_bind with (N2 := N); [apply HE | | fuel_ok]);
      intros e rest1 _;
      apply good_strict;
      (eapply good_bind with (N2 := N); [apply good_expect | | fuel_ok]);
      intros [] rest2 _; apply good_ok.
Qed.

Lemma good_binaryTail N L operand ops k :
  Good N L operand -> k <= N ->
  forall left ts, goodResult k L ts false (binaryTail operand ops k left ts).
Proof.
  intros Ho. induction k as [|k IH]; intros Hk left ts; simpl; [lia|].
  destruct ts as [|t ts]; [apply good_ok|].
  destruct (ops t); [|apply good_ok].
  apply good_relax with (strict := true).
  apply good_cons with (strict := true || false).
  eapply good_bind with (N2 := k).
  - apply (Good_antitone N k); [lia | exact Ho].
  - intros right rest1 _. apply IH. lia.
  - fuel_ok.
Qed.

Lemma good_binaryLevel L operand ops k :
  Good (S k) L operand -> Good (S k) L (binaryLevel operand ops k).
Proof.
  intros Ho ts. unfold binaryLevel. apply good_strict.
  eapply good_bind with (N2 := k).
  - apply Ho.
  - intros left rest _. apply good_binaryTail with (N := S k); [exact Ho | lia].
  - fuel_ok.
Qed.

Lemma good_parseExpression L n : Good n L (parseExpression n).
Proof.
  induction n as [|n IH]; intros ts; simpl.
  - lia.
  - unfold parseComparison, parseAdditive, parseMultiplicative.
    apply good_binaryLevel, good_binaryLevel, good_binaryLevel, good_parsePrimary, IH.
Qed.

Lemma good_statementsUntil N L statement stop k :
  Good N L statement -> k <= N ->
  forall ts, goodResult k L ts false (statementsUntil statement stop k ts).
Proof.
  intros Hs. induction k as [|k IH]; intros Hk ts; simpl; [lia|].
  destruct ts as [|t ts]; [apply good_ok|].
  destruct (stop t); [apply good_ok|].
  apply good_relax with (strict := true || false).
  eapply good_bind with (N2 := k).
  - apply (Good_antitone N (S k)); [lia | exact Hs].
  - intros s rest1 _.
    change false with (false || false).
    eapply good_bind with (N2 := k).
    + apply IH. lia.
    + intros ss rest2 _. apply good_ok.
    + fuel_ok.
  - fuel_ok.
Qed.

Lemma good_parseBlock N L statement k :
  Good N L statement -> k <= N -> Good (S k) L (parseBlock statement k).
Proof.
  intros Hs Hk ts. unfold parseBlock. apply good_strict.
  eapply good_bind with (N2 := k).
  - apply good_expect.
  - intros [] rest1 _.
    apply good_relax with (strict := false || true).
    eapply good_bind with (N2 := k).
    + eapply good_statementsUntil; eauto.
    + intros ss rest2 _. apply good_strict.
      eapply good_bind with (N2 := k); [apply (good_expect k) | | fuel_ok].
      intros [] rest3 _. apply good_ok.
    + fuel_ok.
  - fuel_ok.
Qed.

Lemma good_parseCondition L n : Good (S n) L (parseCondition n).
Proof.
  intros ts. unfold parseCondition. apply good_strict.
  eapply good_bind with (N2 := n).
  - apply good_expect.
  - intros [] rest1 _.
    apply good_relax with (strict := true || true).
    eapply good_bind with (N2 := n).
    + apply good_parseExpression.
    + intros c rest2 _. apply good_strict.
      eapply good_bind with (N2 := n); [apply (good_expect n) | | fuel_ok].
      intros [] rest3 _. apply good_ok.
    + fuel_ok.
  - fuel_ok.
Qed.

Lemma good_parseStatement L n : Good n L (parseStatement n).
Proof.
  induction n as [|n IH]; intros ts; simpl; [lia|].
  destruct ts as [|t rest]; [simpl; intros _; lia|].
  assert (Hblock : Good (S n) L (parseBlock (parseStatement n) n)).
  { apply good_parseBlock with (N := n); [exact IH | lia]. }
  assert (Hunsupported : forall w,
            goodResult (A:=Statement) (S n) L (t :: rest) true
                       (PErr (UnsupportedConstruct (offset t) w))).
  { intros w. now apply good_err_head. }
  assert (Hunexpected :
            goodResult (A:=Statement) (S n) L (t :: rest) true
                       (PErr (unexpected "statement" t))).
  { apply good_unexpected. }
  assert (Hfall :
    goodResult (S n) L (t :: rest) true
      (if isToken TPunctuation "{" t
       then bind (parseBlock (parseStatement n) n (t :: rest))
                 (fun ss rest1 => POk (Block ss) rest1)
       else if isToken TPunctuation "(" t
            then PErr (UnsupportedConstruct (offset t) "expression statement")
            else PErr (unexpected "statement" t))).
  { destruct (isToken TPunctuation "{" t).
    - apply good_strict. eapply good_bind with (N2 := S n); [apply Hblock | | fuel_ok].
      intros ss rest1 _. apply good_ok.
    - destruct (isToken TPunctuation "(" t); auto. }
  destruct (kind t); auto.
  - (* assignment *)
    apply good_cons with (strict := true || true).
    eapply good_bind with (N2 := n); [apply good_expect | | fuel_ok].
    intros [] rest1 _. apply good_strict.
    eapply good_bind with (N2 := n); [apply good_parseExpression | | fuel_ok].
    intros e rest2 _. apply good_relax with (strict := true || false).
    eapply good_bind with (N2 := n); [apply (good_expect n) | | fuel_ok].
    intros [] rest3 _. apply good_ok.
  - (* keywords *)
    destruct (String.eqb (text t) "echo").
    { apply good_cons with (strict := true || true).
      eapply good_bind with (N2 := n); [apply good_parseExpression | | fuel_ok].
      intros e rest1 _. apply good_strict.
      eapply good_bind with (N2 := n); [apply (good_expect n) | | fuel_ok].
      intros [] rest2 _. apply good_ok. }
    destruct (String.eqb (text t) "if").
    { apply good_cons with (strict := true || true).
      eapply good_bind with (N2 := n);
        [apply (Good_antitone (S n) n); [lia | apply good_parseCondition] | | fuel_ok].
      intros c rest1 _. apply good_strict.
      eapply good_bind with (N2 := n);
        [apply (Good_antitone (S n) n); [lia | apply Hblock] | | fuel_ok].
      intros thenB rest2 _.
      destruct rest2 as [|t2 rest3]; [apply good_ok|].
      destruct (isToken TKeyword "else" t2); [|apply good_ok].
      apply good_relax with (strict := true).
      apply good_weaken with (N := S n); [lia|].
      apply good_cons with (strict := true || false).
      eapply good_bind with (N2 := n);
        [apply (Good_antitone (S n) n); [lia | apply Hblock] | | fuel_ok].
      intros elseB rest4 _. apply good_ok. }
    destruct (String.eqb (text t) "while"); [|auto].
    apply good_cons with (strict := true || true).
    eapply good_bind with (N2 := n);
      [apply (Good_antitone (S n) n); [lia | apply good_parseCondition] | | fuel_ok].
    intros c rest1 _. apply good_strict.
    eapply good_bind with (N2 := n);
      [apply (Good_antitone (S n) n); [lia | apply Hblock] | | fuel_ok].
    intros body rest2 _. apply good_ok.
Qed.

Lemma good_parseProgram L n tokens :
  goodResult n L tokens false (parseProgram n tokens).
Proof.
  unfold parseProgram.
  apply good_statementsUntil with (N := n); [apply good_parseStatement | lia].
Qed.

(** The fuel [parse] provides is always enough. *)
Lemma parse_fuel_enough tokens :
  parseProgram (S (List.length tokens)) tokens <> POutOfFuel.
Proof.
  intros H.
  pose proof (good_parseProgram 0 (S (List.length tokens)) tokens) as Hg.
  rewrite H in Hg. simpl in Hg. lia.
Qed.

Lemma parse_error_position L tokens e :
  bounded L tokens -> parse tokens = Err e -> errorPosition e <= L.
Proof.
  unfold parse, parseWith. intros Hb.
  pose proof (good_parseProgram L (S (List.length tokens)) tokens) as Hg.
  pose proof (parse_fuel_enough tokens) as Hf.
  destruct (parseProgram (S (List.length tokens)) tokens) as [p rest|e'|];
    [discriminate | | congruence].
  intros [= <-]. now apply Hg.
Qed.

(** ** More fuel changes nothing *)

Lemma Good_shrinks {A : Type} N L (p : Parser A) : Good N L p -> shrinks p.
Proof.
  intros Hp ts a rest E. specialize (Hp ts). rewrite E in Hp.
  destruct Hp as (pre & -> & Hpre). rewrite length_app.
  destruct pre; [now elim Hpre | simpl; lia].
Qed.

Lemma parsePrimary_agree N E E' :
  agree N E E' -> agree (S N) (parsePrimary E) (parsePrimary E').
Proof.
  intros H ts Hlen. unfold parsePrimary.
  destruct ts as [|t rest]; [reflexivity|].
  destruct (kind t); try reflexivity;
    (destruct (isToken TPunctuation "(" t); [|reflexivity]);
    rewrite (H rest) by (simpl in Hlen; lia); reflexivity.
Qed.

Lemma binaryTail_agree N operand operand' ops :
  agree N operand operand' -> shrinks operand ->
  forall k k' left ts,
    List.length ts < k -> List.length ts < k' -> List.length ts <= N ->
    binaryTail operand ops k left ts = binaryTail operand' ops k' left ts.
Proof.
  intros H Hs. induction k as [|k IH]; intros k' left ts Hk Hk' HN; [lia|].
  destruct k' as [|k']; [lia|]. cbn [binaryTail].
  destruct ts as [|t rest]; [reflexivity|].
  destruct (ops t); [|reflexivity].
  simpl in Hk, Hk', HN. rewrite <- (H rest) by lia.
  destruct (operand rest) as [right rest1|e|] eqn:E; cbn [bind]; try reflexivity.
  apply Hs in E. apply IH; lia.
Qed.

Lemma binaryLevel_agree N operand operand' ops k k' :
  agree N operand operand' -> shrinks operand ->
  forall ts,
    List.length ts < N -> List.length ts <= k -> List.length ts <= k' ->
    binaryLevel operand ops k ts = binaryLevel operand' ops k' ts.
Proof.
  intros H Hs ts HN Hk Hk'. unfold binaryLevel. rewrite <- (H ts) by lia.
  destruct (operand ts) as [left rest|e|] eqn:E; cbn [bind]; try reflexivity.
  apply Hs in E. apply (binaryTail_agree N); auto; lia.
Qed.

Lemma parseExpression_agree n m :
  agree (Nat.min n m) (parseExpression n) (parseExpression m).
Proof.
  revert m; induction n as [|n IH]; intros m ts Hlen; [simpl in Hlen; lia|].
  destruct m as [|m]; [simpl in Hlen; lia|].
  rewrite <- Nat.succ_min_distr in Hlen.
  cbn [parseExpression]. unfold parseComparison, parseAdditive, parseMultiplicative.
  assert (Hp : agree (S (Nat.min n m)) (parsePrimary (parseExpression n))
                     (parsePrimary (parseExpression m)))
    by apply parsePrimary_agree, IH.
  assert (Hsp : shrinks (parsePrimary (parseExpression n)))
    by apply (Good_shrinks (S n) 0), good_parsePrimary, good_parseExpression.
  assert (Hm : agree (S (Nat.min n m))
                 (binaryLevel (parsePrimary (parseExpression n)) mulOp n)
                 (binaryLevel (parsePrimary (parseExpression m)) mulOp m)).
  { intros ts1 H1. apply (binaryLevel_agree (S (Nat.min n m))); auto; lia. }
  assert (Hsm : shrinks (binaryLevel (parsePrimary (parseExpression n)) mulOp n))
    by apply (Good_shrinks (S n) 0), good_binaryLevel, good_parsePrimary,
             good_parseExpression.
  assert (Ha : agree (S (Nat.min n m))
                 (binaryLevel (binaryLevel (parsePrimary (parseExpression n)) mulOp n) addOp n)
                 (binaryLevel (binaryLevel (parsePrimary (parseExpression m)) mulOp m) addOp m)).
  { intros ts1 H1. apply (binaryLevel_agree (S (Nat.min n m))); auto; lia. }
  assert (Hsa : shrinks (binaryLevel (binaryLevel (parsePrimary (parseExpression n))
                                                  mulOp n) addOp n))
    by apply (Good_shrinks (S n) 0), good_binaryLevel, good_binaryLevel,
             good_parsePrimary, good_parseExpression.
  apply (binaryLevel_agree (S (Nat.min n m))); auto; lia.
Qed.

Lemma bind_agree {A B : Type} (r : PResult A) (f g : A -> Parser B) :
  (forall a rest, r = POk a rest -> f a rest = g a rest) -> bind r f = bind r g.
Proof. intros H. destruct r; simpl; auto. Qed.

Lemma expect_shrinks k txt ts rest :
  expect k txt ts = POk tt rest -> List.length rest < List.length ts.
Proof.
  unfold expect. destruct ts as [|t ts]; [discriminate|].
  destruct (isToken k txt t); [|discriminate]. intros [= <-]. simpl. lia.
Qed.

Lemma statementsUntil_agree N statement statement' stop :
  agree N statement statement' -> shrinks statement ->
  forall k k' ts,
    List.length ts < k -> List.length ts < k' -> List.length ts < N ->
    statementsUntil statement stop k ts = statementsUntil statement' stop k' ts.
Proof.
  intros H Hs. induction k as [|k IH]; intros k' ts Hk Hk' HN; [lia|].
  destruct k' as [|k']; [lia|]. cbn [statementsUntil].
  destruct ts as [|t rest]; [reflexivity|].
  destruct (stop t); [reflexivity|].
  rewrite <- (H (t :: rest)) by lia.
  apply bind_agree. intros s rest1 E. apply Hs in E. simpl in E, Hk, Hk', HN.
  rewrite (IH k' rest1) by lia. reflexivity.
Qed.

Lemma statementsUntil_shorter N L statement stop k ts ss rest :
  Good N L statement -> k <= N ->
  statementsUntil statement stop k ts = POk ss rest ->
  List.length rest <= List.length ts.
Proof.
  intros Hg Hk E.
  pose proof (good_statementsUntil N L statement stop k Hg Hk ts) as H.
  rewrite E in H. destruct H as (pre & -> & _). rewrite length_app. lia.
Qed.

Lemma parseBlock_agree N statement statement' k k' :
  agree N statement statement' -> shrinks statement ->
  forall ts,
    List.length ts <= N -> List.length ts <= k -> List.length ts <= k' ->
    parseBlock statement k ts = parseBlock statement' k' ts.
Proof.
  intros H Hs ts HN Hk Hk'. unfold parseBlock.
  apply bind_agree. intros [] rest1 E. apply expect_shrinks in E.
  rewrite (statementsUntil_agree N statement statement' endsBlock H Hs k k' rest1)
    by lia.
  reflexivity.
Qed.

Lemma parseCondition_agree n m ts :
  List.length ts <= Nat.min n m -> parseCondition n ts = parseCondition m ts.
Proof.
  intros Hlen. unfold parseCondition.
  apply bind_agree. intros [] rest1 E. apply expect_shrinks in E.
  rewrite (parseExpression_agree n m rest1) by lia. reflexivity.
Qed.

Lemma parseCondition_shrinks n : shrinks (parseCondition n).
Proof. apply (Good_shrinks (S n) 0), good_parseCondition. Qed.

Lemma parseBlock_shrinks n : shrinks (parseBlock (parseStatement n) n).
Proof.
  apply (Good_shrinks (S n) 0), (good_parseBlock n); [apply good_parseStatement | lia].
Qed.

Lemma parseStatement_agree n m :
  agree (Nat.min n m) (parseStatement n) (parseStatement m).
Proof.
  revert m; induction n as [|n IH]; intros m ts Hlen; [simpl in Hlen; lia|].
  destruct m as [|m]; [simpl in Hlen; lia|].
  rewrite <- Nat.succ_min_distr in Hlen.
  assert (Hs : shrinks (parseStatement n))
    by apply (Good_shrinks n 0), good_parseStatement.
  assert (Hblock : forall ts1, List.length ts1 <= Nat.min n m ->
            parseBlock (parseStatement n) n ts1 = parseBlock (parseStatement m) m ts1).
  { intros ts1 H1. apply (parseBlock_agree (Nat.min n m)); auto; lia. }
  cbn [parseStatement].
  destruct ts as [|t rest]; [reflexivity|]. simpl in Hlen.
  destruct (kind t); try reflexivity.
  - apply bind_agree. intros [] rest1 E. apply expect_shrinks in E.
    rewrite (parseExpression_agree n m rest1) by lia. reflexivity.
  - destruct (String.eqb (text t) "echo").
    { rewrite (parseExpression_agree n m rest) by lia. reflexivity. }
    destruct (String.eqb (text t) "if").
    { rewrite (parseCondition_agree n m rest) by lia.
      apply bind_agree. intros c rest1 E. apply parseCondition_shrinks in E.
      rewrite (Hblock rest1) by lia.
      apply bind_agree. intros thenB rest2 E2.
      rewrite <- (Hblock rest1) in E2 by lia. apply parseBlock_shrinks in E2.
      destruct rest2 as [|t2 rest3]; [reflexivity|].
      destruct (isToken TKeyword "else" t2); [|reflexivity].
      simpl in E2. rewrite (Hblock rest3) by lia. reflexivity. }
    destruct (String.eqb (text t) "while"); [|reflexivity].
    rewrite (parseCondition_agree n m rest) by lia.
    apply bind_agree. intros c rest1 E. apply parseCondition_shrinks in E.
    rewrite (Hblock rest1) by lia. reflexivity.
  - destruct (isToken TPunctuation "{" t); [|reflexivity].
    rewrite (Hblock (t :: rest)) by (simpl; lia). reflexivity.
  - destruct (isToken TPunctuation "{" t); [|reflexivity].
    rewrite (Hblock (t :: rest)) by (simpl; lia). reflexivity.
  - destruct (isToken TPunctuation "{" t); [|reflexivity].
    rewrite (Hblock (t :: rest)) by (simpl; lia). reflexivity.
Qed.

(** The program or the error the parser returns does not depend on the
    fuel, once there is more of it than there are tokens. *)
Lemma parseProgram_fuel n tokens :
  List.length tokens < n ->
  parseProgram n tokens = parseProgram (S (List.length tokens)) tokens.
Proof.
  intros Hn. unfold parseProgram.
  apply (statementsUntil_agree (Nat.min n (S (List.length tokens)))); try lia.
  - apply parseStatement_agree.
  - apply (Good_shrinks n 0), good_parseStatement.
Qed.

Lemma parseWith_fuel n tokens :
  List.length tokens < n -> parseWith n tokens = parse tokens.
Proof. intros Hn. unfold parse, parseWith. now rewrite parseProgram_fuel. Qed.

(** ** Where the lexer puts its tokens and errors *)

Lemma lexFrom_bounds cs pos skip :
  match lexFrom cs pos skip with
  | Ok ts => bounded (pos + List.length cs) ts
  | Err e => errorPosition e <= pos + List.length cs
  end.
Proof.
  revert pos skip; induction cs as [|c cs IH]; intros pos skip.
  - simpl. repeat constructor. simpl. lia.
  - cbn [lexFrom List.length].
    replace (pos + S (List.length cs)) with (S pos + List.length cs) by lia.
    destruct skip as [|k]; [|apply IH].
    destruct (scan (c :: cs)) as [n|k txt n|ch].
    + apply IH.
    + specialize (IH (S pos) (pred n)).
      destruct (lexFrom cs (S pos) (pred n)); simpl; [|exact IH].
      constructor; [simpl; lia | exact IH].
    + simpl. lia.
Qed.

Lemma tokenize_bounds source :
  match tokenize source with
  | Ok ts => bounded (String.length source) ts
  | Err e => errorPosition e <= String.length source
  end.
Proof.
  unfold tokenize.
  pose proof (lexFrom_bounds (list_ascii_of_string source) 0 0) as H.
  now rewrite chars_length in H.
Qed.

(** ** The facade *)

Lemma errorMessage_nonempty e : errorMessage e <> EmptyString.
Proof. destruct e; discriminate. Qed.

(** C5. A failure of [transpile] is the failure of one stage, wrapped:
    the error names that stage, its position and message are those of
    the stage's error, all three are populated, and the stage's error
    itself is carried along; and [transpile] succeeds only when no
    stage failed, with the text generated from the whole program. *)
Theorem failure_is_reported (source : string) :
  match transpile source with
  | Err err =>
      populated source err /\
      position err = errorPosition (cause err) /\
      message err = errorMessage (cause err) /\
      ((stage err = "lex" /\ tokenize source = Err (cause err)) \/
       (stage err = "parse" /\
        exists tokens, tokenize source = Ok tokens /\ parse tokens = Err (cause err)))
  | Ok out =>
      exists tokens program,
        tokenize source = Ok tokens /\ parse tokens = Ok program /\
        out = generate program
  end.
Proof.
  unfold transpile, pipeline.
  pose proof (tokenize_bounds source) as Hlex.
  destruct (tokenize source) as [tokens|e].
  - destruct (parse tokens) as [program|e] eqn:Hp.
    + exists tokens, program. auto.
    + simpl. repeat split.
      * discriminate.
      * eapply parse_error_position; eauto.
      * apply errorMessage_nonempty.
      * right. eauto.
  - simpl. repeat split.
    + discriminate.
    + exact Hlex.
    + apply errorMessage_nonempty.
    + left. auto.
Qed.

(** C6. The source [$a = ;] lexes, and parsing fails at offset 5, the
    semicolon that stands where the expression is missing; the result is
    that [ParseError] wrapped, and no output text.  In the pipeline a
    failed stage decides the result whatever the later stages are. *)
Theorem missing_expression_is_a_parse_error :
  tokenize "$a = ;" =
    Ok [mkToken TIdentifier "a" 0; mkToken TOperator "=" 3;
        mkToken TPunctuation ";" 5; mkToken TEOF EmptyString 6] /\
  transpile "$a = ;" =
    Err (wrapError "parse" (ParseError 5 "expression" TPunctuation)) /\
  (forall out, transpile "$a = ;" <> Ok out) /\
  (forall (Out : Type) lexer (parser1 parser2 : list Token -> Result Program StageError)
          (generator1 generator2 : Program -> Out) source e,
      lexer source = Err e ->
      pipeline lexer parser1 generator1 source = Err (wrapError "lex" e) /\
      pipeline lexer parser2 generator2 source = Err (wrapError "lex" e)) /\
  (forall (Out : Type) lexer parser (generator1 generator2 : Program -> Out)
          source tokens e,
      lexer source = Ok tokens -> parser tokens = Err e ->
      pipeline lexer parser generator1 source = Err (wrapError "parse" e) /\
      pipeline lexer parser generator2 source = Err (wrapError "parse" e)).
Proof.
  split; [vm_compute; reflexivity|].
  split; [vm_compute; reflexivity|].
  split; [intros out; vm_compute; discriminate|].
  split.
  - intros Out lexer p1 p2 g1 g2 source e He. unfold pipeline. now rewrite He.
  - intros Out lexer p g1 g2 source tokens e Ht He. unfold pipeline.
    now rewrite Ht, He.
Qed.

Lemma missing_expression_is_a_parse_error_witness :
  pipeline tokenize parse generate "$a = ;" =
    Err (wrapError "parse" (ParseError 5 "expression" TPunctuation)) /\
  pipeline tokenize parse (fun _ => "unreachable") "$a = ;" =
    Err (wrapError "parse" (ParseError 5 "expression" TPunctuation)).
Proof.
  destruct missing_expression_is_a_parse_error as (Ht & _ & _ & _ & H).
  exact (H string tokenize parse generate (fun _ => "unreachable") "$a = ;" _ _ Ht eq_refl).
Defined.

(** Valid PHP outside the supported subset is found by the parser
    (specification sections 7 and 8): an array literal and a function
    call pass the lexer and fail in the parse stage with
    [UnsupportedConstruct]; a character outside the alphabet fails in
    the lexer. *)
Lemma unsupported_construct_is_a_parse_failure :
  transpile "$a = [1, 2];" = Err (wrapError "parse" (UnsupportedConstruct 5 "[")) /\
  transpile "foo(1);" = Err (wrapError "parse" (UnsupportedConstruct 0 "foo")) /\
  transpile "$a = 1 @ 2;" = Err (wrapError "lex" (LexError 7 (ascii_of_nat 64))).
Proof. repeat split; reflexivity. Qed.

(** ** Lexing what [writeTokens] wrote *)

Lemma takeWhile_forallb p cs : forallb p (takeWhile p cs) = true.
Proof.
  induction cs as [|c cs IH]; simpl; [reflexivity|].
  destruct (p c) eqn:E; simpl; [now rewrite E|reflexivity].
Qed.

Lemma takeWhile_skipn p cs :
  cs = takeWhile p cs ++ skipn (List.length (takeWhile p cs)) cs.
Proof.
  induction cs as [|c cs IH]; simpl; [reflexivity|].
  destruct (p c); simpl; [now rewrite <- IH | reflexivity].
Qed.

Lemma closes_stops_ident rest : closes rest = true -> stopsAt isIdentChar rest = true.
Proof.
  destruct rest as [|c rest]; simpl; [reflexivity|].
  unfold isIdentChar, isIdentStart, isDigit, isSpace, between.
  rewrite !orb_true_iff, !Nat.eqb_eq. intros H.
  rewrite negb_true_iff, !orb_false_iff, !andb_false_iff, !Nat.leb_gt, !Nat.eqb_neq.
  lia.
Qed.

Lemma closes_stops_number rest :
  closes rest = true -> stopsWord (TNumber, EmptyString) rest = true.
Proof.
  destruct rest as [|c rest]; simpl; [reflexivity|].
  unfold canFollow, isDigit, isSpace, between. cbn [fst].
  rewrite !orb_true_iff, !Nat.eqb_eq. intros H.
  rewrite andb_true_iff, !negb_true_iff, !andb_false_iff, !Nat.leb_gt, !Nat.eqb_neq.
  lia.
Qed.

Lemma number_stops_digit v rest :
  stopsWord (TNumber, v) rest = true -> stopsAt isDigit rest = true.
Proof.
  destruct rest as [|c rest]; simpl; [reflexivity|].
  unfold canFollow. cbn [fst]. intros H. now apply andb_true_iff in H as [H _].
Qed.

Lemma number_stops_dot v c rest :
  stopsWord (TNumber, v) (c :: rest) = true -> (code c =? 46) = false.
Proof.
  simpl. unfold canFollow. cbn [fst]. intros H.
  apply andb_true_iff in H as [_ H]. now apply negb_true_iff in H.
Qed.

(** A number is scanned up to a character that is neither a digit nor a
    dot. *)
Lemma scanNumber_stops v rest :
  isNumberText v = true -> stopsWord (TNumber, v) rest = true ->
  scanNumber (list_ascii_of_string v ++ rest) = list_ascii_of_string v.
Proof.
  unfold isNumberText, scanNumber. cbv zeta. intros Hv Hr.
  pose proof (number_stops_digit v rest Hr) as Hrd.
  assert (Hdot : forall c r, rest = c :: r -> (code c =? 46) = false).
  { intros c r ->. exact (number_stops_dot v c r Hr). }
  clear Hr.
  remember (list_ascii_of_string v) as cs eqn:Ecs. clear Ecs v.
  pose proof (takeWhile_skipn isDigit cs) as Hsplit.
  pose proof (takeWhile_forallb isDigit cs) as Hds.
  remember (takeWhile isDigit cs) as ds eqn:Eds. clear Eds.
  destruct ds as [|d0 ds]; [discriminate|].
  remember (skipn (List.length (d0 :: ds)) cs) as tl eqn:Etl. clear Etl.
  destruct tl as [|dot frac].
  - rewrite app_nil_r in Hsplit. subst cs.
    rewrite takeWhile_app by auto.
    rewrite skipn_length_app.
    destruct rest as [|c [|d after]]; try reflexivity.
    now rewrite (Hdot c (d :: after) eq_refl).
  - apply andb_true_iff in Hv as [Hdot' Hfrac].
    destruct frac as [|f0 frac]; [discriminate|].
    subst cs. rewrite <- app_assoc.
    assert (Hstop : stopsAt isDigit ((dot :: f0 :: frac) ++ rest) = true).
    { simpl. apply Nat.eqb_eq in Hdot'. unfold isDigit, between.
      rewrite negb_true_iff, andb_false_iff, !Nat.leb_gt. lia. }
    rewrite takeWhile_app by assumption.
    rewrite skipn_length_app. cbn [app].
    rewrite Hdot'. cbn [forallb] in Hfrac. apply andb_true_iff in Hfrac as [Hf0 Hfrac].
    rewrite Hf0. cbn [andb].
    change (f0 :: frac ++ rest) with ((f0 :: frac) ++ rest).
    rewrite takeWhile_app; [reflexivity | | auto].
    simpl. now rewrite Hf0.
Qed.

Lemma scanNumber_written v rest :
  isNumberText v = true -> closes rest = true ->
  scanNumber (list_ascii_of_string v ++ rest) = list_ascii_of_string v.
Proof.
  intros Hv Hr. apply scanNumber_stops; [exact Hv|].
  apply closes_stops_number in Hr. destruct rest; exact Hr.
Qed.

Lemma numberText_head v :
  isNumberText v = true ->
  exists c cs, list_ascii_of_string v = c :: cs /\ isDigit c = true.
Proof.
  unfold isNumberText. cbv zeta. intros Hv.
  pose proof (takeWhile_skipn isDigit (list_ascii_of_string v)) as Hsplit.
  pose proof (takeWhile_forallb isDigit (list_ascii_of_string v)) as Hds.
  destruct (takeWhile isDigit (list_ascii_of_string v)) as [|d0 ds]; [discriminate|].
  rewrite Hsplit. simpl in Hds. apply andb_true_iff in Hds as [Hd0 _].
  eexists _, _. split; [reflexivity | exact Hd0].
Qed.

Lemma scan_number v rest :
  isNumberText v = true -> stopsWord (TNumber, v) rest = true ->
  scan (list_ascii_of_string v ++ rest) =
  Lexed TNumber v (List.length (list_ascii_of_string v)).
Proof.
  intros Hv Hr.
  pose proof (scanNumber_stops v rest Hv Hr) as Hscan.
  destruct (numberText_head v Hv) as (c & cs' & Ecs & Hc).
  rewrite Ecs in *. cbn [app] in *. unfold scan.
  assert (H : isSpace c = false /\ startsComment c (cs' ++ rest) = false /\
              (code c =? 36) = false).
  { unfold isDigit, between in Hc. apply andb_true_iff in Hc as [H1 H2].
    apply Nat.leb_le in H1, H2.
    unfold isSpace, startsComment.
    repeat split;
      rewrite ?orb_false_iff, ?andb_false_iff, ?Nat.eqb_neq; try lia. }
  destruct H as (-> & -> & ->). rewrite Hc, Hscan, <- Ecs, str_chars.
  reflexivity.
Qed.

(** A word without a sigil is scanned up to a character that is not of
    a name. *)
Lemma scan_bareword c cs rest :
  isIdentStart c = true -> forallb isIdentChar cs = true ->
  stopsAt isIdentChar rest = true ->
  scan ((c :: cs) ++ rest) = Lexed TKeyword (str (c :: cs)) (S (List.length cs)).
Proof.
  intros Hc Hcs Hr.
  assert (Ht : takeWhile isIdentChar ((c :: cs) ++ rest) = c :: cs).
  { apply takeWhile_app; [|exact Hr]. simpl. unfold isIdentChar at 1.
    now rewrite Hc, Hcs. }
  destruct (identStart_not_special c Hc) as (Hsp & Hd & H35 & H47 & H36 & H34 & H39).
  unfold scan. cbn [app]. rewrite Hsp.
  assert (Hcom : startsComment c (cs ++ rest) = false).
  { unfold startsComment. apply Nat.eqb_neq in H35, H47. now rewrite H35, H47. }
  rewrite Hcom. apply Nat.eqb_neq in H36, H34, H39. rewrite H36, Hd, H34, H39, Hc.
  cbn [orb]. change (c :: cs ++ rest) with ((c :: cs) ++ rest). now rewrite Ht.
Qed.

(** A one-character operator is scanned as such before a character that
    neither makes it a two-character operator nor a comment. *)
Lemma scan_operator1 c rest :
  isOperatorChar c = true ->
  stopsWord (TOperator, EmptyString) rest = true ->
  scan (c :: rest) = Lexed TOperator (str [c]) 1.
Proof.
  intros Hc Hr. unfold scan.
  assert (Hnext : match rest with
                  | d :: _ => (code d =? 61) = false /\ (code d =? 47) = false
                  | [] => True
                  end).
  { destruct rest as [|d rest]; [exact I|]. simpl in Hr. unfold canFollow in Hr.
    cbn [fst] in Hr. apply andb_true_iff in Hr as [H1 H2].
    now rewrite negb_true_iff in H1, H2. }
  assert (H : isSpace c = false /\ (code c =? 35) = false /\
              (code c =? 36) = false /\ isDigit c = false /\
              (code c =? 34) || (code c =? 39) = false /\ isIdentStart c = false).
  { unfold isOperatorChar in Hc. unfold isSpace, isDigit, isIdentStart, between.
    rewrite !orb_true_iff, !Nat.eqb_eq in Hc.
    repeat split;
      rewrite ?orb_false_iff, ?andb_false_iff, ?Nat.leb_gt, ?Nat.eqb_neq; lia. }
  destruct H as (-> & H35 & -> & -> & -> & ->).
  assert (Hcom : startsComment c rest = false).
  { unfold startsComment. rewrite H35. cbn [orb].
    destruct rest as [|d rest]; [apply andb_false_r|].
    destruct Hnext as [_ ->]. apply andb_false_r. }
  rewrite Hcom.
  assert (Hop2 : operator2 c rest = None).
  { unfold operator2. destruct rest as [|d rest]; [reflexivity|].
    destruct Hnext as [-> _]. reflexivity. }
  now rewrite Hop2, Hc.
Qed.

Lemma scan_punctuation c rest :
  isPunctuation c = true -> scan (c :: rest) = Lexed TPunctuation (str [c]) 1.
Proof.
  intros Hc. unfold scan.
  assert (H : isSpace c = false /\ (code c =? 35) = false /\ (code c =? 47) = false /\
              (code c =? 36) = false /\ isDigit c = false /\
              (code c =? 34) || (code c =? 39) = false /\ isIdentStart c = false /\
              (code c =? 60) || (code c =? 62) || (code c =? 61) || (code c =? 33) = false /\
              isOperatorChar c = false).
  { unfold isPunctuation in Hc.
    unfold isSpace, isDigit, isIdentStart, isOperatorChar, between.
    rewrite !orb_true_iff, !Nat.eqb_eq in Hc.
    repeat split;
      rewrite ?orb_false_iff, ?andb_false_iff, ?Nat.leb_gt, ?Nat.eqb_neq; lia. }
  destruct H as (-> & H35 & H47 & -> & -> & -> & -> & Hop & ->).
  assert (Hcom : startsComment c rest = false).
  { unfold startsComment. now rewrite H35, H47. }
  rewrite Hcom.
  assert (Hop2 : operator2 c rest = None).
  { unfold operator2. destruct rest as [|d rest]; [reflexivity|].
    now rewrite Hop, andb_false_r. }
  now rewrite Hop2, Hc.
Qed.

Ltac split_texts H :=
  simpl in H; repeat (apply orb_true_iff in H as [H|H]);
  try discriminate; apply String.eqb_eq in H; subst.

(** The lexeme of a word is scanned as that word before a character
    that can follow it. *)
Lemma scan_word w rest :
  wordOk w = true -> stopsWord w rest = true ->
  list_ascii_of_string (lexeme w) <> [] /\
  scan (list_ascii_of_string (lexeme w) ++ rest) =
  Lexed (fst w) (snd w) (List.length (list_ascii_of_string (lexeme w))).
Proof.
  destruct w as [k txt]. unfold wordOk, lexeme. cbn [fst snd].
  destruct k; try discriminate; intros Hw Hr.
  - destruct (numberText_head txt Hw) as (c & cs & E & _).
    split; [rewrite E; discriminate|]. now apply scan_number.
  - split; [discriminate|].
    unfold isNameText in Hw. rewrite <- (str_chars txt) at 2.
    cbn [list_ascii_of_string].
    destruct (list_ascii_of_string txt) as [|n0 cs]; [discriminate|].
    apply andb_true_iff in Hw as [H0 Hcs].
    apply (scan_variable n0 cs rest); auto.
  - assert (Hname : isNameText txt = true).
    { unfold isKeyword, keywords in Hw. split_texts Hw; reflexivity. }
    unfold isNameText in Hname. pose proof (str_chars txt) as Etxt.
    destruct (list_ascii_of_string txt) as [|c cs]; [discriminate|].
    apply andb_true_iff in Hname as [Hc Hcs].
    split; [discriminate|]. rewrite <- Etxt.
    apply scan_bareword; auto.
  - unfold operatorTexts in Hw.
    assert (Hr' : stopsWord (TOperator, EmptyString) rest = true)
      by (destruct rest; exact Hr).
    split_texts Hw; (split; [discriminate|]); cbn [list_ascii_of_string app List.length];
      first [ now apply scan_operator1
            | apply (scan_operator2 (ascii_of_nat 60)); reflexivity
            | apply (scan_operator2 (ascii_of_nat 62)); reflexivity
            | apply (scan_operator2 (ascii_of_nat 61)); reflexivity
            | apply (scan_operator2 (ascii_of_nat 33)); reflexivity ].
  - unfold punctuationTexts in Hw.
    split_texts Hw; (split; [discriminate|]); cbn [list_ascii_of_string app List.length];
      now apply scan_punctuation.
Qed.

Lemma lexFrom_blanks g rest pos :
  forallb isSpace g = true ->
  lexFrom (g ++ rest) pos 0 = lexFrom rest (pos + List.length g) 0.
Proof.
  revert pos; induction g as [|c g IH]; intros pos Hg; cbn [app List.length].
  - now rewrite Nat.add_0_r.
  - cbn [forallb] in Hg. apply andb_true_iff in Hg as [Hc Hg].
    rewrite lexFrom_space by exact Hc. rewrite IH by exact Hg. f_equal. lia.
Qed.

Lemma lex_word w gap rest pos :
  wordOk w = true -> isBlankText gap = true ->
  stopsWord w (list_ascii_of_string gap ++ rest) = true ->
  lexFrom (list_ascii_of_string (lexeme w) ++ list_ascii_of_string gap ++ rest) pos 0 =
  consToken (mkToken (fst w) (snd w) pos)
            (lexFrom rest (pos + String.length (lexeme w) + String.length gap) 0).
Proof.
  intros Hw Hg Hr. destruct (scan_word w _ Hw Hr) as [Hne Hs].
  rewrite <- !chars_length.
  destruct (list_ascii_of_string (lexeme w)) as [|c pre]; [now elim Hne|].
  cbn [app List.length] in *.
  rewrite (lexFrom_lexed c pre _ pos (fst w) (snd w) Hs).
  now rewrite lexFrom_blanks by exact Hg.
Qed.

Lemma lex_words ws gaps rest pos :
  forallb wordOk ws = true -> laidOut ws gaps rest = true ->
  lexFrom (list_ascii_of_string (writeTokens ws gaps) ++ rest) pos 0 =
  prepend (place pos ws gaps) (lexFrom rest (pos + String.length (writeTokens ws gaps)) 0).
Proof.
  revert pos gaps; induction ws as [|w ws IH]; intros pos gaps Hws Hlay.
  - simpl. rewrite Nat.add_0_r. now destruct (lexFrom rest pos 0).
  - cbn [forallb] in Hws. apply andb_true_iff in Hws as [Hw Hws].
    cbn [laidOut] in Hlay. apply andb_true_iff in Hlay as [Hlay Hrest].
    apply andb_true_iff in Hlay as [Hgap Hstop].
    cbn [writeTokens place]. rewrite !chars_app, <- !app_assoc.
    rewrite chars_app, <- app_assoc in Hstop.
    rewrite (lex_word w _ _ pos Hw Hgap Hstop). rewrite IH by assumption.
    rewrite !string_length_app.
    replace (pos + (String.length (lexeme w) +
                    (String.length (hd EmptyString gaps) +
                     String.length (writeTokens ws (tl gaps)))))
      with (pos + String.length (lexeme w) + String.length (hd EmptyString gaps) +
            String.length (writeTokens ws (tl gaps))) by lia.
    now destruct (lexFrom rest _ 0).
Qed.

(** The tokens of a text written by [writeTokens] after the blank text
    [lead]. *)
Lemma tokenize_written lead ws gaps :
  isBlankText lead = true -> forallb wordOk ws = true -> laidOut ws gaps [] = true ->
  tokenize (lead ++ writeTokens ws gaps) =
  Ok (place (String.length lead) ws gaps ++
      [mkToken TEOF EmptyString (String.length (lead ++ writeTokens ws gaps))]).
Proof.
  intros Hlead Hws Hlay. unfold tokenize.
  rewrite chars_app, lexFrom_blanks by exact Hlead.
  rewrite <- (app_nil_r (list_ascii_of_string (writeTokens ws gaps))).
  rewrite lex_words by assumption.
  rewrite string_length_app, chars_length. reflexivity.
Qed.

(** *** Layouts of tokens that need nothing between them *)

Lemma canFollow_space w c : wordOk w = true -> isSpace c = true -> canFollow w c = true.
Proof.
  destruct w as [k txt]. unfold wordOk, canFollow. cbn [fst snd].
  unfold isSpace, isIdentChar, isIdentStart, isDigit, between.
  rewrite !orb_true_iff, !Nat.eqb_eq. intros Hw Hc.
  destruct k; try discriminate;
    rewrite ?andb_true_iff, ?negb_true_iff, ?orb_false_iff, ?andb_false_iff,
            ?Nat.leb_gt, ?Nat.eqb_neq; try reflexivity; lia.
Qed.

Lemma lexeme_head w :
  wordOk w = true ->
  exists cs, list_ascii_of_string (lexeme w) = headChar w :: cs.
Proof.
  intros Hw. unfold headChar.
  destruct (scan_word w [] Hw eq_refl) as [Hne _].
  destruct (list_ascii_of_string (lexeme w)) as [|c cs]; [now elim Hne | eauto].
Qed.

Lemma tight_laidOut ws rest :
  forallb wordOk ws = true -> tight ws rest = true ->
  forall gaps, forallb isBlankText gaps = true -> laidOut ws gaps rest = true.
Proof.
  induction ws as [|w ws IH]; intros Hws Ht gaps Hg; [reflexivity|].
  cbn [forallb] in Hws. apply andb_true_iff in Hws as [Hw Hws].
  cbn [tight] in Ht. apply andb_true_iff in Ht as [Hnext Ht].
  assert (Hhd : isBlankText (hd EmptyString gaps) = true /\
                forallb isBlankText (tl gaps) = true).
  { destruct gaps as [|g gaps]; [split; reflexivity|].
    cbn [forallb] in Hg. now apply andb_true_iff in Hg. }
  destruct Hhd as [Hgap Htl].
  cbn [laidOut]. rewrite Hgap, (IH Hws Ht (tl gaps) Htl), andb_true_r. cbn [andb].
  rewrite chars_app, <- app_assoc.
  unfold isBlankText in Hgap.
  destruct (list_ascii_of_string (hd EmptyString gaps)) as [|c g].
  - cbn [app]. destruct ws as [|w' ws'].
    + exact Hnext.
    + cbn [forallb] in Hws. apply andb_true_iff in Hws as [Hw' _].
      cbn [writeTokens]. rewrite chars_app.
      destruct (lexeme_head w' Hw') as (cs & ->). exact Hnext.
  - cbn [forallb] in Hgap. apply andb_true_iff in Hgap as [Hc _].
    cbn [app stopsWord]. now apply canFollow_space.
Qed.

(** ** Parsing what [phpTokens] wrote *)

(** With enough fuel, how much exactly does not matter. *)
Lemma binaryTail_fuel operand ops :
  (forall ts a rest, operand ts = POk a rest -> List.length rest < List.length ts) ->
  forall k1 k2 left ts,
    List.length ts < k1 -> List.length ts < k2 ->
    binaryTail operand ops k1 left ts = binaryTail operand ops k2 left ts.
Proof.
  intros Hshrink. induction k1 as [|k1 IH]; intros k2 left ts H1 H2; [lia|].
  destruct k2 as [|k2]; [lia|]. cbn [binaryTail].
  destruct ts as [|t rest]; [reflexivity|].
  destruct (ops t); [|reflexivity].
  destruct (operand rest) as [right rest1|e|] eqn:E; cbn [bind]; try reflexivity.
  apply Hshrink in E. simpl in H1, H2. apply IH; lia.
Qed.

Lemma binaryTail_stop operand ops k left ts :
  0 < k -> stopsLevel ops ts ->
  binaryTail operand ops k left ts = POk left ts.
Proof.
  intros Hk Hts. destruct k as [|k]; [lia|]. cbn [binaryTail].
  destruct ts as [|t rest]; [reflexivity|]. simpl in Hts. now rewrite Hts.
Qed.

Lemma place_app pos a b gaps :
  place pos (a ++ b) gaps =
  place pos a gaps ++
  place (pos + String.length (writeTokens a gaps)) b (skipn (List.length a) gaps).
Proof.
  revert pos gaps; induction a as [|w a IH]; intros pos gaps; cbn [app place writeTokens].
  - cbn. now rewrite Nat.add_0_r.
  - rewrite IH. cbn [app List.length]. do 2 f_equal. f_equal.
    + rewrite !string_length_app. lia.
    + destruct gaps as [|g gaps]; [now rewrite skipn_nil | reflexivity].
Qed.

Lemma place_length pos ws gaps : List.length (place pos ws gaps) = List.length ws.
Proof. revert pos gaps; induction ws; intros pos gaps; simpl; auto. Qed.

Lemma primaryOf_shrinks n ts a rest :
  primaryOf n ts = POk a rest -> List.length rest < List.length ts.
Proof.
  apply (Good_shrinks (S n) 0). apply good_parsePrimary, good_parseExpression.
Qed.

Lemma multiplicativeOf_shrinks n ts a rest :
  multiplicativeOf n ts = POk a rest -> List.length rest < List.length ts.
Proof.
  apply (Good_shrinks (S n) 0).
  apply good_binaryLevel, good_parsePrimary, good_parseExpression.
Qed.

Lemma parseExpression_unfold n ts :
  parseExpression (S n) ts = binaryLevel (additiveOf n) cmpOp n ts.
Proof. reflexivity. Qed.

Lemma additiveOf_unfold n ts :
  additiveOf n ts = binaryLevel (multiplicativeOf n) addOp n ts.
Proof. reflexivity. Qed.

Lemma multiplicativeOf_unfold n ts :
  multiplicativeOf n ts = binaryLevel (primaryOf n) mulOp n ts.
Proof. reflexivity. Qed.

(** An expression read up to a token that is no operator. *)
Lemma additive_to_expression e :
  readsAsAdditive e ->
  forall n pos gaps rest,
    S (List.length (place pos (phpTokens 0 e) gaps ++ rest)) < n ->
    stopsLevel mulOp rest -> stopsLevel addOp rest -> stopsLevel cmpOp rest ->
    parseExpression n (place pos (phpTokens 0 e) gaps ++ rest) = POk (toExpression e) rest.
Proof.
  intros He n pos gaps rest Hn Hm Ha Hc.
  destruct n as [|n]; [lia|].
  assert (Hk : 0 < n) by lia.
  rewrite parseExpression_unfold. unfold binaryLevel at 1.
  rewrite additiveOf_unfold, He by (auto; lia).
  rewrite binaryTail_stop by assumption.
  cbn [bind]. now apply binaryTail_stop.
Qed.

(** A parenthesised expression is read as a primary. *)
Lemma parenthesised_primary e :
  readsAsAdditive e ->
  forall n pos pos1 gaps pos' rest,
    List.length (openToken pos :: place pos1 (phpTokens 0 e) gaps ++ closeToken pos' :: rest)
      < n ->
    primaryOf n (openToken pos :: place pos1 (phpTokens 0 e) gaps ++ closeToken pos' :: rest) =
    POk (toExpression e) rest.
Proof.
  intros He n pos pos1 gaps pos' rest Hn. unfold primaryOf, parsePrimary.
  cbn [kind openToken isToken kind_eqb text String.eqb Ascii.eqb Bool.eqb andb].
  simpl in Hn.
  rewrite (additive_to_expression e He) by (simpl; auto; lia).
  reflexivity.
Qed.

Lemma binaryTail_step operand ops k left t rest op :
  ops t = Some op ->
  binaryTail operand ops (S k) left (t :: rest) =
  bind (operand rest) (fun right rest1 =>
    binaryTail operand ops k (BinaryOp op left right) rest1).
Proof. intros H. cbn [binaryTail]. now rewrite H. Qed.

Lemma placed_length pos ws gaps (rest : list Token) :
  List.length (place pos ws gaps ++ rest) = List.length ws + List.length rest.
Proof. now rewrite length_app, place_length. Qed.

Lemma primary_to_multiplicative e :
  phpTokens 1 e = phpTokens 2 e -> readsAsPrimary e -> readsAsMultiplicative e.
Proof.
  intros Hsame He n pos gaps rest Hn. unfold binaryLevel.
  rewrite Hsame in *. now rewrite He.
Qed.

Lemma multiplicative_to_additive e :
  phpTokens 0 e = phpTokens 1 e -> readsAsMultiplicative e -> readsAsAdditive e.
Proof.
  intros Hsame He n pos gaps rest Hn Hstop. unfold binaryLevel at 1.
  rewrite Hsame in *. rewrite multiplicativeOf_unfold, He by exact Hn.
  rewrite binaryTail_stop by (assumption || lia). reflexivity.
Qed.

Lemma parenthesised outer inner level :
  phpTokens level outer = openParen :: phpTokens 0 inner ++ [closeParen] ->
  toExpression outer = toExpression inner ->
  readsAsAdditive inner ->
  forall n pos gaps rest,
    List.length (place pos (phpTokens level outer) gaps ++ rest) < n ->
    primaryOf n (place pos (phpTokens level outer) gaps ++ rest) =
    POk (toExpression outer) rest.
Proof.
  intros Hshape Hsame He n pos gaps rest Hn. rewrite Hshape, Hsame in *.
  cbn [place] in *. rewrite place_app in *. cbn [place app] in *.
  rewrite <- app_assoc in *. cbn [app] in *.
  now apply (parenthesised_primary inner He).
Qed.

Lemma addOp_written op pos :
  isAdditive op = true -> addOp (mkToken TOperator (arithText op) pos) = Some (arithOp op).
Proof. destruct op; try discriminate; reflexivity. Qed.

Lemma mulOp_written op pos :
  isAdditive op = false -> mulOp (mkToken TOperator (arithText op) pos) = Some (arithOp op).
Proof. destruct op; try discriminate; reflexivity. Qed.

Lemma additive_step op l r :
  isAdditive op = true ->
  readsAsAdditive l -> readsAsMultiplicative r -> readsAsAdditive (ABin op l r).
Proof.
  intros Hop Hl Hr n pos gaps rest Hn Hstop.
  assert (Htoks : phpTokens 0 (ABin op l r) =
                  phpTokens 0 l ++ (TOperator, arithText op) :: phpTokens 1 r).
  { destruct op; try discriminate; reflexivity. }
  rewrite Htoks in *. rewrite place_app in *. cbn [place] in *.
  rewrite <- app_assoc in *. cbn [app] in *.
  rewrite placed_length in Hn. cbn [List.length] in Hn. rewrite placed_length in Hn.
  rewrite Hl; [| rewrite placed_length; cbn [List.length]; rewrite placed_length; lia
               | destruct op; try discriminate; reflexivity ].
  destruct n as [|n]; [lia|].
  cbn [fst snd]. rewrite (binaryTail_step _ _ _ _ _ _ _ (addOp_written op _ Hop)).
  rewrite multiplicativeOf_unfold, Hr by (rewrite placed_length; lia).
  rewrite binaryTail_stop by (assumption || lia). cbn [bind toExpression].
  apply binaryTail_fuel; try lia. apply multiplicativeOf_shrinks.
Qed.

Lemma multiplicative_step op l r :
  isAdditive op = false ->
  readsAsMultiplicative l -> readsAsPrimary r -> readsAsMultiplicative (ABin op l r).
Proof.
  intros Hop Hl Hr n pos gaps rest Hn.
  assert (Htoks : phpTokens 1 (ABin op l r) =
                  phpTokens 1 l ++ (TOperator, arithText op) :: phpTokens 2 r).
  { destruct op; try discriminate; reflexivity. }
  rewrite Htoks in *. rewrite place_app in *. cbn [place] in *.
  rewrite <- app_assoc in *. cbn [app] in *.
  rewrite placed_length in Hn. cbn [List.length] in Hn. rewrite placed_length in Hn.
  rewrite Hl by (rewrite placed_length; cbn [List.length]; rewrite placed_length; lia).
  destruct n as [|n]; [lia|].
  cbn [fst snd]. rewrite (binaryTail_step _ _ _ _ _ _ _ (mulOp_written op _ Hop)).
  rewrite Hr by (rewrite placed_length; lia). cbn [bind toExpression].
  apply binaryTail_fuel; try lia. apply primaryOf_shrinks.
Qed.

(** Every written expression is read back as the tree it was written
    from, at each of the three levels, wherever its tokens stand. *)
Lemma reads_back e :
  readsAsAdditive e /\ readsAsMultiplicative e /\ readsAsPrimary e.
Proof.
  induction e as [v|x|op l [Hl0 [Hl1 Hl2]] r [Hr0 [Hr1 Hr2]]|e1 [H0 [H1 H2]]].
  - assert (Hp : readsAsPrimary (ANum v)) by (intros n pos gaps rest Hn; reflexivity).
    assert (Hm : readsAsMultiplicative (ANum v))
      by (apply primary_to_multiplicative; [reflexivity | exact Hp]).
    split; [|split]; auto. now apply multiplicative_to_additive.
  - assert (Hp : readsAsPrimary (AVar x)) by (intros n pos gaps rest Hn; reflexivity).
    assert (Hm : readsAsMultiplicative (AVar x))
      by (apply primary_to_multiplicative; [reflexivity | exact Hp]).
    split; [|split]; auto. now apply multiplicative_to_additive.
  - destruct (isAdditive op) eqn:Hop.
    + assert (Ha : readsAsAdditive (ABin op l r)) by now apply additive_step.
      assert (Hp : readsAsPrimary (ABin op l r)).
      { intros n pos gaps rest.
        apply (parenthesised _ (ABin op l r)); [|reflexivity|exact Ha].
        destruct op; try discriminate; reflexivity. }
      split; [exact Ha | split; [|exact Hp]].
      apply primary_to_multiplicative; [|exact Hp].
      destruct op; try discriminate; reflexivity.
    + assert (Hm : readsAsMultiplicative (ABin op l r)) by now apply multiplicative_step.
      assert (Ha : readsAsAdditive (ABin op l r)).
      { apply multiplicative_to_additive; [|exact Hm].
        destruct op; try discriminate; reflexivity. }
      split; [exact Ha | split; [exact Hm|]].
      intros n pos gaps rest.
      apply (parenthesised _ (ABin op l r)); [|reflexivity|exact Ha].
      destruct op; try discriminate; reflexivity.
  - assert (Hp : readsAsPrimary (AParen e1)).
    { intros n pos gaps rest. now apply (parenthesised _ e1). }
    assert (Hm : readsAsMultiplicative (AParen e1))
      by (apply primary_to_multiplicative; [reflexivity | exact Hp]).
    split; [|split]; auto. now apply multiplicative_to_additive.
Qed.

(** ** The tokens of a written expression *)

Lemma wellWritten_words level e :
  wellWritten e = true -> forallb wordOk (phpTokens level e) = true.
Proof.
  revert level; induction e as [v|x|op l IHl r IHr|e1 IH]; intros level He;
    cbn [wellWritten] in He.
  - simpl. now rewrite andb_true_r.
  - simpl. now rewrite andb_true_r.
  - apply andb_true_iff in He as [Hl Hr].
    assert (Hbody : forallb wordOk
              (phpTokens (precedence op) l ++
               (TOperator, arithText op) :: phpTokens (S (precedence op)) r) = true).
    { rewrite forallb_app. cbn [forallb]. rewrite IHl, IHr by assumption.
      destruct op; reflexivity. }
    cbn [phpTokens]. destruct (level <=? precedence op); [exact Hbody|].
    cbn [forallb]. rewrite forallb_app, Hbody. reflexivity.
  - cbn [phpTokens forallb]. rewrite forallb_app, IH by assumption. reflexivity.
Qed.

Lemma assignmentWords_ok r e :
  isNameText r = true -> wellWritten e = true ->
  forallb wordOk (assignmentWords r e) = true.
Proof.
  intros Hr He. unfold assignmentWords. cbn [forallb].
  rewrite forallb_app, (wellWritten_words 0 e He).
  unfold wordOk at 1. cbn [fst snd]. rewrite Hr. reflexivity.
Qed.

(** A written expression starts with a character that starts an
    operand. *)
Lemma phpTokens_head level e :
  wellWritten e = true ->
  exists w ws, phpTokens level e = w :: ws /\ startsOperand (headChar w) = true.
Proof.
  revert level; induction e as [v|x|op l IHl r IHr|e1 IH]; intros level He;
    cbn [wellWritten] in He.
  - exists (TNumber, v), []. split; [reflexivity|].
    unfold headChar, lexeme. cbn [fst snd].
    destruct (numberText_head v He) as (c & cs & -> & Hc).
    unfold startsOperand. now rewrite Hc.
  - exists (TIdentifier, x), []. split; reflexivity.
  - apply andb_true_iff in He as [Hl _].
    cbn [phpTokens]. destruct (level <=? precedence op).
    + destruct (IHl (precedence op) Hl) as (w & ws & -> & Hw). cbn [app]. eauto.
    + exists openParen. eexists. split; reflexivity.
  - exists openParen. eexists. split; reflexivity.
Qed.

Lemma endsOperand_number v c : endsOperand c = true -> canFollow (TNumber, v) c = true.
Proof.
  unfold endsOperand, canFollow, isIdentChar. cbn [fst].
  rewrite !andb_true_iff, !negb_true_iff, orb_false_iff. tauto.
Qed.

Lemma endsOperand_variable x c : endsOperand c = true -> canFollow (TIdentifier, x) c = true.
Proof.
  unfold endsOperand, canFollow. cbn [fst]. rewrite andb_true_iff. tauto.
Qed.

Lemma startsOperand_operator op c :
  startsOperand c = true -> canFollow (TOperator, op) c = true.
Proof.
  unfold startsOperand, canFollow, isDigit, between. cbn [fst].
  rewrite !orb_true_iff, !andb_true_iff, !Nat.leb_le, !Nat.eqb_eq, !negb_true_iff,
          !Nat.eqb_neq. lia.
Qed.

Lemma tight_cons w next rest :
  followedBy (canFollow w) next rest = true -> tight next rest = true ->
  tight (w :: next) rest = true.
Proof.
  intros Hw Hn. cbn [tight]. rewrite Hn, andb_true_r.
  destruct next; exact Hw.
Qed.

(** The tokens of a written expression need nothing between them, nor
    before what ends an operand. *)
Lemma tight_expression e :
  wellWritten e = true ->
  forall level next rest,
    followedBy endsOperand next rest = true -> tight next rest = true ->
    tight (phpTokens level e ++ next) rest = true.
Proof.
  induction e as [v|x|op l IHl r IHr|e1 IH]; intros He level next rest Hends Hnext;
    cbn [wellWritten] in He.
  - cbn [phpTokens app]. apply tight_cons; [|exact Hnext].
    destruct next as [|w' next]; [destruct rest as [|c rest]; [reflexivity|]|];
      now apply endsOperand_number.
  - cbn [phpTokens app]. apply tight_cons; [|exact Hnext].
    destruct next as [|w' next]; [destruct rest as [|c rest]; [reflexivity|]|];
      now apply endsOperand_variable.
  - apply andb_true_iff in He as [Hl Hr].
    assert (Hbody : forall next', followedBy endsOperand next' rest = true ->
                                  tight next' rest = true ->
              tight ((phpTokens (precedence op) l ++
                      (TOperator, arithText op) :: phpTokens (S (precedence op)) r) ++ next')
                    rest = true).
    { intros next' Hends' Hnext'. rewrite <- app_assoc. cbn [app].
      apply IHl; [exact Hl | destruct op; reflexivity |].
      destruct (phpTokens_head (S (precedence op)) r Hr) as (w & ws & Er & Hw).
      apply tight_cons.
      - rewrite Er. cbn [app followedBy]. now apply startsOperand_operator.
      - now apply IHr. }
    cbn [phpTokens]. destruct (level <=? precedence op); [now apply Hbody|].
    cbn [app]. apply tight_cons.
    + destruct (phpTokens_head (precedence op) l Hl) as (w & ws & -> & _). reflexivity.
    + rewrite <- app_assoc. apply Hbody; [reflexivity|].
      cbn [app]. apply tight_cons; [|exact Hnext].
      destruct next as [|w' next]; [destruct rest|]; reflexivity.
  - cbn [phpTokens app]. apply tight_cons.
    + destruct (phpTokens_head 0 e1 He) as (w & ws & -> & _). reflexivity.
    + rewrite <- app_assoc. apply IH; [exact He | reflexivity |].
      cbn [app]. apply tight_cons; [|exact Hnext].
      destruct next as [|w' next]; [destruct rest|]; reflexivity.
Qed.

(** ** Programs of assignments through lexer, parser and generator *)

Lemma programWords_ok items :
  forallb itemOk items = true -> forallb wordOk (programWords items) = true.
Proof.
  induction items as [|[r e] items IH]; intros H; [reflexivity|].
  cbn [forallb] in H. apply andb_true_iff in H as [Hi H].
  apply andb_true_iff in Hi as [Hr He]. cbn [fst snd] in *.
  cbn [programWords flat_map fst snd]. rewrite forallb_app.
  rewrite assignmentWords_ok by assumption. now apply IH.
Qed.

(** A program of assignments can be laid out with any blank text, or
    none, between its tokens. *)
Lemma tight_program items :
  forallb itemOk items = true -> tight (programWords items) [] = true.
Proof.
  induction items as [|[r e] items IH]; intros H; [reflexivity|].
  cbn [forallb] in H. apply andb_true_iff in H as [Hi H].
  apply andb_true_iff in Hi as [Hr He]. cbn [fst snd] in *.
  specialize (IH H).
  cbn [programWords flat_map fst snd]. fold (programWords items).
  unfold assignmentWords. cbn [app]. rewrite <- app_assoc. cbn [app].
  apply tight_cons; [reflexivity|].
  destruct (phpTokens_head 0 e He) as (w & ws & Ee & Hw).
  apply tight_cons.
  - rewrite Ee. cbn [app followedBy]. now apply startsOperand_operator.
  - apply tight_expression; [exact He | reflexivity |].
    apply tight_cons; [|exact IH].
    destruct (programWords items); reflexivity.
Qed.

Lemma program_laidOut items gaps :
  forallb itemOk items = true -> forallb isBlankText gaps = true ->
  laidOut (programWords items) gaps [] = true.
Proof.
  intros Hi Hg.
  apply tight_laidOut; [now apply programWords_ok | now apply tight_program | exact Hg].
Qed.

Lemma parseStatement_assignment n r e p0 p1 p2 gaps p3 rest :
  List.length (phpTokens 0 e) + List.length rest + 3 < n ->
  parseStatement n
    (mkToken TIdentifier r p0 :: mkToken TOperator "=" p1 ::
     place p2 (phpTokens 0 e) gaps ++ mkToken TPunctuation ";" p3 :: rest) =
  POk (Assignment r (toExpression e)) rest.
Proof.
  intros Hn. destruct n as [|n]; try lia.
  cbn [parseStatement kind text].
  unfold expect at 1.
  cbn [isToken kind text kind_eqb String.eqb Ascii.eqb Bool.eqb andb bind].
  destruct (reads_back e) as [Ha _].
  rewrite (additive_to_expression e Ha)
    by (try reflexivity; rewrite placed_length; simpl; lia).
  cbn [bind]. unfold expect at 1.
  cbn [isToken kind text kind_eqb String.eqb Ascii.eqb Bool.eqb andb bind].
  reflexivity.
Qed.

Lemma programWords_cons r e items :
  programWords ((r, e) :: items) =
  (TIdentifier, r) :: (TOperator, "=") ::
  phpTokens 0 e ++ (TPunctuation, ";") :: programWords items.
Proof.
  cbn [programWords flat_map fst snd]. unfold assignmentWords.
  cbn [app]. now rewrite <- app_assoc.
Qed.

Lemma statements_assignments nS p4 items :
  forall k start gaps,
    List.length items < k ->
    List.length (programWords items) + 1 < nS ->
    statementsUntil (parseStatement nS) endsProgram k
      (place start (programWords items) gaps ++ [mkToken TEOF EmptyString p4]) =
    POk (map assignmentOf items) [mkToken TEOF EmptyString p4].
Proof.
  induction items as [|[r e] items IH]; intros k start gaps Hk HnS.
  - destruct k as [|k]; [simpl in Hk; lia|]. reflexivity.
  - destruct k as [|k]; [simpl in Hk; lia|].
    rewrite programWords_cons in *.
    cbn [place fst snd app]. rewrite place_app. cbn [place fst snd].
    rewrite <- app_assoc. cbn [app].
    cbn [statementsUntil endsProgram kind kind_eqb].
    cbn [List.length] in HnS. rewrite length_app in HnS. cbn [List.length] in HnS.
    rewrite parseStatement_assignment
      by (rewrite placed_length; cbn [List.length]; lia).
    cbn [bind]. rewrite IH by (cbn [List.length] in Hk; lia).
    reflexivity.
Qed.

Lemma parse_assignments items start gaps pos :
  parse (place start (programWords items) gaps ++ [mkToken TEOF EmptyString pos]) =
  Ok (map assignmentOf items).
Proof.
  unfold parse, parseWith, parseProgram.
  rewrite statements_assignments; [reflexivity | |].
  - rewrite placed_length. cbn [List.length].
    assert (H : List.length items <= List.length (programWords items)).
    { clear. induction items as [|[r e] items IH]; [reflexivity|].
      rewrite programWords_cons. cbn [List.length]. rewrite length_app.
      cbn [List.length]. lia. }
    lia.
  - rewrite placed_length. cbn [List.length]. lia.
Qed.

Lemma string_app_assoc (a b c : string) : ((a ++ b) ++ c)%string = (a ++ b ++ c)%string.
Proof. induction a as [|ch a IH]; simpl; [reflexivity | now rewrite IH]. Qed.

Lemma generate_assignments items :
  forall d, emitBlock 0 (fst (generateBlock d (map assignmentOf items))) =
            assignmentLines d items.
Proof.
  induction items as [|[r e] items IH]; intros d; [reflexivity|].
  cbn [map generateBlock assignmentOf fst snd generateStatement assignmentLines].
  destruct (isDeclared r d).
  - specialize (IH d). destruct (generateBlock d (map assignmentOf items)) as [js d2].
    cbn [fst] in *. cbn [emitBlock emitStatement indentation]. rewrite IH.
    now rewrite !string_app_assoc.
  - specialize (IH (r :: d)).
    destruct (generateBlock (r :: d) (map assignmentOf items)) as [js d2].
    cbn [fst] in *. cbn [emitBlock emitStatement indentation]. rewrite IH.
    now rewrite !string_app_assoc.
Qed.

Lemma transpile_assignments lead items gaps :
  forallb itemOk items = true ->
  isBlankText lead = true -> forallb isBlankText gaps = true ->
  transpile (programText lead items gaps) = Ok (assignmentLines [] items).
Proof.
  intros Hi Hlead Hgaps. unfold transpile, pipeline, programText.
  rewrite tokenize_written;
    [| exact Hlead | now apply programWords_ok | now apply program_laidOut].
  rewrite parse_assignments. unfold generate, generateProgram.
  now rewrite generate_assignments.
Qed.

(** ** Reading the generated expression as JavaScript *)

Lemma jsText_bin op l r :
  jsText (ABin op l r) =
  ascii_of_nat 40 :: jsText l ++ blank :: opChar op :: blank :: jsText r ++ [ascii_of_nat 41].
Proof.
  unfold jsText. cbn [toExpression generateExpression].
  rewrite !chars_app. destruct op; reflexivity.
Qed.

Section JsFacts.

Variable num : Type.
Variable literalValue : string -> num.
Variables plus minus times divide : num -> num -> num.
Variable env : string -> num.

Abbreviation primary := (jsPrimary num literalValue env).
Abbreviation expression := (jsExpression num literalValue plus minus times divide env).
Abbreviation mulOps := (jsMulOp num times divide).
Abbreviation addOps := (jsAddOp num plus minus).
Abbreviation value := (arithValue num literalValue plus minus times divide env).

Lemma jsTail_stop operand ops n acc cs :
  0 < n ->
  match skipSpaces cs with c :: _ => ops c = None | [] => True end ->
  jsTail num operand ops n acc cs = Some (acc, cs).
Proof.
  intros Hn Hs. destruct n as [|n]; [lia|]. cbn [jsTail].
  destruct (skipSpaces cs) as [|c r]; [reflexivity | now rewrite Hs].
Qed.

Lemma jsTail_step operand ops n acc cs c r f v r1 :
  skipSpaces cs = c :: r -> ops c = Some f -> operand r = Some (v, r1) ->
  jsTail num operand ops (S n) acc cs = jsTail num operand ops n (f acc v) r1.
Proof. intros Hs Hc Ho. cbn [jsTail]. now rewrite Hs, Hc, Ho. Qed.

Lemma jsPrimary_blank E cs : primary E (blank :: cs) = primary E cs.
Proof. reflexivity. Qed.

Lemma jsPrimary_number E v rest :
  isNumberText v = true -> closes rest = true ->
  primary E (list_ascii_of_string v ++ rest) = Some (literalValue v, rest).
Proof.
  intros Hv Hr. pose proof (scanNumber_written v rest Hv Hr) as Hscan.
  destruct (numberText_head v Hv) as (c & cs & E1 & Hc).
  rewrite E1 in *. cbn [app] in *. unfold jsPrimary.
  assert (H : isSpace c = false /\ (code c =? 40) = false).
  { unfold isDigit, between in Hc. apply andb_true_iff in Hc as [H1 H2].
    apply Nat.leb_le in H1, H2. unfold isSpace.
    split; rewrite ?orb_false_iff, ?Nat.eqb_neq; lia. }
  destruct H as [Hsp Hop]. cbn [skipSpaces]. rewrite Hsp, Hop, Hc, Hscan.
  change (c :: cs ++ rest) with ((c :: cs) ++ rest).
  now rewrite skipn_length_app, <- E1, str_chars.
Qed.

Lemma jsPrimary_variable E x rest :
  isNameText x = true -> isJsReserved x = false -> closes rest = true ->
  primary E (list_ascii_of_string x ++ rest) = Some (env x, rest).
Proof.
  unfold isNameText. intros Hx Hres Hr. rewrite <- (str_chars x) in Hres.
  rewrite <- (str_chars x) at 2.
  destruct (list_ascii_of_string x) as [|c cs]; [discriminate|].
  apply andb_true_iff in Hx as [Hc Hcs].
  destruct (identStart_not_special c Hc) as (Hsp & Hd & _).
  assert (Hop : (code c =? 40) = false).
  { unfold isIdentStart, between in Hc.
    rewrite !orb_true_iff, !andb_true_iff, !Nat.leb_le, Nat.eqb_eq in Hc.
    apply Nat.eqb_neq. lia. }
  assert (Ht : takeWhile isIdentChar ((c :: cs) ++ rest) = c :: cs).
  { apply takeWhile_app; [|now apply closes_stops_ident].
    simpl. unfold isIdentChar at 1. now rewrite Hc, Hcs. }
  unfold jsPrimary. cbn [app skipSpaces]. rewrite Hsp, Hop, Hd, Hc.
  change (c :: cs ++ rest) with ((c :: cs) ++ rest).
  now rewrite Ht, Hres, skipn_length_app.
Qed.

Lemma jsPrimary_open E cs :
  primary E (ascii_of_nat 40 :: cs) =
  match E cs with
  | Some (v, rest1) =>
      match skipSpaces rest1 with
      | c1 :: rest2 => if code c1 =? 41 then Some (v, rest2) else None
      | [] => None
      end
  | None => None
  end.
Proof. reflexivity. Qed.

(** The two operands of a generated binary expression, read at the
    levels of JavaScript, up to the closing parenthesis. *)
Lemma js_operands n op l r vl vr rest :
  1 < n ->
  (let rest1 := blank :: opChar op :: blank :: jsText r ++ ascii_of_nat 41 :: rest in
   primary (expression n) (jsText l ++ rest1) = Some (vl, rest1)) ->
  (let rest1 := ascii_of_nat 41 :: rest in
   primary (expression n) (jsText r ++ rest1) = Some (vr, rest1)) ->
  expression (S n)
    (jsText l ++ blank :: opChar op :: blank :: jsText r ++ ascii_of_nat 41 :: rest) =
  Some (apply num plus minus times divide op vl vr, ascii_of_nat 41 :: rest).
Proof.
  intros Hn Hl Hr. cbv zeta in Hl, Hr. cbn [jsExpression]. unfold jsLevel.
  rewrite Hl.
  destruct n as [|n]; [lia|].
  destruct op.
  - rewrite jsTail_stop by (try lia; reflexivity).
    erewrite jsTail_step; [| reflexivity | reflexivity |].
    2:{ rewrite jsPrimary_blank, Hr.
        apply jsTail_stop; [lia | reflexivity]. }
    apply jsTail_stop; [lia | reflexivity].
  - rewrite jsTail_stop by (try lia; reflexivity).
    erewrite jsTail_step; [| reflexivity | reflexivity |].
    2:{ rewrite jsPrimary_blank, Hr.
        apply jsTail_stop; [lia | reflexivity]. }
    apply jsTail_stop; [lia | reflexivity].
  - erewrite jsTail_step; [| reflexivity | reflexivity |].
    2:{ rewrite jsPrimary_blank. apply Hr. }
    rewrite jsTail_stop by (try lia; reflexivity).
    apply jsTail_stop; [lia | reflexivity].
  - erewrite jsTail_step; [| reflexivity | reflexivity |].
    2:{ rewrite jsPrimary_blank. apply Hr. }
    rewrite jsTail_stop by (try lia; reflexivity).
    apply jsTail_stop; [lia | reflexivity].
Qed.

Lemma jsText_length_bin op l r (rest : list ascii) :
  List.length (jsText (ABin op l r) ++ rest) =
  List.length (jsText l) + List.length (jsText r) + 5 + List.length rest.
Proof.
  rewrite jsText_bin. cbn [app List.length]. rewrite !length_app.
  cbn [List.length]. rewrite !length_app. cbn [List.length]. lia.
Qed.

(** A generated expression is read by JavaScript as one primary, with
    the value of the written expression. *)
Lemma js_reads_generated e :
  wellWritten e = true -> jsNamed e = true ->
  forall n rest,
    closes rest = true ->
    List.length (jsText e ++ rest) < n ->
    primary (expression n) (jsText e ++ rest) = Some (value e, rest).
Proof.
  induction e as [v|x|op l IHl r IHr|e1 IH]; intros He Hjs n rest Hrest Hn;
    cbn [wellWritten] in He; cbn [jsNamed] in Hjs.
  - now apply jsPrimary_number.
  - apply jsPrimary_variable; auto. now apply negb_true_iff.
  - apply andb_true_iff in He as [Hl Hr]. apply andb_true_iff in Hjs as [Hjl Hjr].
    rewrite jsText_length_bin in Hn.
    rewrite jsText_bin. cbn [app]. repeat (rewrite <- app_assoc; cbn [app]).
    rewrite jsPrimary_open.
    destruct n as [|n]; [lia|].
    rewrite (js_operands n op l r (value l) (value r)).
    + reflexivity.
    + lia.
    + cbv zeta. apply IHl; [assumption | assumption | reflexivity |].
      cbn [List.length]. rewrite !length_app. cbn [List.length].
      rewrite length_app. cbn [List.length]. lia.
    + cbv zeta. apply IHr; [assumption | assumption | reflexivity |].
      rewrite length_app. cbn [List.length]. lia.
  - now apply IH.
Qed.

(** The value JavaScript gives to the text generated for a written
    expression is the value of that expression. *)
Lemma jsValue_generated e :
  wellWritten e = true -> jsNamed e = true ->
  jsValue num literalValue plus minus times divide env
          (generateExpression (toExpression e)) = Some (value e).
Proof.
  intros He Hjs. unfold jsValue. fold (jsText e).
  set (N := S (List.length (jsText e))).
  cbn [jsExpression]. unfold jsLevel.
  rewrite <- (app_nil_r (jsText e)) at 1.
  rewrite (js_reads_generated e He Hjs N []);
    [| reflexivity | rewrite app_nil_r; unfold N; lia].
  rewrite jsTail_stop by (unfold N; try lia; exact I).
  rewrite jsTail_stop by (unfold N; try lia; exact I).
  reflexivity.
Qed.

End JsFacts.

(** ** C1 *)




(** ** What the lexer and the parser hand on *)

Lemma chars_str (l : list ascii) : list_ascii_of_string (str l) = l.
Proof. apply list_ascii_of_string_of_list_ascii. Qed.

Lemma takeWhile_all p (l : list ascii) : forallb p l = true -> takeWhile p l = l.
Proof.
  intros H. rewrite <- (app_nil_r l) at 1. now apply takeWhile_app.
Qed.

Lemma digits_isNumber ds :
  ds <> [] -> forallb isDigit ds = true -> isNumberText (str ds) = true.
Proof.
  intros Hne Hds. unfold isNumberText. cbv zeta. rewrite chars_str.
  rewrite takeWhile_all by exact Hds.
  destruct ds as [|d ds]; [now elim Hne|]. now rewrite skipn_all.
Qed.

Lemma fraction_isNumber ds dot fs :
  ds <> [] -> forallb isDigit ds = true -> (code dot =? 46) = true ->
  fs <> [] -> forallb isDigit fs = true ->
  isNumberText (str (ds ++ dot :: fs)) = true.
Proof.
  intros Hne Hds Hdot Hfne Hfs. unfold isNumberText. cbv zeta. rewrite chars_str.
  assert (Hstop : stopsAt isDigit (dot :: fs) = true).
  { simpl. apply Nat.eqb_eq in Hdot. unfold isDigit, between.
    rewrite negb_true_iff, andb_false_iff, !Nat.leb_gt. lia. }
  rewrite takeWhile_app by assumption.
  destruct ds as [|d ds]; [now elim Hne|]. rewrite skipn_length_app.
  rewrite Hdot. cbn [andb].
  destruct fs; [now elim Hfne | exact Hfs].
Qed.

Lemma scanNumber_isNumber c rest :
  isDigit c = true -> isNumberText (str (scanNumber (c :: rest))) = true.
Proof.
  intros Hc. unfold scanNumber. cbv zeta.
  pose proof (takeWhile_forallb isDigit (c :: rest)) as Hds.
  assert (Hne : takeWhile isDigit (c :: rest) <> [])
    by (simpl; rewrite Hc; discriminate).
  destruct (skipn (List.length (takeWhile isDigit (c :: rest))) (c :: rest))
    as [|dot [|d after]]; try now apply digits_isNumber.
  destruct ((code dot =? 46) && isDigit d) eqn:E; [|now apply digits_isNumber].
  apply andb_true_iff in E as [Hdot Hd].
  apply fraction_isNumber; auto.
  - simpl. rewrite Hd. discriminate.
  - apply takeWhile_forallb.
Qed.

Lemma name_isName n0 name :
  isIdentStart n0 = true -> forallb isIdentChar name = true ->
  isNameText (str (n0 :: name)) = true.
Proof. intros H0 Hn. unfold isNameText. now rewrite chars_str, H0, Hn. Qed.

Lemma scan_tokenOk cs k txt n pos :
  scan cs = Lexed k txt n -> tokenOk (mkToken k txt pos) = true.
Proof.
  unfold scan, tokenOk. cbn [kind text].
  destruct cs as [|c rest]; [discriminate|].
  destruct (isSpace c); [discriminate|].
  destruct (startsComment c rest); [discriminate|].
  destruct (code c =? 36).
  { destruct (takeWhile isIdentChar rest) as [|n0 name] eqn:Et; [discriminate|].
    destruct (isIdentStart n0) eqn:H0; [|discriminate].
    intros [= <- <- _].
    pose proof (takeWhile_forallb isIdentChar rest) as Hall. rewrite Et in Hall.
    cbn [forallb] in Hall. apply andb_true_iff in Hall as [_ Hall].
    now apply (name_isName n0 name). }
  destruct (isDigit c) eqn:Hd.
  { intros [= <- <- _]. now apply scanNumber_isNumber. }
  destruct ((code c =? 34) || (code c =? 39)).
  { destruct (scanString c rest) as [[v m]|]; [|discriminate]. now intros [= <- _ _]. }
  destruct (isIdentStart c).
  { now intros [= <- _ _]. }
  destruct (operator2 c rest); [now intros [= <- _ _]|].
  destruct (isOperatorChar c); [now intros [= <- _ _]|].
  destruct (isPunctuation c || isForeignPunctuation c); [now intros [= <- _ _]|discriminate].
Qed.

Lemma lexFrom_tokenOk cs pos skip :
  match lexFrom cs pos skip with
  | Ok ts => forallb tokenOk ts = true
  | Err _ => True
  end.
Proof.
  revert pos skip; induction cs as [|c cs IH]; intros pos skip.
  - reflexivity.
  - cbn [lexFrom]. destruct skip as [|k]; [|apply IH].
    destruct (scan (c :: cs)) as [n|k txt n|ch] eqn:Es; [apply IH| |exact I].
    specialize (IH (S pos) (pred n)).
    destruct (lexFrom cs (S pos) (pred n)); [|exact I]. cbn [consToken forallb].
    now rewrite (scan_tokenOk _ _ _ _ pos Es), IH.
Qed.

Lemma tokenize_tokenOk source ts :
  tokenize source = Ok ts -> forallb tokenOk ts = true.
Proof.
  unfold tokenize. intros H.
  pose proof (lexFrom_tokenOk (list_ascii_of_string source) 0 0) as Hok.
  now rewrite H in Hok.
Qed.

Lemma bind_ok {A B : Type} (r : PResult A) (f : A -> Parser B) b rest2 :
  bind r f = POk b rest2 ->
  exists a rest1, r = POk a rest1 /\ f a rest1 = POk b rest2.
Proof. destruct r as [a rest1|e|]; simpl; try discriminate. eauto. Qed.

Lemma hands_expect k txt : hands (fun _ : unit => true) (expect k txt).
Proof.
  intros [|t ts] a rest Hts; simpl; [discriminate|].
  destruct (isToken k txt t); [|discriminate].
  intros [= _ <-]. cbn [forallb] in Hts. apply andb_true_iff in Hts as [_ Hts]. auto.
Qed.

Ltac unbind H :=
  let a := fresh "a" in
  let r := fresh "rest" in
  let H1 := fresh "H" in
  apply bind_ok in H as (a & r & H1 & H).

Lemma hands_parsePrimary E :
  hands expressionOk E -> hands expressionOk (parsePrimary E).
Proof.
  intros HE [|t ts] a rest Hts; unfold parsePrimary; [discriminate|].
  cbn [forallb] in Hts. apply andb_true_iff in Hts as [Ht Hts].
  unfold tokenOk in Ht.
  assert (Hparen :
    (if isToken TPunctuation "(" t
     then bind (E ts) (fun e rest1 =>
          bind (expect TPunctuation ")" rest1) (fun _ rest2 => POk e rest2))
     else PErr (unexpected "expression" t)) = POk a rest ->
    expressionOk a = true /\ forallb tokenOk rest = true).
  { destruct (isToken TPunctuation "(" t); [|discriminate].
    intros H. unbind H. unbind H. injection H as <- <-.
    destruct (HE _ _ _ Hts H0) as [Ha Hr].
    destruct (hands_expect _ _ _ _ _ Hr H1) as [_ Hr2]. auto. }
  destruct (kind t); try exact Hparen; intros [= <- <-]; auto.
Qed.

Lemma hands_binaryTail operand ops k :
  hands expressionOk operand ->
  forall left ts a rest,
    expressionOk left = true -> forallb tokenOk ts = true ->
    binaryTail operand ops k left ts = POk a rest ->
    expressionOk a = true /\ forallb tokenOk rest = true.
Proof.
  intros Ho. induction k as [|k IH]; intros left ts a rest Hl Hts; simpl; [discriminate|].
  destruct ts as [|t ts]; [intros [= <- <-]; auto|].
  destruct (ops t); [|intros [= <- <-]; auto].
  intros H. unbind H.
  cbn [forallb] in Hts. apply andb_true_iff in Hts as [_ Hts].
  destruct (Ho _ _ _ Hts H0) as [Ha Hr].
  eapply IH; [| exact Hr | exact H]. cbn [expressionOk]. now rewrite Hl, Ha.
Qed.

Lemma hands_binaryLevel operand ops k :
  hands expressionOk operand -> hands expressionOk (binaryLevel operand ops k).
Proof.
  intros Ho ts a rest Hts H. unfold binaryLevel in H. unbind H.
  destruct (Ho _ _ _ Hts H0) as [Ha Hr].
  now apply (hands_binaryTail operand ops k Ho a0 rest0).
Qed.

Lemma hands_parseExpression n : hands expressionOk (parseExpression n).
Proof.
  induction n as [|n IH]; [intros ts a rest Hts; discriminate|].
  change (parseExpression (S n)) with (parseComparison (parseExpression n) n).
  unfold parseComparison, parseAdditive, parseMultiplicative.
  apply hands_binaryLevel, hands_binaryLevel, hands_binaryLevel, hands_parsePrimary, IH.
Qed.

Lemma hands_statementsUntil statement stop k :
  hands statementOk statement -> hands programOk (statementsUntil statement stop k).
Proof.
  intros Hs. induction k as [|k IH]; intros ts a rest Hts; simpl; [discriminate|].
  destruct ts as [|t ts]; [intros [= <- <-]; auto|].
  destruct (stop t); [intros [= <- <-]; auto|].
  intros H. unbind H. unbind H. injection H as <- <-.
  destruct (Hs _ _ _ Hts H0) as [Ha Hr].
  destruct (IH _ _ _ Hr H1) as [Ha1 Hr1].
  split; [|exact Hr1]. cbn [programOk]. now rewrite Ha, Ha1.
Qed.

Lemma hands_parseBlock statement k :
  hands statementOk statement -> hands programOk (parseBlock statement k).
Proof.
  intros Hs ts a rest Hts H. unfold parseBlock in H.
  unbind H. unbind H. unbind H. injection H as <- <-.
  destruct (hands_expect _ _ _ _ _ Hts H0) as [_ Hr0].
  destruct (hands_statementsUntil statement endsBlock k Hs _ _ _ Hr0 H1) as [Ha Hr1].
  destruct (hands_expect _ _ _ _ _ Hr1 H2) as [_ Hr2]. auto.
Qed.

Lemma hands_parseCondition n : hands expressionOk (parseCondition n).
Proof.
  intros ts a rest Hts H. unfold parseCondition in H.
  unbind H. unbind H. unbind H. injection H as <- <-.
  destruct (hands_expect _ _ _ _ _ Hts H0) as [_ Hr0].
  destruct (hands_parseExpression n _ _ _ Hr0 H1) as [Ha Hr1].
  destruct (hands_expect _ _ _ _ _ Hr1 H2) as [_ Hr2]. auto.
Qed.

Lemma statementOk_if c thenB elseB :
  statementOk (IfStatement c thenB elseB) =
  expressionOk c && programOk thenB &&
  match elseB with Some b => programOk b | None => true end.
Proof. destruct elseB; reflexivity. Qed.

Lemma hands_parseStatement n : hands statementOk (parseStatement n).
Proof.
  induction n as [|n IH]; intros ts a rest Hts; simpl; [discriminate|].
  destruct ts as [|t ts]; [discriminate|].
  pose proof Hts as Hall.
  cbn [forallb] in Hts. apply andb_true_iff in Hts as [Ht Hts].
  unfold tokenOk in Ht.
  assert (Hblock : hands programOk (parseBlock (parseStatement n) n))
    by now apply hands_parseBlock.
  assert (Hfall :
    (if isToken TPunctuation "{" t
     then bind (parseBlock (parseStatement n) n (t :: ts))
               (fun ss rest1 => POk (Block ss) rest1)
     else if isToken TPunctuation "(" t
          then PErr (UnsupportedConstruct (offset t) "expression statement")
          else PErr (unexpected "statement" t)) = POk a rest ->
    statementOk a = true /\ forallb tokenOk rest = true).
  { destruct (isToken TPunctuation "{" t).
    - intros H. unbind H. injection H as <- <-.
      now apply (Hblock _ _ _ Hall).
    - destruct (isToken TPunctuation "(" t); discriminate. }
  destruct (kind t); try exact Hfall; try discriminate.
  - intros H. unbind H. unbind H. unbind H. injection H as <- <-.
    destruct (hands_expect _ _ _ _ _ Hts H0) as [_ Hr0].
    destruct (hands_parseExpression n _ _ _ Hr0 H1) as [Ha Hr1].
    destruct (hands_expect _ _ _ _ _ Hr1 H2) as [_ Hr2].
    split; [|exact Hr2]. cbn [statementOk]. now rewrite Ht, Ha.
  - destruct (String.eqb (text t) "echo").
    { intros H. unbind H. unbind H. injection H as <- <-.
      destruct (hands_parseExpression n _ _ _ Hts H0) as [Ha Hr1].
      destruct (hands_expect _ _ _ _ _ Hr1 H1) as [_ Hr2]. auto. }
    destruct (String.eqb (text t) "if").
    { intros H. unbind H. unbind H.
      destruct (hands_parseCondition n _ _ _ Hts H0) as [Ha Hr1].
      destruct (Hblock _ _ _ Hr1 H1) as [Hb Hr2].
      assert (Hnone : statementOk (IfStatement a0 a1 None) = true).
      { rewrite statementOk_if, Ha, Hb. reflexivity. }
      destruct rest1 as [|t2 rest3]; [injection H as <- <-; auto|].
      destruct (isToken TKeyword "else" t2); [|injection H as <- <-; auto].
      unbind H. injection H as <- <-.
      cbn [forallb] in Hr2. apply andb_true_iff in Hr2 as [_ Hr3].
      destruct (Hblock _ _ _ Hr3 H2) as [He Hr4].
      split; [|exact Hr4]. rewrite statementOk_if, Ha, Hb. exact He. }
    destruct (String.eqb (text t) "while"); [|discriminate].
    intros H. unbind H. unbind H. injection H as <- <-.
    destruct (hands_parseCondition n _ _ _ Hts H0) as [Ha Hr1].
    destruct (Hblock _ _ _ Hr1 H1) as [Hb Hr2].
    split; [|exact Hr2]. cbn [statementOk]. fold programOk. now rewrite Ha.
Qed.

Lemma parse_programOk tokens program :
  forallb tokenOk tokens = true -> parse tokens = Ok program -> programOk program = true.
Proof.
  unfold parse, parseWith, parseProgram. intros Hts H.
  destruct (statementsUntil _ _ _ tokens) as [p rest|e|] eqn:E; try discriminate.
  injection H as <-.
  now apply (hands_statementsUntil _ _ _ (hands_parseStatement _) _ _ _ Hts E).
Qed.

(** ** The words of the output text *)

Lemma jsLexFrom_skip pre rest :
  jsLexFrom (pre ++ rest) (List.length pre) = jsLexFrom rest 0.
Proof. induction pre as [|c pre IH]; [reflexivity | exact IH]. Qed.

Lemma jsLexFrom_lexed c pre rest w :
  scanJs (c :: pre ++ rest) = JsLexed w (S (List.length pre)) ->
  jsLexFrom (c :: pre ++ rest) 0 = prependWords [w] (jsLexFrom rest 0).
Proof.
  intros Hs. cbn [jsLexFrom]. rewrite Hs. cbn [pred]. rewrite jsLexFrom_skip.
  now destruct (jsLexFrom rest 0).
Qed.

Lemma prependWords_app a b r :
  prependWords a (prependWords b r) = prependWords (a ++ b) r.
Proof. destruct r; simpl; [now rewrite app_assoc | reflexivity]. Qed.

Lemma prependWords_nil r : prependWords [] r = r.
Proof. now destruct r. Qed.

Lemma jsLex_space c rest : isSpace c = true -> jsLexFrom (c :: rest) 0 = jsLexFrom rest 0.
Proof. intros Hc. cbn [jsLexFrom scanJs]. now rewrite Hc. Qed.

Lemma jsLex_blanks g rest :
  forallb isSpace g = true -> jsLexFrom (g ++ rest) 0 = jsLexFrom rest 0.
Proof.
  induction g as [|c g IH]; intros Hg; [reflexivity|].
  cbn [forallb] in Hg. apply andb_true_iff in Hg as [Hc Hg].
  cbn [app]. rewrite jsLex_space by exact Hc. auto.
Qed.

Lemma indentation_blank depth :
  forallb isSpace (list_ascii_of_string (indentation depth)) = true.
Proof. induction depth as [|d IH]; [reflexivity | exact IH]. Qed.

Lemma closesJs_stops_name rest : closesJs rest = true -> stopsAt isJsIdentChar rest = true.
Proof.
  destruct rest as [|c rest]; simpl; [reflexivity|].
  unfold isJsIdentChar, isIdentChar, isIdentStart, isDigit, isSpace, between.
  rewrite !orb_true_iff, !Nat.eqb_eq. intros H.
  rewrite negb_true_iff, !orb_false_iff, !andb_false_iff, !Nat.leb_gt, !Nat.eqb_neq.
  lia.
Qed.

Lemma closesJs_stops_number v rest :
  closesJs rest = true -> stopsWord (TNumber, v) rest = true.
Proof.
  destruct rest as [|c rest]; simpl; [reflexivity|].
  unfold canFollow, isDigit, isSpace, between. cbn [fst].
  rewrite !orb_true_iff, !Nat.eqb_eq. intros H.
  rewrite andb_true_iff, !negb_true_iff, !andb_false_iff, !Nat.leb_gt, !Nat.eqb_neq.
  lia.
Qed.

Lemma forallb_weaken {A : Type} (p q : A -> bool) l :
  (forall a, p a = true -> q a = true) -> forallb p l = true -> forallb q l = true.
Proof.
  intros Hpq. induction l as [|a l IH]; simpl; [reflexivity|].
  intros H. apply andb_true_iff in H as [Ha Hl]. now rewrite (Hpq a Ha), IH.
Qed.

Lemma jsLex_name x rest :
  isNameText x = true -> stopsAt isJsIdentChar rest = true ->
  jsLexFrom (list_ascii_of_string x ++ rest) 0 = prependWords [JsName x] (jsLexFrom rest 0).
Proof.
  unfold isNameText. intros Hx Hr. pose proof (str_chars x) as Ex.
  destruct (list_ascii_of_string x) as [|c cs]; [discriminate|].
  apply andb_true_iff in Hx as [Hc Hcs].
  cbn [app]. apply jsLexFrom_lexed. unfold scanJs.
  destruct (identStart_not_special c Hc) as (Hsp & _). rewrite Hsp.
  unfold isJsIdentStart. rewrite Hc. cbn [orb].
  assert (Ht : takeWhile isJsIdentChar ((c :: cs) ++ rest) = c :: cs).
  { apply takeWhile_app; [|exact Hr]. cbn [forallb].
    unfold isJsIdentChar at 1. unfold isIdentChar at 1. rewrite Hc. cbn [orb andb].
    apply (forallb_weaken isIdentChar); [|exact Hcs].
    intros a Ha. unfold isJsIdentChar. now rewrite Ha. }
  change (c :: cs ++ rest) with ((c :: cs) ++ rest). now rewrite Ht, Ex.
Qed.

Lemma jsLex_number v rest :
  isNumberText v = true -> closesJs rest = true ->
  jsLexFrom (list_ascii_of_string v ++ rest) 0 = prependWords [JsNumber v] (jsLexFrom rest 0).
Proof.
  intros Hv Hr.
  pose proof (scanNumber_stops v rest Hv (closesJs_stops_number v rest Hr)) as Hscan.
  destruct (numberText_head v Hv) as (c & cs & E & Hc).
  pose proof (str_chars v) as Ev.
  rewrite E in *. cbn [app] in *. apply jsLexFrom_lexed. unfold scanJs.
  assert (H : isSpace c = false /\ isJsIdentStart c = false).
  { unfold isDigit, between in Hc. apply andb_true_iff in Hc as [H1 H2].
    apply Nat.leb_le in H1, H2. unfold isSpace, isJsIdentStart, isIdentStart, between.
    split; rewrite ?orb_false_iff, ?andb_false_iff, ?Nat.leb_gt, ?Nat.eqb_neq; lia. }
  destruct H as [-> ->]. rewrite Hc, Hscan, Ev. reflexivity.
Qed.

Lemma code_char c n : n < 256 -> (code c =? n) = true -> c = ascii_of_nat n.
Proof.
  intros Hn H. apply Nat.eqb_eq in H. unfold code in H.
  rewrite <- H. symmetry. apply ascii_nat_embedding.
Qed.

Lemma eqb_code c n : n < 256 -> (code c =? n) = false -> Ascii.eqb c (ascii_of_nat n) = false.
Proof.
  intros Hn H. apply Ascii.eqb_neq. intros ->. apply Nat.eqb_neq in H. apply H.
  unfold code. now apply nat_ascii_embedding.
Qed.

(** A string value written by [escapeJs] is read back up to the quote
    that closes it, with the value it was written from. *)
Lemma scanString_escaped v rest :
  scanString (ascii_of_nat 34)
             (list_ascii_of_string (escapeJs v) ++ ascii_of_nat 34 :: rest) =
  Some (list_ascii_of_string v, S (List.length (list_ascii_of_string (escapeJs v)))).
Proof.
  induction v as [|c v IH]; [reflexivity|].
  cbn [escapeJs]. cbv zeta. rewrite chars_app, <- app_assoc.
  destruct ((code c =? 34) || (code c =? 92)) eqn:Eq.
  - cbn [list_ascii_of_string app scanString].
    change (Ascii.eqb (ascii_of_nat 92) (ascii_of_nat 34)) with false.
    change (code (ascii_of_nat 92) =? 92) with true. cbv iota.
    rewrite IH. unfold unescape.
    assert (H110 : (code c =? 110) = false).
    { apply orb_true_iff in Eq as [E|E]; apply Nat.eqb_eq in E; apply Nat.eqb_neq; lia. }
    rewrite H110.
    assert (H2 : (code c =? 92) || (code c =? 34) || (code c =? 39) = true).
    { apply orb_true_iff in Eq as [E|E]; rewrite E, ?orb_true_r; reflexivity. }
    rewrite H2. cbn [app List.length]. rewrite ?length_app. reflexivity.
  - apply orb_false_iff in Eq as [E34 E92].
    destruct (code c =? 10) eqn:E10.
    + cbn [list_ascii_of_string app scanString].
      change (Ascii.eqb (ascii_of_nat 92) (ascii_of_nat 34)) with false.
      change (code (ascii_of_nat 92) =? 92) with true. cbv iota.
      rewrite IH. rewrite (code_char c 10) by (auto; lia).
      cbn [app List.length]. rewrite ?length_app. reflexivity.
    + cbn [list_ascii_of_string app scanString].
      rewrite (eqb_code c 34) by (auto; lia). rewrite E92, IH.
      cbn [app List.length]. rewrite ?length_app. reflexivity.
Qed.

Lemma jsLex_string v rest :
  jsLexFrom (list_ascii_of_string (quote ++ escapeJs v ++ quote) ++ rest) 0 =
  prependWords [JsString v] (jsLexFrom rest 0).
Proof.
  rewrite !chars_app, <- !app_assoc. cbn [quote list_ascii_of_string app].
  replace (list_ascii_of_string (escapeJs v) ++ ascii_of_nat 34 :: rest)
    with ((list_ascii_of_string (escapeJs v) ++ [ascii_of_nat 34]) ++ rest)
    by (now rewrite <- app_assoc).
  apply jsLexFrom_lexed. rewrite <- app_assoc. cbn [app].
  change (scanJs (ascii_of_nat 34 ::
                  list_ascii_of_string (escapeJs v) ++ ascii_of_nat 34 :: rest))
    with (match scanString (ascii_of_nat 34)
                  (list_ascii_of_string (escapeJs v) ++ ascii_of_nat 34 :: rest) with
          | Some (v, n) => JsLexed (JsString (str v)) (S n)
          | None => JsUnexpected
          end).
  rewrite scanString_escaped, str_chars, length_app. cbn [List.length].
  do 2 f_equal. lia.
Qed.

Lemma jsLex_open rest :
  jsLexFrom (ascii_of_nat 40 :: rest) 0 = prependWords [JsPunct "("] (jsLexFrom rest 0).
Proof.
  apply (jsLexFrom_lexed (ascii_of_nat 40) [] rest).
  destruct rest as [|d rest]; [reflexivity|].
  unfold scanJs, startsJsComment, operator2. cbn. now rewrite andb_false_r.
Qed.

Lemma jsLex_close rest :
  jsLexFrom (ascii_of_nat 41 :: rest) 0 = prependWords [JsPunct ")"] (jsLexFrom rest 0).
Proof.
  apply (jsLexFrom_lexed (ascii_of_nat 41) [] rest).
  destruct rest as [|d rest]; [reflexivity|].
  unfold scanJs, startsJsComment, operator2. cbn. now rewrite andb_false_r.
Qed.

Lemma jsLex_operator op rest :
  jsLexFrom (blank :: list_ascii_of_string (opText op) ++ blank :: rest) 0 =
  prependWords [JsPunct (opText op)] (jsLexFrom rest 0).
Proof. destruct op; cbn; now destruct (jsLexFrom rest 0). Qed.

(** The text of a generated expression is read as its words. *)
Lemma jsLex_expression e :
  expressionOk e = true ->
  forall rest, closesJs rest = true ->
    jsLexFrom (list_ascii_of_string (generateExpression e) ++ rest) 0 =
    prependWords (expressionWords e) (jsLexFrom rest 0).
Proof.
  induction e as [v|v|x|op l IHl r IHr]; intros He rest Hr; cbn [expressionOk] in He.
  - now apply jsLex_number.
  - apply jsLex_string.
  - apply jsLex_name; [exact He | now apply closesJs_stops_name].
  - apply andb_true_iff in He as [Hl Hr'].
    cbn [generateExpression expressionWords].
    rewrite !chars_app, <- !app_assoc. cbn [list_ascii_of_string app].
    rewrite jsLex_open. rewrite IHl by (auto; reflexivity).
    change (ascii_of_nat 32) with blank. rewrite jsLex_operator.
    rewrite IHr by (auto; reflexivity). rewrite jsLex_close.
    rewrite !prependWords_app. cbn [app]. rewrite <- !app_assoc. reflexivity.
Qed.

(** *** The fixed pieces of an output statement *)

Lemma jsLex_let X :
  jsLexFrom (list_ascii_of_string "let " ++ X) 0 = prependWords [JsName "let"] (jsLexFrom X 0).
Proof. cbn. now destruct (jsLexFrom X 0). Qed.

Lemma jsLex_assign X :
  jsLexFrom (list_ascii_of_string " = " ++ X) 0 = prependWords [JsPunct "="] (jsLexFrom X 0).
Proof. cbn. now destruct (jsLexFrom X 0). Qed.

Lemma jsLex_semicolon X :
  jsLexFrom (list_ascii_of_string ";" ++ list_ascii_of_string nl ++ X) 0 =
  prependWords [JsPunct ";"] (jsLexFrom X 0).
Proof. cbn. now destruct (jsLexFrom X 0). Qed.

Lemma jsLex_console X :
  jsLexFrom (list_ascii_of_string "console.log(" ++ X) 0 =
  prependWords [JsName "console"; JsPunct "."; JsName "log"; JsPunct "("] (jsLexFrom X 0).
Proof.
  change (list_ascii_of_string "console.log(" ++ X)
    with (list_ascii_of_string "console" ++ ascii_of_nat 46 ::
          list_ascii_of_string "log" ++ ascii_of_nat 40 :: X).
  rewrite jsLex_name by reflexivity.
  replace (jsLexFrom (ascii_of_nat 46 :: list_ascii_of_string "log" ++ ascii_of_nat 40 :: X) 0)
    with (prependWords [JsPunct "."]
            (jsLexFrom (list_ascii_of_string "log" ++ ascii_of_nat 40 :: X) 0))
    by (symmetry; apply (jsLexFrom_lexed (ascii_of_nat 46) []); reflexivity).
  rewrite jsLex_name by reflexivity. rewrite jsLex_open.
  now rewrite !prependWords_app.
Qed.

Lemma jsLex_log_end X :
  jsLexFrom (list_ascii_of_string ");" ++ list_ascii_of_string nl ++ X) 0 =
  prependWords [JsPunct ")"; JsPunct ";"] (jsLexFrom X 0).
Proof. cbn. now destruct (jsLexFrom X 0). Qed.

Lemma jsLex_if X :
  jsLexFrom (list_ascii_of_string "if (" ++ X) 0 =
  prependWords [JsName "if"; JsPunct "("] (jsLexFrom X 0).
Proof.
  change (list_ascii_of_string "if (" ++ X)
    with (list_ascii_of_string "if" ++ blank :: ascii_of_nat 40 :: X).
  rewrite jsLex_name by reflexivity. rewrite jsLex_space by reflexivity.
  rewrite jsLex_open. now rewrite prependWords_app.
Qed.

Lemma jsLex_while X :
  jsLexFrom (list_ascii_of_string "while (" ++ X) 0 =
  prependWords [JsName "while"; JsPunct "("] (jsLexFrom X 0).
Proof.
  change (list_ascii_of_string "while (" ++ X)
    with (list_ascii_of_string "while" ++ blank :: ascii_of_nat 40 :: X).
  rewrite jsLex_name by reflexivity. rewrite jsLex_space by reflexivity.
  rewrite jsLex_open. now rewrite prependWords_app.
Qed.

Lemma jsLex_then X :
  jsLexFrom (list_ascii_of_string ") {" ++ list_ascii_of_string nl ++ X) 0 =
  prependWords [JsPunct ")"; JsPunct "{"] (jsLexFrom X 0).
Proof. cbn. now destruct (jsLexFrom X 0). Qed.

Lemma jsLex_else X :
  jsLexFrom (list_ascii_of_string "} else {" ++ list_ascii_of_string nl ++ X) 0 =
  prependWords [JsPunct "}"; JsName "else"; JsPunct "{"] (jsLexFrom X 0).
Proof. cbn. now destruct (jsLexFrom X 0). Qed.

Lemma jsLex_end X :
  jsLexFrom (list_ascii_of_string "}" ++ list_ascii_of_string nl ++ X) 0 =
  prependWords [JsPunct "}"] (jsLexFrom X 0).
Proof. cbn. now destruct (jsLexFrom X 0). Qed.

Lemma jsLex_begin X :
  jsLexFrom (list_ascii_of_string "{" ++ list_ascii_of_string nl ++ X) 0 =
  prependWords [JsPunct "{"] (jsLexFrom X 0).
Proof. cbn. now destruct (jsLexFrom X 0). Qed.

(** *** The statements, one case of the generator at a time *)

Lemma generateStatement_if d c thenB elseB :
  generateStatement d (IfStatement c thenB elseB) =
  let (t, d1) := generateBlock d thenB in
  match elseB with
  | Some b => let (el, d2) := generateBlock d1 b in (JsIf c t (Some el), d2)
  | None => (JsIf c t None, d1)
  end.
Proof. reflexivity. Qed.

Lemma generateStatement_while d c body :
  generateStatement d (WhileStatement c body) =
  let (b, d1) := generateBlock d body in (JsWhile c b, d1).
Proof. reflexivity. Qed.

Lemma generateStatement_block d ss :
  generateStatement d (Block ss) =
  let (b, d1) := generateBlock d ss in (JsBlock b, d1).
Proof. reflexivity. Qed.

Lemma emitStatement_if depth c t e :
  emitStatement depth (JsIf c t e) =
  (indentation depth ++ "if (" ++ generateExpression c ++ ") {" ++ nl ++
   emitBlock (S depth) t ++
   match e with
   | Some b => indentation depth ++ "} else {" ++ nl ++ emitBlock (S depth) b
   | None => EmptyString
   end ++
   indentation depth ++ "}" ++ nl)%string.
Proof. destruct e; reflexivity. Qed.

Lemma emitStatement_while depth c body :
  emitStatement depth (JsWhile c body) =
  (indentation depth ++ "while (" ++ generateExpression c ++ ") {" ++ nl ++
   emitBlock (S depth) body ++ indentation depth ++ "}" ++ nl)%string.
Proof. reflexivity. Qed.

Lemma emitStatement_block depth body :
  emitStatement depth (JsBlock body) =
  (indentation depth ++ "{" ++ nl ++ emitBlock (S depth) body ++
   indentation depth ++ "}" ++ nl)%string.
Proof. reflexivity. Qed.

Lemma statementWords_if c t e :
  statementWords (JsIf c t e) =
  JsName "if" :: JsPunct "(" :: expressionWords c ++ JsPunct ")" :: JsPunct "{" ::
  blockWords t ++
  match e with
  | Some b => JsPunct "}" :: JsName "else" :: JsPunct "{" :: blockWords b
  | None => []
  end ++ [JsPunct "}"].
Proof. destruct e; reflexivity. Qed.

Lemma statementWords_while c body :
  statementWords (JsWhile c body) =
  JsName "while" :: JsPunct "(" :: expressionWords c ++ JsPunct ")" :: JsPunct "{" ::
  blockWords body ++ [JsPunct "}"].
Proof. reflexivity. Qed.

Lemma statementWords_block body :
  statementWords (JsBlock body) = JsPunct "{" :: blockWords body ++ [JsPunct "}"].
Proof. reflexivity. Qed.

Lemma statementOk_while c body :
  statementOk (WhileStatement c body) = expressionOk c && programOk body.
Proof. reflexivity. Qed.

Lemma statementOk_block ss : statementOk (Block ss) = programOk ss.
Proof. reflexivity. Qed.

Ltac lex_pieces :=
  rewrite ?chars_app, <- ?app_assoc;
  rewrite ?jsLex_blanks by apply indentation_blank.

(** The text of the output of a program is read as the words of its
    statements. *)
Lemma jsLex_program :
  forall ss, programOk ss = true ->
    forall d depth rest,
      jsLexFrom (list_ascii_of_string (emitBlock depth (fst (generateBlock d ss))) ++ rest) 0 =
      prependWords (blockWords (fst (generateBlock d ss))) (jsLexFrom rest 0).
Proof.
  apply (statements_ind2
    (fun s => statementOk s = true ->
       forall d depth rest,
         jsLexFrom (list_ascii_of_string
                      (emitStatement depth (fst (generateStatement d s))) ++ rest) 0 =
         prependWords (statementWords (fst (generateStatement d s))) (jsLexFrom rest 0))
    (fun ss => programOk ss = true ->
       forall d depth rest,
         jsLexFrom (list_ascii_of_string
                      (emitBlock depth (fst (generateBlock d ss))) ++ rest) 0 =
         prependWords (blockWords (fst (generateBlock d ss))) (jsLexFrom rest 0))).
  - (* assignment *)
    intros x e Hok d depth rest. cbn [statementOk] in Hok.
    apply andb_true_iff in Hok as [Hx He].
    cbn [generateStatement]. destruct (isDeclared x d); cbn [fst emitStatement statementWords].
    + lex_pieces. rewrite jsLex_name by (auto; reflexivity).
      rewrite jsLex_assign. rewrite jsLex_expression by (auto; reflexivity).
      rewrite jsLex_semicolon. rewrite !prependWords_app. reflexivity.
    + lex_pieces. rewrite jsLex_let. rewrite jsLex_name by (auto; reflexivity).
      rewrite jsLex_assign. rewrite jsLex_expression by (auto; reflexivity).
      rewrite jsLex_semicolon. rewrite !prependWords_app. reflexivity.
  - (* echo *)
    intros e Hok d depth rest. cbn [statementOk] in Hok.
    cbn [generateStatement fst emitStatement statementWords].
    lex_pieces. rewrite jsLex_console. rewrite jsLex_expression by (auto; reflexivity).
    rewrite jsLex_log_end. rewrite !prependWords_app. reflexivity.
  - (* if *)
    intros c thenB elseB IHt IHe Hok d depth rest.
    rewrite statementOk_if in Hok. apply andb_true_iff in Hok as [Hok Helse].
    apply andb_true_iff in Hok as [Hc Hthen].
    rewrite generateStatement_if.
    specialize (IHt Hthen d (S depth)).
    destruct (generateBlock d thenB) as [t d1]. cbn [fst] in IHt.
    destruct elseB as [b|].
    + specialize (IHe Helse d1 (S depth)).
      destruct (generateBlock d1 b) as [el d2]. cbn [fst] in *.
      rewrite emitStatement_if, statementWords_if.
      lex_pieces. rewrite jsLex_if. rewrite jsLex_expression by (auto; reflexivity).
      rewrite jsLex_then, IHt. lex_pieces. rewrite jsLex_else, IHe. lex_pieces.
      rewrite jsLex_end. rewrite !prependWords_app. cbn [app].
      rewrite <- ?app_assoc. reflexivity.
    + cbn [fst]. rewrite emitStatement_if, statementWords_if.
      lex_pieces. rewrite jsLex_if. rewrite jsLex_expression by (auto; reflexivity).
      rewrite jsLex_then, IHt.
      change (list_ascii_of_string EmptyString) with (@nil ascii). cbn [app]. lex_pieces.
      rewrite jsLex_end. rewrite !prependWords_app. cbn [app].
      rewrite <- ?app_assoc. reflexivity.
  - (* while *)
    intros c body IHb Hok d depth rest.
    rewrite statementOk_while in Hok. apply andb_true_iff in Hok as [Hc Hbody].
    rewrite generateStatement_while.
    specialize (IHb Hbody d (S depth)).
    destruct (generateBlock d body) as [b d1]. cbn [fst] in *.
    rewrite emitStatement_while, statementWords_while.
    lex_pieces. rewrite jsLex_while. rewrite jsLex_expression by (auto; reflexivity).
    rewrite jsLex_then, IHb. lex_pieces.
    rewrite jsLex_end. rewrite !prependWords_app. cbn [app].
    rewrite <- ?app_assoc. reflexivity.
  - (* block *)
    intros body IHb Hok d depth rest.
    rewrite statementOk_block in Hok.
    rewrite generateStatement_block.
    specialize (IHb Hok d (S depth)).
    destruct (generateBlock d body) as [b d1]. cbn [fst] in *.
    rewrite emitStatement_block, statementWords_block.
    lex_pieces. rewrite jsLex_begin, IHb. lex_pieces.
    rewrite jsLex_end. rewrite !prependWords_app. cbn [app].
    rewrite <- ?app_assoc. reflexivity.
  - intros _ d depth rest. cbn. now rewrite prependWords_nil.
  - intros s ss IHs IHss Hok d depth rest. cbn [programOk] in Hok.
    apply andb_true_iff in Hok as [Hs Hss].
    cbn [generateBlock].
    specialize (IHs Hs d depth).
    destruct (generateStatement d s) as [j d1]. cbn [fst] in IHs.
    specialize (IHss Hss d1 depth).
    destruct (generateBlock d1 ss) as [js d2]. cbn [fst] in *.
    cbn [emitBlock blockWords].
    rewrite chars_app, <- app_assoc. rewrite IHs, IHss.
    now rewrite prependWords_app.
Qed.

(** ** The generator: declarations (specification sections 4.3, 8, 9) *)

(** *** Counting the declarations in the words of the output *)

Lemma letCount_punct x p ws : letCount x (JsPunct p :: ws) = letCount x ws.
Proof. now destruct ws. Qed.

Lemma letCount_number x v ws : letCount x (JsNumber v :: ws) = letCount x ws.
Proof. now destruct ws. Qed.

Lemma letCount_string x v ws : letCount x (JsString v :: ws) = letCount x ws.
Proof. now destruct ws. Qed.

Lemma letCount_name_punct x y p ws :
  letCount x (JsName y :: JsPunct p :: ws) = letCount x ws.
Proof.
  change (letCount x (JsName y :: JsPunct p :: ws))
    with ((if isLet x (JsName y) (JsPunct p) then 1 else 0) + letCount x (JsPunct p :: ws)).
  rewrite letCount_punct. reflexivity.
Qed.

Lemma letCount_let x y ws :
  letCount x (JsName "let" :: JsName y :: JsPunct "=" :: ws) =
  (if String.eqb x y then 1 else 0) + letCount x ws.
Proof.
  change (letCount x (JsName "let" :: JsName y :: JsPunct "=" :: ws))
    with ((if isLet x (JsName "let") (JsName y) then 1 else 0) +
          letCount x (JsName y :: JsPunct "=" :: ws)).
  rewrite letCount_name_punct. reflexivity.
Qed.

(** An expression declares nothing. *)
Lemma letCount_expression x e :
  forall p rest,
    letCount x (expressionWords e ++ JsPunct p :: rest) = letCount x rest.
Proof.
  induction e as [v|v|y|op l IHl r IHr]; intros p rest; cbn [expressionWords app].
  - now rewrite letCount_number, letCount_punct.
  - now rewrite letCount_string, letCount_punct.
  - now rewrite letCount_name_punct.
  - rewrite letCount_punct. repeat (rewrite <- app_assoc; cbn [app]).
    now rewrite IHl, IHr, letCount_punct.
Qed.

Lemma declaresNew_sum x d d1 a b :
  isDeclared x d1 = isDeclared x d || (0 <? a) ->
  declaresNew x d a + declaresNew x d1 b = declaresNew x d (a + b).
Proof.
  unfold declaresNew. intros ->.
  destruct (isDeclared x d); cbn [orb]; [reflexivity|].
  destruct a as [|a]; cbn [Nat.ltb Nat.leb orb Nat.add]; [reflexivity|].
  reflexivity.
Qed.

Lemma declared_sum (D : bool) a b :
  (D || (0 <? a)) || (0 <? b) = D || (0 <? a + b).
Proof.
  destruct D; cbn [orb]; [reflexivity|].
  destruct a as [|a]; cbn [Nat.ltb Nat.leb orb Nat.add]; reflexivity.
Qed.

Lemma assignmentsIn_if x c thenB elseB :
  assignmentsIn x (IfStatement c thenB elseB) =
  assignments x thenB + match elseB with Some b => assignments x b | None => 0 end.
Proof. reflexivity. Qed.

Lemma assignmentsIn_while x c body :
  assignmentsIn x (WhileStatement c body) = assignments x body.
Proof. reflexivity. Qed.

Lemma assignmentsIn_block x ss : assignmentsIn x (Block ss) = assignments x ss.
Proof. reflexivity. Qed.

(** The words of the output of a block hold one declaration of [x] if
    the block assigns to [x] and [x] was not declared before it, and
    none otherwise; after the block, [x] is declared if it was before or
    the block assigns to it. *)
Lemma letCount_program x :
  forall ss d rest,
    letCount x (blockWords (fst (generateBlock d ss)) ++ rest) =
      declaresNew x d (assignments x ss) + letCount x rest /\
    isDeclared x (snd (generateBlock d ss)) = isDeclared x d || (0 <? assignments x ss).
Proof.
  apply (statements_ind2
    (fun s => forall d rest,
       letCount x (statementWords (fst (generateStatement d s)) ++ rest) =
         declaresNew x d (assignmentsIn x s) + letCount x rest /\
       isDeclared x (snd (generateStatement d s)) =
         isDeclared x d || (0 <? assignmentsIn x s))
    (fun ss => forall d rest,
       letCount x (blockWords (fst (generateBlock d ss)) ++ rest) =
         declaresNew x d (assignments x ss) + letCount x rest /\
       isDeclared x (snd (generateBlock d ss)) =
         isDeclared x d || (0 <? assignments x ss))).
  - (* assignment *)
    intros y e d rest. cbn [generateStatement assignmentsIn]. unfold declaresNew.
    destruct (isDeclared y d) eqn:Hy; cbn [fst snd statementWords app].
    + repeat (rewrite <- app_assoc; cbn [app]).
      rewrite letCount_name_punct, letCount_expression.
      destruct (String.eqb x y) eqn:E.
      * apply String.eqb_eq in E. subst y. rewrite Hy. now split.
      * cbn. rewrite orb_false_r. split; [now destruct (isDeclared x d)|reflexivity].
    + repeat (rewrite <- app_assoc; cbn [app]).
      rewrite letCount_let, letCount_expression.
      change (isDeclared x (y :: d)) with (String.eqb x y || isDeclared x d).
      destruct (String.eqb x y) eqn:E.
      * apply String.eqb_eq in E. subst y. rewrite Hy. now split.
      * cbn. rewrite orb_false_r. split; [now destruct (isDeclared x d)|reflexivity].
  - (* echo *)
    intros e d rest. cbn [generateStatement assignmentsIn fst snd statementWords app].
    unfold declaresNew. repeat (rewrite <- app_assoc; cbn [app]).
    rewrite letCount_name_punct.
    change (JsName "log" :: JsPunct "(" :: expressionWords e ++ JsPunct ")" :: JsPunct ";" :: rest)
      with (JsName "log" :: JsPunct "(" :: (expressionWords e ++ JsPunct ")" :: JsPunct ";" :: rest)).
    rewrite letCount_name_punct, letCount_expression, letCount_punct.
    cbn. rewrite orb_false_r. split; [now destruct (isDeclared x d)|reflexivity].
  - (* if *)
    intros c thenB elseB IHt IHe d rest.
    rewrite generateStatement_if, assignmentsIn_if.
    pose proof (IHt d) as Ht.
    destruct (generateBlock d thenB) as [t d1]. cbn [fst snd] in Ht.
    destruct elseB as [b|].
    + pose proof (IHe d1) as He.
      destruct (generateBlock d1 b) as [el d2]. cbn [fst snd] in *.
      rewrite statementWords_if. cbn [app]. repeat (rewrite <- app_assoc; cbn [app]).
      rewrite letCount_name_punct, letCount_expression, letCount_punct.
      rewrite (proj1 (Ht _)), letCount_punct. cbn [app].
      rewrite letCount_name_punct.
      rewrite (proj1 (He _)), letCount_punct.
      rewrite (proj2 (He rest)), (proj2 (Ht rest)).
      split; [|apply declared_sum].
      rewrite Nat.add_assoc. f_equal. apply declaresNew_sum. apply (proj2 (Ht rest)).
    + cbn [fst snd]. rewrite statementWords_if. cbn [app]. repeat (rewrite <- app_assoc; cbn [app]).
      rewrite letCount_name_punct, letCount_expression, letCount_punct.
      rewrite (proj1 (Ht _)), letCount_punct. rewrite Nat.add_0_r.
      split; [reflexivity|apply (proj2 (Ht rest))].
  - (* while *)
    intros c body IHb d rest.
    rewrite generateStatement_while, assignmentsIn_while.
    pose proof (IHb d) as Hb.
    destruct (generateBlock d body) as [b d1]. cbn [fst snd] in *.
    rewrite statementWords_while. cbn [app]. repeat (rewrite <- app_assoc; cbn [app]).
    rewrite letCount_name_punct, letCount_expression, letCount_punct.
    rewrite (proj1 (Hb _)), letCount_punct.
    split; [reflexivity|apply (proj2 (Hb rest))].
  - (* block *)
    intros body IHb d rest.
    rewrite generateStatement_block, assignmentsIn_block.
    pose proof (IHb d) as Hb.
    destruct (generateBlock d body) as [b d1]. cbn [fst snd] in *.
    rewrite statementWords_block. cbn [app]. repeat (rewrite <- app_assoc; cbn [app]).
    rewrite letCount_punct.
    rewrite (proj1 (Hb _)), letCount_punct.
    split; [reflexivity|apply (proj2 (Hb rest))].
  - intros d rest. cbn. unfold declaresNew. cbn.
    rewrite orb_false_r. split; [now destruct (isDeclared x d)|reflexivity].
  - intros s ss IHs IHss d rest.
    cbn [generateBlock].
    change (assignments x (s :: ss)) with (assignmentsIn x s + assignments x ss).
    pose proof (IHs d) as Hs.
    destruct (generateStatement d s) as [j d1]. cbn [fst snd] in Hs.
    pose proof (IHss d1) as Hss.
    destruct (generateBlock d1 ss) as [js d2]. cbn [fst snd] in *.
    change (blockWords (j :: js)) with (statementWords j ++ blockWords js).
    rewrite <- app_assoc.
    rewrite (proj1 (Hs _)), (proj1 (Hss _)).
    rewrite (proj2 (Hss rest)), (proj2 (Hs rest)).
    split; [|apply declared_sum].
    rewrite Nat.add_assoc. f_equal. apply declaresNew_sum. apply (proj2 (Hs rest)).
Qed.

(** *** Where a name occurs first in the words of the output *)

Lemma find_app {A : Type} (p : A -> bool) (a b : list A) :
  find p (a ++ b) = match find p a with Some m => Some m | None => find p b end.
Proof.
  induction a as [|m a IH]; [reflexivity|]. cbn [app find].
  destruct (p m); [reflexivity|exact IH].
Qed.

Lemma noName_app x a b : noName x (a ++ b) = noName x a && noName x b.
Proof. apply forallb_app. Qed.

Lemma declaredFirstAfter_skip x a :
  noName x a = true ->
  forall previous rest,
    exists previous', declaredFirstAfter x previous (a ++ rest) =
                      declaredFirstAfter x previous' rest.
Proof.
  induction a as [|w a IH]; intros Ha previous rest.
  - now exists previous.
  - cbn [noName forallb] in Ha. apply andb_true_iff in Ha as [Hw Ha].
    apply negb_true_iff in Hw. cbn [app declaredFirstAfter]. rewrite Hw.
    apply (IH Ha).
Qed.

Lemma leads_seq x ms1 ms2 w1 w2 (E1 E2 : Prop) :
  leads x (find (mentionsName x) ms1) w1 E1 ->
  (E1 -> leads x (find (mentionsName x) ms2) w2 E2) ->
  leads x (find (mentionsName x) (ms1 ++ ms2)) (w1 ++ w2) E2.
Proof.
  intros H1 H2. rewrite find_app.
  destruct (find (mentionsName x) ms1) as [[y|y]|]; cbn [leads] in *.
  - intros previous rest. rewrite <- app_assoc. apply H1.
  - exact I.
  - destruct H1 as [Hw1 HE1]. specialize (H2 HE1).
    destruct (find (mentionsName x) ms2) as [[y|y]|]; cbn [leads] in *.
    + intros previous rest. rewrite <- app_assoc.
      destruct (declaredFirstAfter_skip x w1 Hw1 previous (w2 ++ rest)) as [p' ->].
      apply H2.
    + exact I.
    + destruct H2 as [Hw2 HE2]. split; [|exact HE2].
      now rewrite noName_app, Hw1, Hw2.
Qed.

Lemma leads_before x first w0 w (E : Prop) :
  noName x w0 = true -> leads x first w E -> leads x first (w0 ++ w) E.
Proof.
  intros H0 H. destruct first as [[y|y]|]; cbn [leads] in *.
  - intros previous rest. rewrite <- app_assoc.
    destruct (declaredFirstAfter_skip x w0 H0 previous (w ++ rest)) as [p' ->].
    apply H.
  - exact I.
  - destruct H as [Hw HE]. split; [|exact HE]. now rewrite noName_app, H0, Hw.
Qed.

Lemma leads_after x first w0 w (E : Prop) :
  noName x w0 = true -> leads x first w E -> leads x first (w ++ w0) E.
Proof.
  intros H0 H. destruct first as [[y|y]|]; cbn [leads] in *.
  - intros previous rest. rewrite <- app_assoc. apply H.
  - exact I.
  - destruct H as [Hw HE]. split; [|exact HE]. now rewrite noName_app, H0, Hw.
Qed.

Lemma leads_weaken x first w (E E' : Prop) :
  (E -> E') -> leads x first w E -> leads x first w E'.
Proof.
  intros HE H. destruct first as [[y|y]|]; cbn [leads] in *; [exact H|exact I|].
  destruct H as [Hw H]. split; [exact Hw|]. now apply HE.
Qed.

Lemma readsOf_binary op l r : readsOf (BinaryOp op l r) = readsOf l ++ readsOf r.
Proof. unfold readsOf. cbn [variablesOf]. apply map_app. Qed.

(** The words of an expression: its variables are read, never
    written. *)
Lemma leads_reads x e (E : Prop) :
  E -> leads x (find (mentionsName x) (readsOf e)) (expressionWords e) E.
Proof.
  intros HE. induction e as [v|v|y|op l IHl r IHr].
  - cbn. now split.
  - cbn. now split.
  - cbn [readsOf variablesOf map find mentionsName expressionWords].
    destruct (String.eqb x y) eqn:Exy; cbn [leads]; [exact I|].
    split; [|exact HE]. cbn [noName forallb isName]. now rewrite Exy.
  - rewrite readsOf_binary. cbn [expressionWords].
    change (JsPunct "(" :: expressionWords l ++ JsPunct (opText op) :: expressionWords r ++
            [JsPunct ")"])
      with ([JsPunct "("] ++ expressionWords l ++
            ([JsPunct (opText op)] ++ expressionWords r ++ [JsPunct ")"])).
    apply leads_before; [reflexivity|].
    apply (leads_seq x _ _ _ _ E E); [exact IHl|intros _].
    apply leads_before; [reflexivity|].
    apply leads_after; [reflexivity|exact IHr].
Qed.

Lemma generatorWord_names x :
  isGeneratorWord x = false ->
  String.eqb x "let" = false /\ String.eqb x "if" = false /\
  String.eqb x "else" = false /\ String.eqb x "while" = false /\
  String.eqb x "console" = false /\ String.eqb x "log" = false.
Proof.
  unfold isGeneratorWord, generatorWords. cbn [existsb].
  rewrite !orb_false_iff. tauto.
Qed.

Lemma mentionsOf_if c thenB elseB :
  mentionsOf (IfStatement c thenB elseB) =
  readsOf c ++ mentions thenB ++ match elseB with Some b => mentions b | None => [] end.
Proof. reflexivity. Qed.

Lemma mentionsOf_while c body :
  mentionsOf (WhileStatement c body) = readsOf c ++ mentions body.
Proof. reflexivity. Qed.

Lemma mentionsOf_block ss : mentionsOf (Block ss) = mentions ss.
Proof. reflexivity. Qed.

Ltac apart Hx :=
  destruct (generatorWord_names _ Hx) as (Hlet & Hif & Helse & Hwhile & Hconsole & Hlog);
  cbn [noName forallb isName negb andb];
  rewrite ?Hlet, ?Hif, ?Helse, ?Hwhile, ?Hconsole, ?Hlog; reflexivity.

(** In the words of the output of a block in which [x] is not yet
    declared: if the block mentions [x] first as the target of an
    assignment, the first occurrence of the name [x] stands right after
    the word [let]; if the block does not mention [x], the name does
    not occur and [x] stays undeclared. *)
Lemma leads_program x :
  isGeneratorWord x = false ->
  forall ss d,
    isDeclared x d = false ->
    leads x (find (mentionsName x) (mentions ss))
      (blockWords (fst (generateBlock d ss)))
      (isDeclared x (snd (generateBlock d ss)) = false).
Proof.
  intros Hx.
  apply (statements_ind2
    (fun s => forall d,
       isDeclared x d = false ->
       leads x (find (mentionsName x) (mentionsOf s))
         (statementWords (fst (generateStatement d s)))
         (isDeclared x (snd (generateStatement d s)) = false))
    (fun ss => forall d,
       isDeclared x d = false ->
       leads x (find (mentionsName x) (mentions ss))
         (blockWords (fst (generateBlock d ss)))
         (isDeclared x (snd (generateBlock d ss)) = false))).
  - (* assignment *)
    intros y e d Hd. cbn [mentionsOf find mentionsName generateStatement].
    destruct (String.eqb x y) eqn:Exy.
    + apply String.eqb_eq in Exy. subst y. rewrite Hd.
      cbn [fst statementWords leads]. intros previous rest.
      destruct (generatorWord_names _ Hx) as (Hlet & _).
      cbn [app declaredFirstAfter isName]. rewrite Hlet, String.eqb_refl.
      reflexivity.
    + destruct (isDeclared y d); cbn [fst snd statementWords].
      * change (JsName y :: JsPunct "=" :: expressionWords e ++ [JsPunct ";"])
          with ([JsName y; JsPunct "="] ++ expressionWords e ++ [JsPunct ";"]).
        apply leads_before; [cbn [noName forallb isName]; now rewrite Exy|].
        apply leads_after; [reflexivity|]. now apply leads_reads.
      * change (JsName "let" :: JsName y :: JsPunct "=" :: expressionWords e ++ [JsPunct ";"])
          with ([JsName "let"; JsName y; JsPunct "="] ++ expressionWords e ++ [JsPunct ";"]).
        destruct (generatorWord_names _ Hx) as (Hlet & _).
        apply leads_before; [cbn [noName forallb isName]; now rewrite Hlet, Exy|].
        apply leads_after; [reflexivity|]. apply leads_reads.
        change (isDeclared x (y :: d)) with (String.eqb x y || isDeclared x d).
        now rewrite Exy, Hd.
  - (* echo *)
    intros e d Hd. cbn [mentionsOf generateStatement fst snd statementWords].
    change (JsName "console" :: JsPunct "." :: JsName "log" :: JsPunct "(" ::
            expressionWords e ++ [JsPunct ")"; JsPunct ";"])
      with ([JsName "console"; JsPunct "."; JsName "log"; JsPunct "("] ++
            expressionWords e ++ [JsPunct ")"; JsPunct ";"]).
    apply leads_before; [apart Hx|].
    apply leads_after; [reflexivity|]. now apply leads_reads.
  - (* if *)
    intros c thenB elseB IHt IHe d Hd.
    rewrite generateStatement_if, mentionsOf_if.
    specialize (IHt d Hd).
    destruct (generateBlock d thenB) as [t d1]. cbn [fst snd] in IHt.
    destruct elseB as [b|].
    + assert (He : isDeclared x d1 = false ->
                   leads x (find (mentionsName x) (mentions b))
                     (blockWords (fst (generateBlock d1 b)))
                     (isDeclared x (snd (generateBlock d1 b)) = false))
        by (intros H1; now apply IHe).
      destruct (generateBlock d1 b) as [el d2]. cbn [fst snd] in *.
      rewrite statementWords_if.
      change (JsName "if" :: JsPunct "(" :: expressionWords c ++ JsPunct ")" :: JsPunct "{" ::
              blockWords t ++
              (JsPunct "}" :: JsName "else" :: JsPunct "{" :: blockWords el) ++ [JsPunct "}"])
        with ([JsName "if"; JsPunct "("] ++ expressionWords c ++
              ([JsPunct ")"; JsPunct "{"] ++ blockWords t ++
               (([JsPunct "}"; JsName "else"; JsPunct "{"] ++ blockWords el) ++
                [JsPunct "}"]))).
      apply leads_before; [apart Hx|].
      apply (leads_seq x _ _ _ _ (isDeclared x d = false)); [now apply leads_reads|].
      intros _. apply leads_before; [reflexivity|].
      apply (leads_seq x _ _ _ _ (isDeclared x d1 = false)); [exact IHt|].
      intros H1. apply leads_after; [reflexivity|].
      apply leads_before; [apart Hx|]. now apply He.
    + cbn [fst snd]. rewrite statementWords_if.
      change (JsName "if" :: JsPunct "(" :: expressionWords c ++ JsPunct ")" :: JsPunct "{" ::
              blockWords t ++ [] ++ [JsPunct "}"])
        with ([JsName "if"; JsPunct "("] ++ expressionWords c ++
              ([JsPunct ")"; JsPunct "{"] ++ blockWords t ++ [JsPunct "}"])).
      apply leads_before; [apart Hx|].
      apply (leads_seq x _ _ _ _ (isDeclared x d = false)); [now apply leads_reads|].
      intros _. apply leads_before; [reflexivity|].
      apply (leads_seq x _ [] _ _ (isDeclared x d1 = false)); [exact IHt|].
      intros H1. cbn [find leads]. now split.
  - (* while *)
    intros c body IHb d Hd.
    rewrite generateStatement_while, mentionsOf_while.
    specialize (IHb d Hd).
    destruct (generateBlock d body) as [b d1]. cbn [fst snd] in *.
    rewrite statementWords_while.
    change (JsName "while" :: JsPunct "(" :: expressionWords c ++ JsPunct ")" :: JsPunct "{" ::
            blockWords b ++ [JsPunct "}"])
      with ([JsName "while"; JsPunct "("] ++ expressionWords c ++
            ([JsPunct ")"; JsPunct "{"] ++ blockWords b ++ [JsPunct "}"])).
    apply leads_before; [apart Hx|].
    apply (leads_seq x _ _ _ _ (isDeclared x d = false)); [now apply leads_reads|].
    intros _. apply leads_before; [reflexivity|].
    apply leads_after; [reflexivity|exact IHb].
  - (* block *)
    intros body IHb d Hd.
    rewrite generateStatement_block, mentionsOf_block.
    specialize (IHb d Hd).
    destruct (generateBlock d body) as [b d1]. cbn [fst snd] in *.
    rewrite statementWords_block.
    change (JsPunct "{" :: blockWords b ++ [JsPunct "}"])
      with ([JsPunct "{"] ++ blockWords b ++ [JsPunct "}"]).
    apply leads_before; [reflexivity|]. apply leads_after; [reflexivity|exact IHb].
  - intros d Hd. cbn. now split.
  - intros s ss IHs IHss d Hd.
    cbn [generateBlock].
    change (mentions (s :: ss)) with (mentionsOf s ++ mentions ss).
    specialize (IHs d Hd).
    destruct (generateStatement d s) as [j d1]. cbn [fst snd] in IHs.
    assert (Hss : isDeclared x d1 = false ->
                  leads x (find (mentionsName x) (mentions ss))
                    (blockWords (fst (generateBlock d1 ss)))
                    (isDeclared x (snd (generateBlock d1 ss)) = false))
      by (intros H1; now apply IHss).
    destruct (generateBlock d1 ss) as [js d2]. cbn [fst snd] in *.
    change (blockWords (j :: js)) with (statementWords j ++ blockWords js).
    apply (leads_seq x _ _ _ _ (isDeclared x d1 = false)); [exact IHs|exact Hss].
Qed.

(** *** The output text as a whole *)

(** The reader of JavaScript words accepts every output of the
    generator and reads the words of its statements. *)
Lemma jsWords_generate tokens program :
  forallb tokenOk tokens = true -> parse tokens = Ok program ->
  jsWords (generate program) = Some (blockWords (generateProgram program)).
Proof.
  intros Hts Hp. unfold jsWords, generate, generateProgram.
  rewrite <- (app_nil_r (list_ascii_of_string _)).
  rewrite jsLex_program by (now apply (parse_programOk tokens)).
  cbn [jsLexFrom prependWords option_map]. now rewrite app_nil_r.
Qed.




(** The words the generator writes of its own are left out of C3: in
    the text, a variable of such a name is not told from the
    generator's word, and it occurs before its declaration. *)
Lemma generator_words_occur_before :
  firstMentionOf consoleSource "console" = Some (Writes "console") /\
  transpile consoleSource =
    Ok ("console.log(1);" ++ nl ++ "let console = 1;" ++ nl ++ "console = 2;" ++ nl)%string /\
  declaredOnceAndFirst consoleSource "console" = false /\
  firstMentionOf keywordSource "if" = Some (Writes "if") /\
  declaredOnceAndFirst keywordSource "if" = false.
Proof. repeat split; reflexivity. Qed.

End CoreFacts.

(* ================================================================= *)
(** * Part V: the boundary between the page and the core *)

Module BoundaryFacts.

(** C4. The core answers to one exported name, [transpile], called with
    one text argument, and the answer is the output text or the
    structured error.  On the page, in every run, each call into the
    module is a [ccall] of ["transpile"] with return type ["string"],
    argument types [["string"]] and one argument; and the string a call
    returns becomes the JavaScript output. *)
Theorem single_boundary_operation :
  Core.exports = ["transpile"] /\
  (forall name arguments r,
      Core.callExport name arguments = Some r ->
      name = "transpile" /\
      exists source, arguments = [source] /\ r = Core.transpile source) /\
  (forall (exn : Type) (rev : Page.Revision) (evs : list (Page.Event exn)),
      Forall (Page.isTranspileCall exn) (Page.trace (Page.run rev evs))) /\
  (forall (exn : Type) (php : string) (st : Page.State exn) m result,
      Page.moduleRef st = Some m ->
      Page.ccall m (Page.transpileCall php) = Page.Returns result ->
      Page.jsCode (fst (Page.transpileCallback php st)) = result /\
      snd (Page.transpileCallback php st) = [Page.ModuleCall (Page.transpileCall php)]).
Proof.
  split; [reflexivity|]. split; [|split].
  - intros name arguments r. unfold Core.callExport, Core.exports.
    cbn [existsb]. rewrite orb_false_r.
    destruct (String.eqb name "transpile") eqn:E; [|discriminate].
    apply String.eqb_eq in E.
    destruct arguments as [|source [|]]; try discriminate.
    intros [= <-]. eauto.
  - intros exn rev evs. apply PageFacts.fold_calls. constructor.
  - intros exn php st m result Hm Hc. unfold Page.transpileCallback.
    rewrite Hm, Hc. split; reflexivity.
Qed.

Lemma single_boundary_operation_witness :
  Core.callExport "transpile" ["$a = 1;"] =
    Some (Core.Ok ("let a = 1;" ++ Core.nl)%string) /\
  Core.callExport "tokenize" ["$a = 1;"] = None /\
  Core.callExport "transpile" ["$a = 1;"; "$b = 2;"] = None.
Proof.
  destruct single_boundary_operation as (_ & H & _).
  destruct (H "transpile" ["$a = 1;"] (Core.transpile "$a = 1;") eq_refl)
    as (_ & source & _ & _).
  repeat split; vm_compute; reflexivity.
Defined.

End BoundaryFacts.

(* ================================================================= *)
(** * Part VI: further properties of the editor page *)

Module PageMore.

Import Page.

Section Runs.

Variable exn : Type.
Variable rev : Revision.

Implicit Types (st : State exn) (s : Sys exn) (ev : Event exn).

(** ** Lists of timers *)

Lemma filter_remove_nth {A : Type} (p : A -> bool) (k : nat) (l : list A) (x : A) :
  nth_error l k = Some x ->
  List.length (filter p l) =
  (if p x then 1 else 0) + List.length (filter p (remove_nth k l)).
Proof.
  revert k; induction l as [|y l IH]; intros [|k] H; simpl in *; try discriminate.
  - inversion H; subst. destruct (p x); simpl; lia.
  - specialize (IH k H). destruct (p y), (p x); simpl in *; lia.
Qed.

Lemma existsb_remove_other {A : Type} (p : A -> bool) (k : nat) (l : list A) (x : A) :
  nth_error l k = Some x -> p x = false ->
  existsb p (remove_nth k l) = existsb p l.
Proof.
  revert k; induction l as [|y l IH]; intros [|k] H Hp; simpl in *; try discriminate.
  - inversion H; subst. now rewrite Hp.
  - now rewrite (IH k H Hp).
Qed.

Lemma filter_nth_error {A : Type} (p : A -> bool) (k : nat) (l : list A) (x : A) :
  nth_error l k = Some x -> p x = true -> 0 < List.length (filter p l).
Proof.
  intros H Hp. rewrite (filter_remove_nth p k l x H), Hp. lia.
Qed.

(** ** Runs *)

Lemma run_runFrom (evs : list (Event exn)) : run rev evs = runFrom rev evs initialSys.
Proof. reflexivity. Qed.

Lemma runFrom_invariant (I : Sys exn -> Prop) :
  (forall ev s, I s -> I (dispatch rev ev s)) ->
  forall evs s, I s -> I (runFrom rev evs s).
Proof.
  intros Hstep evs. induction evs as [|ev evs IH]; intros s Hs.
  - exact Hs.
  - apply IH, Hstep, Hs.
Qed.

Lemma run_invariant (I : Sys exn -> Prop) :
  I initialSys ->
  (forall ev s, I s -> I (dispatch rev ev s)) ->
  forall evs, I (run rev evs).
Proof. intros H0 Hstep evs. exact (runFrom_invariant I Hstep evs initialSys H0). Qed.

Lemma runFrom_app (evs more : list (Event exn)) s :
  runFrom rev (evs ++ more) s = runFrom rev more (runFrom rev evs s).
Proof. apply fold_left_app. Qed.

(** ** The handlers, case by case *)

Lemma runTranspile_cases st :
  (moduleRef st = None /\ runTranspile st = (st, [Alert "WASM not loaded yet"])) \/
  (exists m, moduleRef st = Some m /\
     runTranspile st =
       (setConverting true st, [SetTimeout (TranspileCallback (phpCode st)) 300])).
Proof.
  unfold runTranspile. destruct (moduleRef st) as [m|]; [right; eauto | left; auto].
Qed.

Lemma transpileCallback_cases php st :
  (moduleRef st = None /\
   transpileCallback php st =
     (setConverting false (setJsCode "// transpile error" st),
      [ConsoleError NullDeref])) \/
  (exists m, moduleRef st = Some m /\
     ((exists result,
         ccall m (transpileCall php) = Returns result /\
         transpileCallback php st =
           (setConverting false (setJsCode result st),
            [ModuleCall (transpileCall php)])) \/
      (exists err,
         ccall m (transpileCall php) = Throws err /\
         transpileCallback php st =
           (setConverting false (setJsCode "// transpile error" st),
            [ModuleCall (transpileCall php); ConsoleError (ModuleThrew err)])))).
Proof.
  unfold transpileCallback. destruct (moduleRef st) as [m|]; [right | left; auto].
  exists m. split; [reflexivity|].
  destruct (ccall m (transpileCall php)) as [result|err]; [left | right]; eauto.
Qed.

Lemma transpileCallback_state php st :
  fst (transpileCallback php st) =
  setConverting false
    (setJsCode match moduleRef st with
               | Some m => conversionOutput m php
               | None => "// transpile error"
               end st).
Proof.
  unfold transpileCallback, conversionOutput.
  destruct (moduleRef st) as [m|]; [|reflexivity].
  destruct (ccall m (transpileCall php)); reflexivity.
Qed.

(** One event, split into the cases of the handler it runs.  The cases
    come in the order of the constructors of [Event]; a guarded click
    gives the disabled case first, a conversion timer gives the null
    reference, the returning call and the throwing call. *)
Ltac by_event ev s :=
  let m := fresh "m" in
  let php := fresh "php" in
  let k := fresh "k" in
  let v := fresh "v" in
  let result := fresh "result" in
  let err := fresh "err" in
  let Hcopy := fresh "Hcopy" in
  let Hconv := fresh "Hconv" in
  let Hm := fresh "Hm" in
  let Hrun := fresh "Hrun" in
  let Hk := fresh "Hk" in
  let Hcall := fresh "Hcall" in
  destruct ev as [ | m | | | v | | | | | | | k]; simpl;
  [ | | | |
  | destruct rev
  | destruct rev
  | destruct (copyDisabled (ui s)) eqn:Hcopy; [|destruct rev]
  | destruct (convertDisabled (ui s)) eqn:Hconv;
    [|destruct (runTranspile_cases (ui s)) as [[Hm Hrun]|[m [Hm Hrun]]]; rewrite Hrun]
  | destruct rev
  | destruct rev
  | destruct (nth_error (timers s) k) as [[php|]|] eqn:Hk;
    [ cbn [runCallback];
      destruct (transpileCallback_cases php (ui s))
        as [[Hm Hrun]|[m [Hm [[result [Hcall Hrun]]|[err [Hcall Hrun]]]]]];
      rewrite Hrun
    | | ] ];
  unfold perform, loadSample, loadSample_part000, clearAll, clearAll_part000,
    copyToClipboard, copyToClipboard_part000, showToast;
  cbn [fst snd ui timers trace scheduled flat_map app runCallback].

Lemma dispatch_moduleRef ev s :
  moduleRef (ui (dispatch rev ev s)) =
  match ev with
  | ModuleResolved m => Some m
  | _ => moduleRef (ui s)
  end.
Proof. by_event ev s; reflexivity. Qed.

Lemma dispatch_loading ev s :
  loading (ui (dispatch rev ev s)) = if endsLoading ev then false else loading (ui s).
Proof. by_event ev s; reflexivity. Qed.


(** ** States the page reaches *)

Lemma dispatch_wellFormed ev s : wellFormed s -> wellFormed (dispatch rev ev s).
Proof.
  unfold wellFormed, pendingConversions. intros (Hp & Hc & Hl).
  by_event ev s; cbn;
    rewrite ?filter_app, ?length_app, ?app_nil_r; cbn;
    rewrite ?Nat.add_0_r;
    try (unfold convertDisabled in Hconv; apply orb_false_iff in Hconv as [Hload Hcv]);
    try (pose proof (filter_remove_nth isTranspileCallback _ _ _ Hk) as Hf;
         cbn in Hf);
    try (destruct (converting (ui s)) eqn:E; [|lia]);
    repeat match goal with
           | |- _ /\ _ => split
           | |- _ -> _ => intro
           end;
    try assumption; try discriminate; try reflexivity; try lia; try congruence;
    try (apply Hc; reflexivity); try (apply Hc; assumption);
    try (rewrite Hcv in Hp; lia);
    try (exfalso; apply Hc; [reflexivity | assumption]);
    try (match goal with
         | H : loading _ = true |- _ => destruct (Hl H) as (? & ? & ?)
         end; try assumption; try discriminate; try congruence).
Qed.

Lemma initial_wellFormed : wellFormed (initialSys (exn:=exn)).
Proof.
  unfold wellFormed. cbn. split; [reflexivity|]. split; [discriminate | auto].
Qed.

Lemma run_wellFormed (evs : list (Event exn)) : wellFormed (run rev evs).
Proof. apply run_invariant; [apply initial_wellFormed | apply dispatch_wellFormed]. Qed.


Lemma runFrom_invariant_without (bad : Event exn -> bool) (I : Sys exn -> Prop) :
  (forall ev s, bad ev = false -> I s -> I (dispatch rev ev s)) ->
  forall evs s, existsb bad evs = false -> I s -> I (runFrom rev evs s).
Proof.
  intros Hstep evs. induction evs as [|ev evs IH]; intros s Hok Hs.
  - exact Hs.
  - cbn in Hok. apply orb_false_iff in Hok as [Hev Hok].
    apply IH; [exact Hok | apply Hstep; assumption].
Qed.

Lemma run_invariant_wf (I : Sys exn -> Prop) :
  I initialSys ->
  (forall ev s, wellFormed s -> I s -> I (dispatch rev ev s)) ->
  forall evs, I (run rev evs).
Proof.
  intros H0 Hstep evs.
  apply (run_invariant (fun s => wellFormed s /\ I s)).
  - split; [apply initial_wellFormed | exact H0].
  - intros ev s [Hw Hi]. split; [now apply dispatch_wellFormed | now apply Hstep].
Qed.

(** A conversion timer cannot fire where none is pending. *)
Lemma pending_timer k php s :
  nth_error (timers s) k = Some (TranspileCallback php) -> 0 < pendingConversions s.
Proof.
  intros Hk. unfold pendingConversions.
  now apply (filter_nth_error isTranspileCallback k (timers s) (TranspileCallback php)).
Qed.

(** ** Properties of every run *)

(** X1. In every state the page reaches, in both revisions, at most one
    conversion timer is pending, and one is pending exactly while
    [converting] is set, which is exactly while the convert button reads
    Converting. *)
Theorem one_conversion_at_a_time (evs : list (Event exn)) :
  pendingConversions (run rev evs) =
    (if converting (ui (run rev evs)) then 1 else 0) /\
  pendingConversions (run rev evs) <= 1 /\
  convertLabel (ui (run rev evs)) =
    (if Nat.eqb (pendingConversions (run rev evs)) 1 then "Converting..." else "Convert").
Proof.
  destruct (run_wellFormed evs) as (Hp & _ & _).
  unfold convertLabel. rewrite Hp.
  destruct (converting (ui (run rev evs))); repeat split; auto.
Qed.

Lemma runFrom_loading (evs : list (Event exn)) s :
  loading (ui (runFrom rev evs s)) = loading (ui s) && negb (existsb endsLoading evs).
Proof.
  revert s; induction evs as [|ev evs IH]; intros s.
  - cbn. now rewrite andb_true_r.
  - change (runFrom rev (ev :: evs) s) with (runFrom rev evs (dispatch rev ev s)).
    rewrite IH, dispatch_loading. cbn [existsb].
    destruct (endsLoading ev); cbn; [now rewrite andb_false_r | reflexivity].
Qed.

(** X2. The page is loading exactly until the first of the four outcomes
    of loading the script (no factory, module resolved, module rejected,
    script error): from any state, after any events, [loading] is what
    it was and no such outcome has come; no handler sets it again.  The
    badge of a page started afresh reads Ready once an outcome has come
    and Loading before. *)
Theorem loading_ends_for_good (s : Sys exn) (evs : list (Event exn)) :
  loading (ui (runFrom rev evs s)) = loading (ui s) && negb (existsb endsLoading evs) /\
  statusBadge (ui (run rev evs)) =
    (if existsb endsLoading evs then "Ready" else "Loading").
Proof.
  split; [apply runFrom_loading|].
  unfold statusBadge. rewrite run_runFrom, runFrom_loading. cbn.
  now destruct (existsb endsLoading evs).
Qed.

Lemma dispatch_quiet_while_loading ev s :
  wellFormed s ->
  (loading (ui s) = true -> existsb needsLoaded (trace s) = false) ->
  loading (ui (dispatch rev ev s)) = true ->
  existsb needsLoaded (trace (dispatch rev ev s)) = false.
Proof.
  intros (Hp & Hc & Hl) Hq.
  rewrite dispatch_loading. destruct (endsLoading ev) eqn:He; [discriminate|].
  intros Hload. specialize (Hq Hload). destruct (Hl Hload) as (Hm & Hjs & Hcv).
  clear Hl Hc. revert He.
  by_event ev s; intros He; try discriminate;
    rewrite ?existsb_app, ?Hq; cbn; try reflexivity; try assumption.
  all: try (unfold copyDisabled in Hcopy; rewrite Hjs in Hcopy; discriminate).
  all: try (unfold convertDisabled in Hconv; rewrite Hload in Hconv; discriminate).
  all: apply pending_timer in Hk; rewrite Hp, Hcv in Hk; lia.
Qed.

(** X3. While the page is still loading, in any run of either revision:
    no module is held, the output is empty, no conversion is running or
    pending, the copy and the convert buttons are disabled, and the page
    has raised no alert, called the module never and written nothing to
    the clipboard. *)
Theorem nothing_happens_while_loading (evs : list (Event exn)) :
  loading (ui (run rev evs)) = true ->
  moduleRef (ui (run rev evs)) = None /\
  jsCode (ui (run rev evs)) = EmptyString /\
  converting (ui (run rev evs)) = false /\
  copyDisabled (ui (run rev evs)) = true /\
  convertDisabled (ui (run rev evs)) = true /\
  pendingConversions (run rev evs) = 0 /\
  existsb needsLoaded (trace (run rev evs)) = false.
Proof.
  intros Hload.
  destruct (run_wellFormed evs) as (Hp & _ & Hl).
  destruct (Hl Hload) as (Hm & Hjs & Hcv).
  unfold copyDisabled, convertDisabled. rewrite Hp, Hm, Hjs, Hcv, Hload.
  repeat (split; [reflexivity|]).
  revert Hload.
  apply (run_invariant_wf
           (fun s => loading (ui s) = true -> existsb needsLoaded (trace s) = false)).
  - reflexivity.
  - intros ev s Hw Hq. now apply dispatch_quiet_while_loading.
Qed.


Lemma dispatch_without_module ev s :
  isModuleResolved ev = false ->
  moduleRef (ui s) = None /\ jsCode (ui s) = EmptyString /\
  converting (ui s) = false /\ pendingConversions s = 0 /\
  existsb needsModule (trace s) = false ->
  moduleRef (ui (dispatch rev ev s)) = None /\
  jsCode (ui (dispatch rev ev s)) = EmptyString /\
  converting (ui (dispatch rev ev s)) = false /\
  pendingConversions (dispatch rev ev s) = 0 /\
  existsb needsModule (trace (dispatch rev ev s)) = false.
Proof.
  intros He (Hm & Hjs & Hcv & Hp & Hq). revert He.
  by_event ev s; intros He; try discriminate.
  all: try (unfold copyDisabled in Hcopy; rewrite Hjs in Hcopy; discriminate).
  all: try (apply pending_timer in Hk; lia).
  all: try congruence.
  all: unfold pendingConversions in *; cbn;
    rewrite ?existsb_app, ?filter_app, ?length_app, ?Hq, ?Hp, ?app_nil_r; cbn;
    try (pose proof (filter_remove_nth isTranspileCallback _ _ _ Hk) as Hf;
         cbn in Hf);
    repeat split; try assumption; try reflexivity; try lia.
Qed.

(** X4. A page whose module never resolves (the script fails, the
    factory is missing or rejects, or loading never ends) converts
    nothing, whatever is clicked: the output stays empty, the copy
    button stays disabled, no conversion is scheduled, the module is
    never called and nothing is written to the clipboard. *)
Theorem without_module_no_conversion (evs : list (Event exn)) :
  existsb isModuleResolved evs = false ->
  moduleRef (ui (run rev evs)) = None /\
  jsCode (ui (run rev evs)) = EmptyString /\
  converting (ui (run rev evs)) = false /\
  copyDisabled (ui (run rev evs)) = true /\
  pendingConversions (run rev evs) = 0 /\
  existsb needsModule (trace (run rev evs)) = false.
Proof.
  intros Hevs.
  assert (H : moduleRef (ui (run rev evs)) = None /\
              jsCode (ui (run rev evs)) = EmptyString /\
              converting (ui (run rev evs)) = false /\
              pendingConversions (run rev evs) = 0 /\
              existsb needsModule (trace (run rev evs)) = false).
  { rewrite run_runFrom.
    apply (runFrom_invariant_without isModuleResolved
             (fun s => moduleRef (ui s) = None /\ jsCode (ui s) = EmptyString /\
                       converting (ui s) = false /\ pendingConversions s = 0 /\
                       existsb needsModule (trace s) = false)).
    - intros ev s. apply dispatch_without_module.
    - exact Hevs.
    - cbn. auto. }
  destruct H as (Hm & Hjs & Hcv & Hp & Hq).
  unfold copyDisabled. rewrite Hjs. cbn. repeat split; assumption.
Qed.

(** X5. Nothing empty is ever written to the clipboard: in every run of
    either revision each clipboard write carries a text that is not the
    empty string, because the copy button is disabled while the output
    is empty. *)
Theorem clipboard_never_empty (evs : list (Event exn)) :
  Forall writesSomething (trace (run rev evs)).
Proof.
  apply (run_invariant (fun s => Forall writesSomething (trace s))).
  - constructor.
  - intros ev s Hs.
    by_event ev s; try assumption;
      (apply Forall_app; split; [assumption|]);
      repeat (apply Forall_cons; [try exact I|]); try apply Forall_nil.
    all: cbn; unfold copyDisabled in Hcopy; intros E; rewrite E in Hcopy; discriminate.
Qed.

(** X6. Once a module is held, the alert is never raised again: whatever
    events follow, the alerts in the trace are those that were there. *)
Theorem no_alert_once_loaded (s : Sys exn) (evs : list (Event exn)) :
  moduleRef (ui s) <> None ->
  filter isAlert (trace (runFrom rev evs s)) = filter isAlert (trace s).
Proof.
  intros Hm.
  apply (runFrom_invariant
           (fun s' => moduleRef (ui s') <> None /\
                      filter isAlert (trace s') = filter isAlert (trace s)));
    [|now split].
  intros ev s' [Hm' Ht]. split.
  - rewrite dispatch_moduleRef. now destruct ev.
  - rewrite <- Ht. clear Ht.
    by_event ev s'; rewrite ?filter_app; cbn; rewrite ?app_nil_r; try reflexivity.
    congruence.
Qed.

(** X7. The alert is raised by one thing only: a click on the enabled
    convert button (loading over, no conversion running) of a page that
    holds no module.  That click adds the alert and changes nothing
    else. *)
Theorem alert_only_after_failed_load (ev : Event exn) (s : Sys exn) :
  filter isAlert (trace (dispatch rev ev s)) <> filter isAlert (trace s) ->
  ev = ClickConvert /\
  loading (ui s) = false /\ converting (ui s) = false /\ moduleRef (ui s) = None /\
  dispatch rev ev s = mkSys (ui s) (timers s) (trace s ++ [Alert "WASM not loaded yet"]).
Proof.
  by_event ev s; rewrite ?filter_app; cbn; rewrite ?app_nil_r; intros H;
    try (exfalso; apply H; reflexivity).
  unfold convertDisabled in Hconv. apply orb_false_iff in Hconv as [Hl Hc].
  repeat split; assumption.
Qed.

(** X8. The non-null assertion on [moduleRef.current] in the timer of a
    conversion never fails: in every run of either revision a conversion
    is pending only while a module is held, and no conversion has ever
    found the reference null. *)
Theorem conversion_finds_the_module (evs : list (Event exn)) :
  existsb isNullDeref (trace (run rev evs)) = false /\
  (pendingConversions (run rev evs) = 0 \/
   exists m, moduleRef (ui (run rev evs)) = Some m).
Proof.
  split.
  - apply (run_invariant_wf (fun s => existsb isNullDeref (trace s) = false));
      [reflexivity|].
    intros ev s (Hp & Hc & _) Hq.
    by_event ev s; rewrite ?existsb_app, ?Hq; cbn; try reflexivity; try assumption.
    apply pending_timer in Hk. rewrite Hp in Hk.
    destruct (converting (ui s)); [|lia]. now destruct (Hc eq_refl).
  - destruct (run_wellFormed evs) as (Hp & Hc & _). rewrite Hp.
    destruct (converting (ui (run rev evs))); [right | now left].
    destruct (moduleRef (ui (run rev evs))) as [m|]; [eauto | now destruct (Hc eq_refl)].
Qed.

(** X9. Every conversion that was scheduled has either called the module
    exactly once or is still pending: in every run of either revision
    the calls into the module and the pending conversions add up to the
    conversion timers that were set. *)
Theorem every_conversion_calls_once (evs : list (Event exn)) :
  List.length (filter isModuleCall (trace (run rev evs))) +
  pendingConversions (run rev evs) =
  List.length (filter schedulesConversion (trace (run rev evs))).
Proof.
  apply (run_invariant_wf
           (fun s => List.length (filter isModuleCall (trace s)) + pendingConversions s =
                     List.length (filter schedulesConversion (trace s))));
    [reflexivity|].
  intros ev s (Hp & Hc & _) Hq. unfold pendingConversions in *.
  by_event ev s; rewrite ?filter_app, ?length_app, ?app_nil_r; cbn;
    try (pose proof (filter_remove_nth isTranspileCallback _ _ _ Hk) as Hf;
         cbn in Hf);
    try lia.
  exfalso. destruct (converting (ui s)); [|lia]. now destruct (Hc eq_refl).
Qed.


(** X10. A toast that is visible always has a timer pending that will
    clear it: in every run of either revision, when the toast text is
    not empty some reset of the toast is among the pending timers. *)
Theorem toast_has_pending_timer (evs : list (Event exn)) :
  toastVisible (ui (run rev evs)) = true ->
  existsb isClearToast (timers (run rev evs)) = true.
Proof.
  apply (run_invariant
           (fun s => toastVisible (ui s) = true ->
                     existsb isClearToast (timers s) = true)).
  - discriminate.
  - intros ev s Hs. unfold toastVisible in *.
    by_event ev s; cbn; rewrite ?existsb_app, ?app_nil_r; cbn;
      rewrite ?orb_false_r, ?orb_true_r;
      try assumption; try reflexivity; try discriminate.
    all: intros Ht; rewrite (existsb_remove_other isClearToast _ _ _ Hk eq_refl); auto.
Qed.

(** X11. The page sets two kinds of timers and no other: a conversion
    after 300 ms and a reset of the toast after 2000 ms. *)
Theorem only_known_timers (evs : list (Event exn)) :
  Forall knownTimer (trace (run rev evs)).
Proof.
  apply (run_invariant (fun s => Forall knownTimer (trace s))).
  - constructor.
  - intros ev s Hs.
    by_event ev s; try assumption;
      (apply Forall_app; split; [assumption|]);
      repeat (apply Forall_cons; [cbn; auto|]); apply Forall_nil.
Qed.

(** X12. What one event can change: the output changes only when the
    page is cleared or the timer of a conversion fires, so editing the
    input, loading the sample or clicking convert never touch it; the
    input changes only by editing, loading the sample or clearing, so a
    conversion never touches it. *)
Theorem input_and_output_change_only_by (ev : Event exn) (s : Sys exn) :
  (jsCode (ui (dispatch rev ev s)) = jsCode (ui s) \/
   ev = ClickClear \/
   exists k php,
     ev = TimerFires k /\ nth_error (timers s) k = Some (TranspileCallback php)) /\
  (phpCode (ui (dispatch rev ev s)) = phpCode (ui s) \/
   ev = ClickClear \/ ev = ClickSample \/ exists v, ev = EditPhp v).
Proof.
  by_event ev s; split; try (left; reflexivity); eauto 6.
Qed.

Lemma nth_error_middle {A : Type} (l r : list A) (x : A) :
  nth_error (l ++ x :: r) (List.length l) = Some x.
Proof. induction l; cbn; auto. Qed.

Lemma remove_nth_middle {A : Type} (l r : list A) (x : A) :
  remove_nth (List.length l) (l ++ x :: r) = l ++ r.
Proof. induction l; cbn; [reflexivity | now f_equal]. Qed.

Lemma dispatch_awaits_timer ev s (m : TranspilerModule exn) (before : list Callback)
      (php : string) :
  isTimerFires ev || isModuleResolved ev = false ->
  (moduleRef (ui s) = Some m /\ converting (ui s) = true /\
   exists more, timers s = before ++ TranspileCallback php :: more) ->
  moduleRef (ui (dispatch rev ev s)) = Some m /\
  converting (ui (dispatch rev ev s)) = true /\
  exists more, timers (dispatch rev ev s) = before ++ TranspileCallback php :: more.
Proof.
  intros He (Hm & Hc & more & Ht). revert He.
  by_event ev s; intros He; try discriminate;
    try (unfold convertDisabled in Hconv; rewrite Hc, orb_true_r in Hconv; discriminate);
    rewrite ?Ht, <- ?app_assoc, <- ?app_comm_cons;
    (split; [assumption | split; [assumption | eauto]]).
Qed.

(** X13. A conversion converts the text that was in the input when
    convert was clicked.  Whatever is edited, loaded, cleared, copied or
    clicked before the timer fires, the convert button stays disabled
    meanwhile, and when the timer fires the output is what the module
    gives for the text at the click (the fixed text when it throws), the
    input is left as it then is, and [converting] is off again. *)
Theorem conversion_uses_text_at_click
    (s : Sys exn) (m : TranspilerModule exn) (mid : list (Event exn)) :
  moduleRef (ui s) = Some m ->
  convertDisabled (ui s) = false ->
  existsb (fun ev => isTimerFires ev || isModuleResolved ev) mid = false ->
  convertDisabled (ui (runFrom rev mid (dispatch rev ClickConvert s))) = true /\
  jsCode (ui (dispatch rev (TimerFires (List.length (timers s)))
                (runFrom rev mid (dispatch rev ClickConvert s)))) =
    conversionOutput m (phpCode (ui s)) /\
  phpCode (ui (dispatch rev (TimerFires (List.length (timers s)))
                 (runFrom rev mid (dispatch rev ClickConvert s)))) =
    phpCode (ui (runFrom rev mid (dispatch rev ClickConvert s))) /\
  converting (ui (dispatch rev (TimerFires (List.length (timers s)))
                    (runFrom rev mid (dispatch rev ClickConvert s)))) = false.
Proof.
  intros Hm Hen Hmid.
  assert (H : moduleRef (ui (runFrom rev mid (dispatch rev ClickConvert s))) = Some m /\
              converting (ui (runFrom rev mid (dispatch rev ClickConvert s))) = true /\
              exists more,
                timers (runFrom rev mid (dispatch rev ClickConvert s)) =
                timers s ++ TranspileCallback (phpCode (ui s)) :: more).
  { apply (runFrom_invariant_without
             (fun ev => isTimerFires ev || isModuleResolved ev)
             (fun s' => moduleRef (ui s') = Some m /\ converting (ui s') = true /\
                        exists more,
                          timers s' = timers s ++ TranspileCallback (phpCode (ui s)) :: more)).
    - intros ev s'. apply dispatch_awaits_timer.
    - exact Hmid.
    - cbn [dispatch]. rewrite Hen. unfold runTranspile. rewrite Hm. cbn. eauto. }
  destruct H as (Hm1 & Hc1 & more & Ht1).
  set (s1 := runFrom rev mid (dispatch rev ClickConvert s)) in *.
  split.
  { unfold convertDisabled. rewrite Hc1. apply orb_true_r. }
  cbn [dispatch]. rewrite Ht1, nth_error_middle.
  unfold perform. cbn [ui runCallback].
  rewrite transpileCallback_state, Hm1. cbn. auto.
Qed.


Lemma In_remove_nth {A : Type} (k : nat) (l : list A) (x : A) :
  In x (remove_nth k l) -> In x l.
Proof.
  revert k; induction l as [|y l IH]; intros [|k]; cbn; auto.
  intros [H|H]; [now left | right; eauto].
Qed.

Lemma requested_grows php s (ui' : State exn) (timers' : list Callback)
      (effs : list (Effect exn)) :
  requested php s -> requested php (mkSys ui' timers' (trace s ++ effs)).
Proof. unfold requested. cbn. intros H. apply in_or_app. now left. Qed.

Lemma dispatch_requested ev s php :
  requested php s -> requested php (dispatch rev ev s).
Proof. intros H. by_event ev s; try assumption; now apply requested_grows. Qed.

Lemma dispatch_pending_requested ev s :
  (forall php, In (TranspileCallback php) (timers s) -> requested php s) ->
  forall php, In (TranspileCallback php) (timers (dispatch rev ev s)) ->
              requested php (dispatch rev ev s).
Proof.
  intros Hs php Hin. 
  assert (Hold : In (TranspileCallback php) (timers s) -> requested php (dispatch rev ev s)).
  { intros H. apply dispatch_requested, Hs, H. }
  revert Hin Hold.
  by_event ev s; intros Hin Hold; rewrite ?app_nil_r in Hin;
    try (apply Hold; assumption);
    try (apply Hold; eapply In_remove_nth; eassumption);
    apply in_app_or in Hin as [Hin|Hin]; try (apply Hold; assumption);
    cbn in Hin; destruct Hin as [Hin|[]]; try discriminate.
  inversion Hin; subst. unfold requested. cbn. apply in_or_app. right. now left.
Qed.


Lemma runFrom_invariant_in (P : Event exn -> Prop) (I : Sys exn -> Prop) :
  (forall ev s, P ev -> I s -> I (dispatch rev ev s)) ->
  forall evs s, (forall ev, In ev evs -> P ev) -> I s -> I (runFrom rev evs s).
Proof.
  intros Hstep evs. induction evs as [|ev evs IH]; intros s Hok Hs.
  - exact Hs.
  - apply IH.
    + intros ev' Hin. apply Hok. now right.
    + apply Hstep; [apply Hok; now left | exact Hs].
Qed.

Lemma dispatch_output_explained ev s (m : TranspilerModule exn) :
  (forall m', ev = ModuleResolved m' -> m' = m) ->
  wellFormed s /\
  (moduleRef (ui s) = None \/ moduleRef (ui s) = Some m) /\
  (forall php, In (TranspileCallback php) (timers s) -> requested php s) /\
  (jsCode (ui s) = EmptyString \/
   exists php, requested php s /\ jsCode (ui s) = conversionOutput m php) ->
  wellFormed (dispatch rev ev s) /\
  (moduleRef (ui (dispatch rev ev s)) = None \/
   moduleRef (ui (dispatch rev ev s)) = Some m) /\
  (forall php, In (TranspileCallback php) (timers (dispatch rev ev s)) ->
               requested php (dispatch rev ev s)) /\
  (jsCode (ui (dispatch rev ev s)) = EmptyString \/
   exists php, requested php (dispatch rev ev s) /\
               jsCode (ui (dispatch rev ev s)) = conversionOutput m php).
Proof.
  intros Hev (Hw & Hmod & Htim & Hout).
  split; [now apply dispatch_wellFormed|].
  split.
  { rewrite dispatch_moduleRef. destruct ev; auto.
    right. f_equal. now apply Hev. }
  split; [now apply dispatch_pending_requested|].
  assert (Hkeep : jsCode (ui (dispatch rev ev s)) = jsCode (ui s) ->
                  jsCode (ui (dispatch rev ev s)) = EmptyString \/
                  exists php, requested php (dispatch rev ev s) /\
                              jsCode (ui (dispatch rev ev s)) = conversionOutput m php).
  { intros E. rewrite E. destruct Hout as [Hjs|(q & Hq & Hjs)]; [now left | right].
    exists q. split; [now apply dispatch_requested | exact Hjs]. }
  destruct Hw as (Hp & Hc & _).
  clear Hev. revert Hkeep.
  by_event ev s; intros Hkeep;
    try (apply Hkeep; reflexivity); try (left; reflexivity).
  - exfalso. apply pending_timer in Hk. rewrite Hp in Hk.
    destruct (converting (ui s)); [|lia]. now destruct (Hc eq_refl).
  - right. exists php. split.
    + apply requested_grows, Htim. eapply nth_error_In; eassumption.
    + cbn. unfold conversionOutput.
      destruct Hmod as [Hmod|Hmod]; rewrite Hmod in Hm; [discriminate|].
      inversion Hm; subst. now rewrite Hcall.
  - right. exists php. split.
    + apply requested_grows, Htim. eapply nth_error_In; eassumption.
    + cbn. unfold conversionOutput.
      destruct Hmod as [Hmod|Hmod]; rewrite Hmod in Hm; [discriminate|].
      inversion Hm; subst. now rewrite Hcall.
Qed.

(** X14. What the output box shows comes from the module: when the
    factory resolves to one module [m] only, the output of every state
    the page reaches is either empty or what [m] gives (its result, or
    the fixed text when it throws) for a text whose conversion was
    requested by a click. *)
Theorem output_comes_from_the_module
    (m : TranspilerModule exn) (evs : list (Event exn)) :
  (forall m', In (ModuleResolved m') evs -> m' = m) ->
  jsCode (ui (run rev evs)) = EmptyString \/
  exists php,
    requested php (run rev evs) /\
    jsCode (ui (run rev evs)) = conversionOutput m php.
Proof.
  intros Hevs.
  apply (runFrom_invariant_in
           (fun ev => forall m', ev = ModuleResolved m' -> m' = m)
           (fun s =>
              wellFormed s /\
              (moduleRef (ui s) = None \/ moduleRef (ui s) = Some m) /\
              (forall php, In (TranspileCallback php) (timers s) -> requested php s) /\
              (jsCode (ui s) = EmptyString \/
               exists php, requested php s /\ jsCode (ui s) = conversionOutput m php))
           (fun ev s => dispatch_output_explained ev s m) evs initialSys).
  - intros ev Hin m' ->. now apply Hevs.
  - split; [apply initial_wellFormed|]. cbn. repeat split; auto.
Qed.

Lemma copies_grows (m : TranspilerModule exn) s (ui' : State exn)
      (timers' : list Callback) (effs : list (Effect exn)) (eff : Effect exn) :
  copiesOutputOf m s eff ->
  copiesOutputOf m (mkSys ui' timers' (trace s ++ effs)) eff.
Proof.
  destruct eff; cbn; auto.
  intros (php & Hr & E). exists php. split; [now apply requested_grows | exact E].
Qed.

Lemma dispatch_copies ev s (m : TranspilerModule exn) :
  (jsCode (ui s) = EmptyString \/
   exists php, requested php s /\ jsCode (ui s) = conversionOutput m php) ->
  Forall (copiesOutputOf m s) (trace s) ->
  Forall (copiesOutputOf m (dispatch rev ev s)) (trace (dispatch rev ev s)).
Proof.
  intros Hout Hs.
  by_event ev s; try assumption;
    (apply Forall_app; split;
     [ eapply Forall_impl; [|exact Hs]; intros a Ha; apply copies_grows; exact Ha |]);
    repeat (apply Forall_cons; [try exact I|]); try apply Forall_nil.
  all: unfold copyDisabled in Hcopy;
    destruct Hout as [E|(php & Hr & E)]; [rewrite E in Hcopy; discriminate|];
    exists php; split; [now apply requested_grows | exact E].
Qed.

(** X15. What is copied came from the module: when the factory resolves
    to one module [m] only, every text the page has written to the
    clipboard is what [m] gave (its result, or the fixed text when it
    threw) for a text whose conversion was requested by a click. *)
Theorem clipboard_holds_module_output
    (m : TranspilerModule exn) (evs : list (Event exn)) :
  (forall m', In (ModuleResolved m') evs -> m' = m) ->
  Forall (copiesOutputOf m (run rev evs)) (trace (run rev evs)).
Proof.
  intros Hevs.
  apply (runFrom_invariant_in
           (fun ev => forall m', ev = ModuleResolved m' -> m' = m)
           (fun s =>
              (wellFormed s /\
               (moduleRef (ui s) = None \/ moduleRef (ui s) = Some m) /\
               (forall php, In (TranspileCallback php) (timers s) -> requested php s) /\
               (jsCode (ui s) = EmptyString \/
                exists php, requested php s /\ jsCode (ui s) = conversionOutput m php)) /\
              Forall (copiesOutputOf m s) (trace s))).
  - intros ev s Hev [Hinv Hs]. split.
    + now apply dispatch_output_explained.
    + apply dispatch_copies; [apply Hinv | exact Hs].
  - intros ev Hin m' ->. now apply Hevs.
  - split; [|constructor].
    split; [apply initial_wellFormed|]. cbn. repeat split; auto.
Qed.

(** X16. A failed load is never silent: in every state the page
    reaches, when loading is over and no module is held, an error was
    written to the console. *)
Theorem failed_load_is_logged (evs : list (Event exn)) :
  loading (ui (run rev evs)) = false ->
  moduleRef (ui (run rev evs)) = None ->
  existsb isConsoleMessage (trace (run rev evs)) = true.
Proof.
  apply (run_invariant
           (fun s => loading (ui s) = false -> moduleRef (ui s) = None ->
                     existsb isConsoleMessage (trace s) = true)).
  - discriminate.
  - intros ev s Hs.
    by_event ev s; rewrite ?existsb_app; cbn; rewrite ?orb_true_r;
      try reflexivity; try discriminate; try assumption;
      intros Hl Hn; rewrite (Hs Hl Hn); reflexivity.
Qed.

Lemma forallb_remove_nth {A : Type} (p : A -> bool) (k : nat) (l : list A) :
  forallb p l = true -> forallb p (remove_nth k l) = true.
Proof.
  revert k; induction l as [|y l IH]; intros [|k]; cbn; auto.
  - intros H. apply andb_true_iff in H. tauto.
  - intros H. apply andb_true_iff in H as [H1 H2]. rewrite H1. cbn. auto.
Qed.

Lemma filter_all {A : Type} (p : A -> bool) (l : list A) :
  forallb p l = true -> filter p l = l.
Proof.
  induction l as [|y l IH]; cbn; auto.
  intros H. apply andb_true_iff in H as [H1 H2]. rewrite H1. f_equal. auto.
Qed.

Lemma dispatch_earlier ev s :
  rev = Part000 ->
  toast (ui s) = EmptyString /\ showModal (ui s) = false /\
  forallb isTranspileCallback (timers s) = true /\
  existsb schedulesClearToast (trace s) = false ->
  toast (ui (dispatch rev ev s)) = EmptyString /\
  showModal (ui (dispatch rev ev s)) = false /\
  forallb isTranspileCallback (timers (dispatch rev ev s)) = true /\
  existsb schedulesClearToast (trace (dispatch rev ev s)) = false.
Proof.
  intros Hrev (Ht & Hm & Hti & Htr). revert Hrev.
  by_event ev s; intros Hrev; try discriminate;
    rewrite ?app_nil_r, ?forallb_app, ?existsb_app, ?Htr, ?Hti; cbn;
    repeat split; try assumption; try reflexivity;
    apply forallb_remove_nth; assumption.
Qed.

End Runs.

(** ** Each revision alone: the earlier page, toasts and the modal *)

Section Earlier.

Variable exn : Type.

(** X17. The earlier revision of the page shows no toast and no modal
    and sets no timer but the conversion: in each of its runs every
    pending timer is a conversion, so at most one timer is pending, and
    no reset of a toast was ever scheduled. *)
Theorem earlier_revision_only_converts (evs : list (Event exn)) :
  toast (ui (run Part000 evs)) = EmptyString /\
  showModal (ui (run Part000 evs)) = false /\
  forallb isTranspileCallback (timers (run Part000 evs)) = true /\
  existsb schedulesClearToast (trace (run Part000 evs)) = false /\
  List.length (timers (run Part000 evs)) <= 1.
Proof.
  assert (H : toast (ui (run Part000 evs)) = EmptyString /\
              showModal (ui (run Part000 evs)) = false /\
              forallb isTranspileCallback (timers (run Part000 evs)) = true /\
              existsb schedulesClearToast (trace (run Part000 evs)) = false).
  { apply (run_invariant exn Part000
             (fun s => toast (ui s) = EmptyString /\ showModal (ui s) = false /\
                       forallb isTranspileCallback (timers s) = true /\
                       existsb schedulesClearToast (trace s) = false)).
    - cbn. auto.
    - intros ev s. now apply dispatch_earlier. }
  destruct H as (Ht & Hm & Hti & Htr). repeat (split; [assumption|]).
  destruct (run_wellFormed exn Part000 evs) as (Hp & _ & _).
  unfold pendingConversions in Hp. rewrite (filter_all _ _ Hti) in Hp. rewrite Hp.
  destruct (converting (ui (run Part000 evs))); lia.
Qed.

End Earlier.

(** ** The current revision alone: toasts and the modal *)

Section Toasts.

Variable exn : Type.

(** X18. Timers are never cancelled.  Of two toasts shown one after the
    other (by the sample or the clear button), the timer of the first
    clears the second: when it fires the toast is hidden, while the
    timer that the second toast set is still pending. *)
Theorem earlier_timer_clears_later_toast (s : Sys exn) (first second : Event exn) :
  alwaysToasts first = true ->
  alwaysToasts second = true ->
  toastVisible (ui (dispatch PageTsx second (dispatch PageTsx first s))) = true /\
  toast (ui (dispatch PageTsx (TimerFires (List.length (timers s)))
               (dispatch PageTsx second (dispatch PageTsx first s)))) = EmptyString /\
  timers (dispatch PageTsx (TimerFires (List.length (timers s)))
            (dispatch PageTsx second (dispatch PageTsx first s))) =
    timers s ++ [ClearToast].
Proof.
  intros H1 H2.
  destruct first; try discriminate; destruct second; try discriminate;
    (split; [reflexivity|]);
    cbn [dispatch perform loadSample clearAll showToast fst snd ui timers trace
         scheduled flat_map app];
    rewrite <- app_assoc; cbn [app];
    rewrite nth_error_middle, remove_nth_middle; cbn; now rewrite app_nil_r.
Qed.

(** X19. A click inside the modal closes it unless it lands on the
    panel: the backdrop closes it, the close button closes it although
    the panel around it stops the click from going further, and a click
    on the panel itself is stopped before it reaches the backdrop.  No
    other part of the state changes. *)
Theorem modal_click (target : ModalTarget) (st : State exn) :
  clickModal target st =
  match target with
  | Panel => st
  | Backdrop | CloseButton => setShowModal false st
  end.
Proof.
  unfold clickModal.
  destruct st as [mr l c t sm p j]; destruct sm, target; reflexivity.
Qed.

End Toasts.

(** ** The properties at work *)

(** A page that is still loading, clicked and edited. *)
Lemma nothing_happens_while_loading_witness :
  loading (ui (run (exn:=unit) PageTsx
                 [EditPhp "x"; ClickConvert; ClickCopy; ClickSample])) = true /\
  existsb needsLoaded
    (trace (run (exn:=unit) PageTsx
              [EditPhp "x"; ClickConvert; ClickCopy; ClickSample])) = false.
Proof.
  split; [reflexivity|].
  destruct (nothing_happens_while_loading unit PageTsx
              [EditPhp "x"; ClickConvert; ClickCopy; ClickSample] eq_refl)
    as (_ & _ & _ & _ & _ & _ & H).
  exact H.
Defined.

(** The script fails to load, and the page is used all the same. *)
Lemma without_module_no_conversion_witness :
  existsb (isModuleResolved (exn:=unit))
    [ScriptError; ClickConvert; EditPhp "x"; ClickCopy; ClickSample] = false /\
  jsCode (ui (run (exn:=unit) Part000
                [ScriptError; ClickConvert; EditPhp "x"; ClickCopy; ClickSample])) =
    EmptyString.
Proof.
  split; [reflexivity|].
  destruct (without_module_no_conversion unit Part000
              [ScriptError; ClickConvert; EditPhp "x"; ClickCopy; ClickSample] eq_refl)
    as (_ & H & _).
  exact H.
Defined.

(** A loaded page converts twice; no alert is raised. *)
Lemma no_alert_once_loaded_witness :
  moduleRef (ui (run PageTsx [ModuleResolved echoModule])) <> None /\
  filter isAlert
    (trace (runFrom PageTsx [ClickConvert; TimerFires 0; ClickConvert]
              (run PageTsx [ModuleResolved echoModule]))) = [].
Proof.
  assert (H : moduleRef (ui (run PageTsx [ModuleResolved echoModule])) <> None)
    by (cbn; discriminate).
  split; [exact H|].
  exact (no_alert_once_loaded unit PageTsx (run PageTsx [ModuleResolved echoModule])
           [ClickConvert; TimerFires 0; ClickConvert] H).
Defined.

(** The script fails to load and convert is clicked. *)
Lemma alert_only_after_failed_load_witness :
  filter isAlert (trace (dispatch PageTsx ClickConvert (run (exn:=unit) PageTsx [ScriptError])))
    <> filter isAlert (trace (run (exn:=unit) PageTsx [ScriptError])) /\
  moduleRef (ui (run (exn:=unit) PageTsx [ScriptError])) = None.
Proof.
  assert (H : filter isAlert
                (trace (dispatch PageTsx ClickConvert (run (exn:=unit) PageTsx [ScriptError])))
              <> filter isAlert (trace (run (exn:=unit) PageTsx [ScriptError])))
    by (cbn; discriminate).
  split; [exact H|].
  destruct (alert_only_after_failed_load unit PageTsx ClickConvert
              (run PageTsx [ScriptError]) H) as (_ & _ & _ & Hm & _).
  exact Hm.
Defined.

(** The sample is loaded: its toast is visible and its timer pending. *)
Lemma toast_has_pending_timer_witness :
  toastVisible (ui (run (exn:=unit) PageTsx [ClickSample])) = true /\
  existsb isClearToast (timers (run (exn:=unit) PageTsx [ClickSample])) = true.
Proof.
  split; [reflexivity|].
  apply (toast_has_pending_timer unit PageTsx [ClickSample]). reflexivity.
Defined.

(** Convert is clicked on the initial text; before the timer fires the
    input is edited and then cleared. *)
Lemma conversion_uses_text_at_click_witness :
  moduleRef (ui (run PageTsx [ModuleResolved echoModule])) = Some echoModule /\
  convertDisabled (ui (run PageTsx [ModuleResolved echoModule])) = false /\
  jsCode (ui (dispatch PageTsx (TimerFires 0)
                (runFrom PageTsx [EditPhp "x"; ClickClear]
                   (dispatch PageTsx ClickConvert
                      (run PageTsx [ModuleResolved echoModule]))))) =
    ("/* " ++ initialPhp ++ " */")%string.
Proof.
  split; [reflexivity|]. split; [reflexivity|].
  destruct (conversion_uses_text_at_click unit PageTsx
              (run PageTsx [ModuleResolved echoModule]) echoModule
              [EditPhp "x"; ClickClear] eq_refl eq_refl eq_refl)
    as (_ & H & _).
  exact H.
Defined.

(** One module is resolved, and one conversion runs to its end. *)
Lemma output_comes_from_the_module_witness :
  (forall m', In (ModuleResolved m')
                 [ModuleResolved echoModule; ClickConvert; TimerFires 0] ->
              m' = echoModule) /\
  (jsCode (ui (run PageTsx [ModuleResolved echoModule; ClickConvert; TimerFires 0])) =
     EmptyString \/
   exists php,
     requested php (run PageTsx [ModuleResolved echoModule; ClickConvert; TimerFires 0]) /\
     jsCode (ui (run PageTsx [ModuleResolved echoModule; ClickConvert; TimerFires 0])) =
       conversionOutput echoModule php).
Proof.
  assert (H : forall m', In (ModuleResolved m')
                            [ModuleResolved echoModule; ClickConvert; TimerFires 0] ->
                         m' = echoModule).
  { intros m' [E|[E|[E|[]]]]; [now inversion E | discriminate | discriminate]. }
  split; [exact H|].
  exact (output_comes_from_the_module unit PageTsx echoModule
           [ModuleResolved echoModule; ClickConvert; TimerFires 0] H).
Defined.

(** One conversion runs to its end and its output is copied. *)
Lemma clipboard_holds_module_output_witness :
  (forall m', In (ModuleResolved m')
                 [ModuleResolved echoModule; ClickConvert; TimerFires 0; ClickCopy] ->
              m' = echoModule) /\
  Forall (copiesOutputOf echoModule
            (run PageTsx [ModuleResolved echoModule; ClickConvert; TimerFires 0; ClickCopy]))
         (trace (run PageTsx
                   [ModuleResolved echoModule; ClickConvert; TimerFires 0; ClickCopy])).
Proof.
  assert (H : forall m', In (ModuleResolved m')
                            [ModuleResolved echoModule; ClickConvert; TimerFires 0; ClickCopy] ->
                         m' = echoModule).
  { intros m' [E|[E|[E|[E|[]]]]];
      [now inversion E | discriminate | discriminate | discriminate]. }
  split; [exact H|].
  exact (clipboard_holds_module_output unit PageTsx echoModule
           [ModuleResolved echoModule; ClickConvert; TimerFires 0; ClickCopy] H).
Defined.

(** The factory rejects. *)
Lemma failed_load_is_logged_witness :
  loading (ui (run (exn:=unit) Part000 [ModuleRejected])) = false /\
  moduleRef (ui (run (exn:=unit) Part000 [ModuleRejected])) = None /\
  existsb isConsoleMessage (trace (run (exn:=unit) Part000 [ModuleRejected])) = true.
Proof.
  split; [reflexivity|]. split; [reflexivity|].
  apply (failed_load_is_logged unit Part000 [ModuleRejected]); reflexivity.
Defined.

(** The sample is loaded and then everything is cleared; the timer of
    the first toast fires. *)
Lemma earlier_timer_clears_later_toast_witness :
  alwaysToasts (exn:=unit) ClickSample = true /\
  alwaysToasts (exn:=unit) ClickClear = true /\
  toast (ui (dispatch PageTsx (TimerFires 0)
               (dispatch PageTsx ClickClear
                  (dispatch PageTsx ClickSample (initialSys (exn:=unit)))))) =
    EmptyString.
Proof.
  split; [reflexivity|]. split; [reflexivity|].
  destruct (earlier_timer_clears_later_toast unit initialSys ClickSample ClickClear
              eq_refl eq_refl) as (_ & H & _).
  exact H.
Defined.


End PageMore.
